(** * Commander Spellbook backend: variant generation and reconciliation

    A shallow embedding of [backend/spellbook/variants.py] and of the
    variant read endpoints of [backend/spellbook/views.py], with the
    properties of the enumeration-and-reconciliation engine proved over it.

    Conventions.
    - Python integers are [Z]; identifiers of cards, features and combos are
      primary keys, hence [Z] as well.
    - A Python [set] is a [gset]; the priority dictionary (only ever looked
      up) is a [gmap]; the dictionary of discovered variants, whose iteration
      order drives the writes, is an insertion-ordered association list.
    - Many-to-many relations hold the ids of the related rows; the foreign
      keys of the relational store guarantee that these rows exist.
    - Exceptions are explicit: a computation yields [Ok], [Raise] or, for the
      two loops that need fuel in the embedding, [Diverge] when the fuel is
      exhausted.  Theorems show that enough fuel always avoids [Diverge].
    - The MILP solver and the SHA-256 digest are external libraries; they are
      parameters of the development. *)

From Stdlib Require Import ZArith Lia.
From stdpp Require Import base option list sorting gmap strings pretty fin_maps fin_sets.

Local Open Scope Z_scope.

(** ** Constants of [variants.py] *)

Definition RECURSION_LIMIT : Z := 20.
Definition MAX_CARDS_IN_COMBO : Z := 10.

(** ** Exceptions and the result monad *)

Inductive exn : Type :=
  | RecursionLimitReached (combo : Z)   (* Exception('Recursion limit reached with combo ..') *)
  | KeyError (key : Z)                  (* priorityc[c] on a missing key *)
  | ValueError                          (* pyomo rejects a trivially false constraint *)
  | DoesNotExist                        (* QuerySet.get found no row *)
  | MultipleObjectsReturned.            (* QuerySet.get found several rows *)

Inductive res (A : Type) : Type :=
  | Ok (a : A)
  | Raise (e : exn)
  | Diverge.
Arguments Ok {A} a.
Arguments Raise {A} e.
Arguments Diverge {A}.

#[global] Instance res_ret : MRet res := fun A a => Ok a.
#[global] Instance res_bind : MBind res := fun A B f m =>
  match m with
  | Ok a => f a
  | Raise e => Raise e
  | Diverge => Diverge
  end.

(** Monadic left fold: a [for] loop whose body may raise. *)
Fixpoint foldM {A S : Type} (f : S -> A -> res S) (s : S) (l : list A) : res S :=
  match l with
  | [] => Ok s
  | x :: l' => s' ← f s x; foldM f s' l'
  end.

(** ** Sorting as [sorted(xs, key=...)]: stable, ascending on the key *)

Fixpoint insert_by_key {A : Type} (key : A -> Z) (x : A) (l : list A) : list A :=
  match l with
  | [] => [x]
  | y :: l' => if key x <=? key y then x :: l else y :: insert_by_key key x l'
  end.

Definition sorted_by_key {A : Type} (key : A -> Z) (l : list A) : list A :=
  foldr (insert_by_key key) [] l.

Definition sorted (l : list Z) : list Z := sorted_by_key (fun x => x) l.

(** ** [json.dumps] on a list of integers: ["[1, 2, 3]"] *)

Fixpoint join (sep : string) (l : list string) : string :=
  match l with
  | [] => ""
  | [s] => s
  | s :: l' => s +:+ sep +:+ join sep l'
  end.

Definition json_dumps (l : list Z) : string :=
  "[" +:+ join ", " (map pretty l) +:+ "]".

(** ** [unique_id_from_cards_ids] *)

Section UniqueId.
(** [hashlib.sha256().update(bytes).hexdigest()], on the UTF-8 encoding of
    an ASCII string. *)
Variable sha256_hexdigest : string -> string.

Definition unique_id_from_cards_ids (cards : list Z) : string :=
  sha256_hexdigest (json_dumps (sorted cards)).
End UniqueId.


(** ** The relational store *)

Module Card.
Record t : Type := { id : Z }.
End Card.

Module Feature.
(** [cards]: the cards that grant the feature; [produced_by_combos]: the
    combos that produce it (ids, in the order the store returns them). *)
Record t : Type := {
  id : Z;
  cards : list Z;
  produced_by_combos : list Z
}.
End Feature.

Module Combo.
Record t : Type := {
  id : Z;
  includes : list Z;            (* required cards *)
  needs : list Z;               (* required features *)
  removes : list Z;             (* features the combo cancels *)
  prerequisites : string;
  description : string;
  generator : bool
}.
End Combo.

Module Variant.
(** Modelled from the spec: [models.py] is not part of the sources; the
    status enumeration is {NEW, OK, NOT_WORKING, RESTORE}. *)
Inductive Status : Type := NEW | OK | NOT_WORKING | RESTORE.

(** Modelled from the spec: the status a freshly constructed [Variant]
    has when none is given is the default "new" status. *)
Definition default_status : Status := NEW.

Record t : Type := {
  unique_id : string;
  includes : gset Z;            (* cards *)
  of_ : gset Z;                 (* realized combos; [of] in the source *)
  produces : gset Z;            (* features *)
  status : Status;
  prerequisites : string;
  description : string
}.

Definition set_of (x : gset Z) (v : t) : t :=
  {| unique_id := unique_id v; includes := includes v; of_ := x;
     produces := produces v; status := status v;
     prerequisites := prerequisites v; description := description v |}.
Definition set_produces (x : gset Z) (v : t) : t :=
  {| unique_id := unique_id v; includes := includes v; of_ := of_ v;
     produces := x; status := status v;
     prerequisites := prerequisites v; description := description v |}.
Definition set_includes (x : gset Z) (v : t) : t :=
  {| unique_id := unique_id v; includes := x; of_ := of_ v;
     produces := produces v; status := status v;
     prerequisites := prerequisites v; description := description v |}.
Definition set_status (x : Status) (v : t) : t :=
  {| unique_id := unique_id v; includes := includes v; of_ := of_ v;
     produces := produces v; status := x;
     prerequisites := prerequisites v; description := description v |}.
Definition set_prerequisites (x : string) (v : t) : t :=
  {| unique_id := unique_id v; includes := includes v; of_ := of_ v;
     produces := produces v; status := status v;
     prerequisites := x; description := description v |}.
Definition set_description (x : string) (v : t) : t :=
  {| unique_id := unique_id v; includes := includes v; of_ := of_ v;
     produces := produces v; status := status v;
     prerequisites := prerequisites v; description := x |}.
End Variant.

#[global] Instance Status_eq_dec : EqDecision Variant.Status.
Proof. solve_decision. Defined.

(** [Data]: the querysets of the pass.  They are lazy, so each use reads the
    current content of the store; the embedding threads the value. *)
Record Data : Type := {
  combos : list Combo.t;
  cards : list Card.t;
  features : list Feature.t;
  variants : list Variant.t
}.

Definition set_variants (vs : list Variant.t) (data : Data) : Data :=
  {| combos := combos data; cards := cards data; features := features data;
     variants := vs |}.

(** Navigation along the relations, as the ORM joins them. *)
Definition get_combo (data : Data) (i : Z) : option Combo.t :=
  find (fun c => Combo.id c =? i) (combos data).
Definition get_feature (data : Data) (j : Z) : option Feature.t :=
  find (fun f => Feature.id f =? j) (features data).

(** [combo.needs.all()] *)
Definition needs_all (data : Data) (combo : Combo.t) : list Feature.t :=
  omap (get_feature data) (Combo.needs combo).
(** [feature.produced_by_combos.all()] *)
Definition produced_by_combos_all (data : Data) (feature : Feature.t) : list Combo.t :=
  omap (get_combo data) (Feature.produced_by_combos feature).

(** ** [priority_dict_for_combo] *)

Fixpoint priority_dict_fuel (fuel : nat) (data : Data) (combo : Combo.t)
    (recursion_counter : Z) : res (gmap Z Z) :=
  if RECURSION_LIMIT <? recursion_counter
  then Raise (RecursionLimitReached (Combo.id combo))
  else
    match fuel with
    | O => Diverge
    | S fuel' =>
      let result : gmap Z Z :=
        foldl (fun result card => <[card := recursion_counter]> result)
              ∅ (Combo.includes combo) in
      foldM (fun result feature =>
          let result :=
            foldl (fun result card => <[card := recursion_counter + 1]> result)
                  result (Feature.cards feature) in
          foldM (fun result combo' =>
              p1 ← priority_dict_fuel fuel' data combo' (recursion_counter + 2);
              Ok (result ∪ p1))          (* p1 | result: result takes precedence *)
            result (produced_by_combos_all data feature))
        result (needs_all data combo)
    end.

(** The counter grows by 2 per level and stops above [RECURSION_LIMIT], so
    this much fuel is never exhausted. *)
Definition priority_dict_for_combo (data : Data) (combo : Combo.t)
    (recursion_counter : Z) : res (gmap Z Z) :=
  priority_dict_fuel (Z.to_nat (RECURSION_LIMIT + 2 - recursion_counter))
                     data combo recursion_counter.

(** ** [removed_features], [update_variant], [create_variant] *)

(** [variant.of.values_list('removes__id', flat=True)], as a set. *)
Definition removes_of (data : Data) (variant : Variant.t) : gset Z :=
  ⋃ (map (fun c => list_to_set (Combo.removes c))
         (filter (fun c => Combo.id c ∈ Variant.of_ variant) (combos data))).

Definition removed_features (data : Data) (variant : Variant.t)
    (features : gset Z) : gset Z :=
  features ∖ removes_of data variant.

(** [data.variants.get(unique_id=unique_id)] *)
Definition variants_get (data : Data) (unique_id : string) : res Variant.t :=
  match filter (fun v => Variant.unique_id v = unique_id) (variants data) with
  | [] => Raise DoesNotExist
  | [v] => Ok v
  | _ :: _ :: _ => Raise MultipleObjectsReturned
  end.

(** Writing back the row obtained by [get]: it is the only row with its
    unique id. *)
Definition store_row (row : Variant.t) (data : Data) : Data :=
  set_variants
    (map (fun v => if decide (Variant.unique_id v = Variant.unique_id row)
                   then row else v) (variants data))
    data.

(** ['\n'.join(..)] *)
Definition newline : string := String (Ascii.ascii_of_nat 10) EmptyString.

(** [data.combos.filter(id__in=combos_included)] *)
Definition combos_in (data : Data) (combos_included : gset Z) : list Combo.t :=
  filter (fun c => Combo.id c ∈ combos_included) (combos data).

Definition update_variant (data : Data) (unique_id : string)
    (combos_included : gset Z) (features : gset Z) (ok : bool)
    (restore : bool) : res Data :=
  variant ← variants_get data unique_id;
  (* the two relation writes reach the store at once *)
  let variant := Variant.set_of combos_included variant in
  let variant := Variant.set_produces (removed_features data variant features) variant in
  (* the field writes below reach the store only through save() *)
  let edited :=
    if restore then
      let combos := combos_in data combos_included in
      let prerequisites := join newline (map Combo.prerequisites combos) in
      let description := join newline (map Combo.description combos) in
      Variant.set_status (if ok then Variant.NEW else Variant.NOT_WORKING)
        (Variant.set_description description
          (Variant.set_prerequisites prerequisites variant))
    else variant in
  let edited :=
    if negb ok then Variant.set_status Variant.NOT_WORKING edited else edited in
  let saved := if negb ok || restore then edited else variant in
  Ok (store_row saved data).

Definition create_variant (data : Data) (unique_id : string) (cards : list Z)
    (combos_included : gset Z) (features : gset Z) (ok : bool) : Data :=
  let combos := combos_in data combos_included in
  let prerequisites := join newline (map Combo.prerequisites combos) in
  let description := join newline (map Combo.description combos) in
  let variant :=
    {| Variant.unique_id := unique_id; Variant.includes := ∅;
       Variant.of_ := ∅; Variant.produces := ∅;
       Variant.status := Variant.default_status;
       Variant.prerequisites := prerequisites;
       Variant.description := description |} in
  let variant :=
    if negb ok then Variant.set_status Variant.NOT_WORKING variant else variant in
  let variant := Variant.set_includes (list_to_set cards) variant in
  let variant := Variant.set_of combos_included variant in
  let variant := Variant.set_produces (removed_features data variant features) variant in
  set_variants (variants data ++ [variant]) data.

(** ** The optimisation model (pyomo's [ConcreteModel]) *)

(** The Boolean decision variables [model.b[i]], [model.f[j]], [model.c[k]]. *)
Inductive var : Type := b_ (i : Z) | f_ (j : Z) | c_ (k : Z).

#[global] Instance var_eq_dec : EqDecision var.
Proof. solve_decision. Defined.

(** A linear expression [sum(terms) + const] and the two relations the
    source writes. *)
Record lexpr : Type := { terms : list var; const : Z }.

Inductive constr : Type :=
  | Le (l r : lexpr)      (* l <= r *)
  | Ge (l r : lexpr).     (* l >= r *)

Definition sum_ (vs : list var) : lexpr := {| terms := vs; const := 0 |}.
Definition var_ (v : var) : lexpr := sum_ [v].
Definition num (k : Z) : lexpr := {| terms := []; const := k |}.
Definition plus (e : lexpr) (k : Z) : lexpr :=
  {| terms := terms e; const := const e + k |}.

Definition eval (a : var -> bool) (e : lexpr) : Z :=
  foldr (fun v acc => (if a v then 1 else 0) + acc) 0 (terms e) + const e.

Definition holds (a : var -> bool) (c : constr) : bool :=
  match c with
  | Le l r => eval a l <=? eval a r
  | Ge l r => eval a r <=? eval a l
  end.

Inductive objective : Type :=
  | MinimizeCards | MaximizeFeatures | MaximizeCombos | obj.

#[global] Instance objective_eq_dec : EqDecision objective.
Proof. solve_decision. Defined.

Record Model : Type := {
  B : list Z;  F : list Z;  C : list Z;         (* index sets *)
  V : constr;
  BC : list constr;  BF : list constr;  BCF : list constr;
  FC : list constr;  FB : list constr;  FCB : list constr;
  XB : list constr;                              (* the seed constraint, if any *)
  Sequential : list constr;
  Variants : list constr;
  active : list objective;                       (* the activated objectives *)
  fixed : var -> option bool;                    (* fixed variables *)
  value : var -> bool                            (* current values *)
}.

Definition set_XB (x : list constr) (m : Model) : Model :=
  {| B := B m; F := F m; C := C m; V := V m; BC := BC m; BF := BF m;
     BCF := BCF m; FC := FC m; FB := FB m; FCB := FCB m; XB := x;
     Sequential := Sequential m; Variants := Variants m; active := active m;
     fixed := fixed m; value := value m |}.
Definition set_Sequential (x : list constr) (m : Model) : Model :=
  {| B := B m; F := F m; C := C m; V := V m; BC := BC m; BF := BF m;
     BCF := BCF m; FC := FC m; FB := FB m; FCB := FCB m; XB := XB m;
     Sequential := x; Variants := Variants m; active := active m;
     fixed := fixed m; value := value m |}.
Definition set_Variants (x : list constr) (m : Model) : Model :=
  {| B := B m; F := F m; C := C m; V := V m; BC := BC m; BF := BF m;
     BCF := BCF m; FC := FC m; FB := FB m; FCB := FCB m; XB := XB m;
     Sequential := Sequential m; Variants := x; active := active m;
     fixed := fixed m; value := value m |}.
Definition set_active (x : list objective) (m : Model) : Model :=
  {| B := B m; F := F m; C := C m; V := V m; BC := BC m; BF := BF m;
     BCF := BCF m; FC := FC m; FB := FB m; FCB := FCB m; XB := XB m;
     Sequential := Sequential m; Variants := Variants m; active := x;
     fixed := fixed m; value := value m |}.
Definition set_fixed (x : var -> option bool) (y : var -> bool) (m : Model) : Model :=
  {| B := B m; F := F m; C := C m; V := V m; BC := BC m; BF := BF m;
     BCF := BCF m; FC := FC m; FB := FB m; FCB := FCB m; XB := XB m;
     Sequential := Sequential m; Variants := Variants m; active := active m;
     fixed := x; value := y |}.
Definition set_value (x : var -> bool) (m : Model) : Model :=
  {| B := B m; F := F m; C := C m; V := V m; BC := BC m; BF := BF m;
     BCF := BCF m; FC := FC m; FB := FB m; FCB := FCB m; XB := XB m;
     Sequential := Sequential m; Variants := Variants m; active := active m;
     fixed := fixed m; value := x |}.

Definition activate (o : objective) (m : Model) : Model :=
  set_active (o :: active m) m.
Definition deactivate (o : objective) (m : Model) : Model :=
  set_active (filter (fun o' => o' <> o) (active m)) m.

(** The expression of each objective; [MinimizeCards] is minimised, the
    others are maximised. *)
Definition objective_expr (m : Model) (o : objective) : lexpr :=
  match o with
  | MinimizeCards => sum_ (map c_ (C m))
  | MaximizeFeatures => sum_ (map f_ (F m))
  | MaximizeCombos => sum_ (map b_ (B m))
  | obj => sum_ (map f_ (F m) ++ map b_ (B m))
  end.

(** [pyo.value(objective)]: the expression under the current values. *)
Definition pyo_value (m : Model) (o : objective) : Z :=
  eval (value m) (objective_expr m o).

(** All the constraints of a model, and what a solution must satisfy. *)
Definition constraints (m : Model) : list constr :=
  V m :: BC m ++ BF m ++ BCF m ++ FC m ++ FB m ++ FCB m ++ XB m
      ++ Sequential m ++ Variants m.

Definition variables (m : Model) : list var :=
  map b_ (B m) ++ map f_ (F m) ++ map c_ (C m).

Definition respects_fixed (m : Model) (a : var -> bool) : bool :=
  forallb (fun v => match fixed m v with
                    | Some x => bool_decide (a v = x)
                    | None => true
                    end) (variables m).

Definition feasible (m : Model) (a : var -> bool) : bool :=
  forallb (holds a) (constraints m) && respects_fixed m a.

(** ** [base_model], [combo_model], [exclude_variants_model] *)

Definition base_model (data : Data) : option Model :=
  let B := map Combo.id (combos data) in
  let F := map Feature.id (features data) in
  let C := map Card.id (cards data) in
  if decide (length C = 0%nat) then None
  else Some
    {| B := B; F := F; C := C;
       V := Le (sum_ (map c_ C)) (num MAX_CARDS_IN_COMBO);
       BC := flat_map (fun combo =>
               map (fun card => Le (var_ (b_ (Combo.id combo))) (var_ (c_ card)))
                   (Combo.includes combo)) (combos data);
       BF := flat_map (fun combo =>
               map (fun feature => Le (var_ (b_ (Combo.id combo))) (var_ (f_ feature)))
                   (Combo.needs combo)) (combos data);
       BCF := map (fun combo =>
               let card_vars := map c_ (Combo.includes combo) in
               let feature_vars := map f_ (Combo.needs combo) in
               Ge (var_ (b_ (Combo.id combo)))
                  (plus (sum_ (card_vars ++ feature_vars))
                        (- Z.of_nat (length card_vars)
                         - Z.of_nat (length feature_vars) + 1)))
               (combos data);
       FC := flat_map (fun feature =>
               map (fun card => Ge (var_ (f_ (Feature.id feature))) (var_ (c_ card)))
                   (Feature.cards feature)) (features data);
       FB := flat_map (fun feature =>
               map (fun combo => Ge (var_ (f_ (Feature.id feature))) (var_ (b_ combo)))
                   (Feature.produced_by_combos feature)) (features data);
       FCB := map (fun feature =>
               let card_vars := map c_ (Feature.cards feature) in
               let combo_vars := map b_ (Feature.produced_by_combos feature) in
               Le (var_ (f_ (Feature.id feature))) (sum_ (card_vars ++ combo_vars)))
               (features data);
       XB := [];
       Sequential := [];
       Variants := [];
       active := [];
       fixed := fun _ => None;
       value := fun _ => false |}.

Definition combo_model (base_model : Model) (combo : Combo.t) : Model :=
  set_XB [Ge (var_ (b_ (Combo.id combo))) (num 1)] base_model.

(** [sum(model.c[i] for i in card_id_list) <= len(card_id_list) - 1].  On an
    empty list both sides are plain numbers, the comparison is the Python
    value [False], and pyomo refuses it as a constraint. *)
Definition exclusion (card_id_list : list Z) : res constr :=
  match card_id_list with
  | [] => Raise ValueError
  | _ :: _ => Ok (Le (sum_ (map c_ card_id_list))
                     (num (Z.of_nat (length card_id_list) - 1)))
  end.

Definition exclude_variants_model (base_model : Model) (data : Data) : res Model :=
  let not_working_variants :=
    filter (fun v => Variant.status v = Variant.NOT_WORKING) (variants data) in
  model ← foldM (fun model variant =>
             let card_id_list := elements (Variant.includes variant) in
             c ← exclusion card_id_list;
             Ok (set_Variants (Variants model ++ [c]) model))
           base_model not_working_variants;
  Ok (activate obj model).

(** [model.c.fix(False)] and [model.c[card_id].fix(True)]: fixing a variable
    also sets its value. *)
Definition fix_all_c (x : bool) (m : Model) : Model :=
  set_fixed
    (fun v => match v with
              | c_ k => if decide (k ∈ C m) then Some x else fixed m v
              | _ => fixed m v
              end)
    (fun v => match v with
              | c_ k => if decide (k ∈ C m) then x else value m v
              | _ => value m v
              end) m.

Definition fix_c (card_id : Z) (x : bool) (m : Model) : Model :=
  set_fixed (fun v => if decide (v = c_ card_id) then Some x else fixed m v)
            (fun v => if decide (v = c_ card_id) then x else value m v) m.

(** ** Insertion-ordered dictionaries keyed by unique id *)

Fixpoint dict_set {A : Type} (k : string) (x : A) (d : list (string * A))
    : list (string * A) :=
  match d with
  | [] => [(k, x)]
  | (k', x') :: d' =>
      if decide (k = k') then (k, x) :: d' else (k', x') :: dict_set k x d'
  end.

(** [d.update(r)] *)
Definition dict_update {A : Type} (d r : list (string * A)) : list (string * A) :=
  foldl (fun d kv => dict_set kv.1 kv.2 d) d r.

Definition dict_keys {A : Type} (d : list (string * A)) : gset string :=
  list_to_set (map fst d).

Record VariantDefinition : Type := {
  card_ids : list Z;
  combo_ids : gset Z;
  feature_ids : gset Z
}.

(** [sorted(l, key=lambda c: priorityc[c])]: the keys are computed first, a
    missing one raises. *)
Definition sorted_by_priority (priorityc : gmap Z Z) (l : list Z) : res (list Z) :=
  keyed ← mapM (fun c => match priorityc !! c with
                         | Some p => Ok (c, p)
                         | None => Raise (KeyError c)
                         end) l;
  Ok (map fst (sorted_by_key snd keyed)).

(** ** Solving, enumeration and reconciliation *)

Section Engine.
(** [hashlib.sha256] (see above). *)
Variable sha256_hexdigest : string -> string.

(** [opt.solve(model, tee=False, timelimit=SOLVE_TIMEOUT)]: [Some a] when
    the termination condition is [optimal], with [a] the solution loaded
    into the model; [None] for every other outcome (infeasible, time
    limit, ...). *)
Variable solve : Model -> option (var -> bool).

Definition opt_solve (model : Model) : bool * Model :=
  match solve model with
  | Some a => (true, set_value a model)
  | None => (false, model)
  end.

Definition is_variant_valid (model : Model) (card_ids : list Z) : bool * Model :=
  let model := fix_all_c false model in
  let model := foldl (fun model card_id => fix_c card_id true model) model card_ids in
  opt_solve model.

Definition solve_combo_model (model : Model) : bool * Model :=
  let failure (model : Model) :=
    (false,
     deactivate MaximizeCombos
       (deactivate MaximizeFeatures
         (deactivate MinimizeCards (set_Sequential [] model)))) in
  let model := activate MinimizeCards model in
  let '(optimal, model) := opt_solve model in
  if optimal then
    let model :=
      set_Sequential
        (Sequential model ++
           [Le (objective_expr model MinimizeCards)
               (num (pyo_value model MinimizeCards))]) model in
    let model := deactivate MinimizeCards model in
    let model := activate MaximizeFeatures model in
    let '(optimal, model) := opt_solve model in
    if optimal then
      let model :=
        set_Sequential
          (Sequential model ++
             [Ge (objective_expr model MaximizeFeatures)
                 (num (pyo_value model MaximizeFeatures))]) model in
      let model := deactivate MaximizeFeatures model in
      let model := activate MaximizeCombos model in
      let '(optimal, model) := opt_solve model in
      if optimal then
        let model := set_Sequential [] model in
        let model := deactivate MaximizeCombos model in
        (true, model)
      else failure model
    else failure model
  else failure model.

(** The [while True] loop of [variants_from_combo]; one unit of fuel per
    round. *)
Fixpoint variants_from_combo_loop (fuel : nat) (model : Model)
    (priorityc : gmap Z Z) (result : list (string * VariantDefinition))
    : res (Model * list (string * VariantDefinition)) :=
  match fuel with
  | O => Diverge
  | S fuel' =>
    let '(solved, model) := solve_combo_model model in
    if solved then
      card_id_list ←
        sorted_by_priority priorityc
          (filter (fun v => value model (c_ v) = true) (C model));
      let feature_id_list : gset Z :=
        list_to_set (filter (fun v => value model (f_ v) = true) (F model)) in
      let combo_id_list : gset Z :=
        list_to_set (filter (fun v => value model (b_ v) = true) (B model)) in
      let unique_id := unique_id_from_cards_ids sha256_hexdigest card_id_list in
      let result :=
        dict_set unique_id
          {| card_ids := card_id_list; combo_ids := combo_id_list;
             feature_ids := feature_id_list |} result in
      c ← exclusion card_id_list;
      let model := set_Variants (Variants model ++ [c]) model in
      variants_from_combo_loop fuel' model priorityc result
    else Ok (model, result)
  end.

Definition variants_from_combo (fuel : nat) (model : Model)
    (priorityc : gmap Z Z) : res (list (string * VariantDefinition)) :=
  r ← variants_from_combo_loop fuel model priorityc []; Ok r.2.

Definition get_variants_from_model (fuel : nat) (base_model : Model)
    (data : Data) : res (list (string * VariantDefinition)) :=
  results ←
    mapM (fun c =>
            let model := combo_model base_model c in
            priorityc ← priority_dict_for_combo data c 0;
            variants_from_combo fuel model priorityc)
         (filter (fun c => Combo.generator c = true) (combos data));
  Ok (foldl dict_update [] results).

(** The body of the [for unique_id, variant_def in variants.items()] loop.
    The state is the validity-check model (mutated by every check) and the
    store. *)
Definition save_variant (old_id_set to_restore : gset string)
    (st : Model * Data) (item : string * VariantDefinition)
    : res (Model * Data) :=
  let '(variant_check_model, data) := st in
  let '(unique_id, variant_def) := item in
  if decide (unique_id ∈ old_id_set) then
    let '(ok, variant_check_model) :=
      is_variant_valid variant_check_model (card_ids variant_def) in
    data ← update_variant data unique_id (combo_ids variant_def)
             (feature_ids variant_def) ok
             (bool_decide (unique_id ∈ to_restore));
    Ok (variant_check_model, data)
  else
    let '(ok, variant_check_model) :=
      is_variant_valid variant_check_model (card_ids variant_def) in
    Ok (variant_check_model,
        create_variant data unique_id (card_ids variant_def)
          (combo_ids variant_def) (feature_ids variant_def) ok).

(** [generate_variants]: the whole pass runs in one transaction, so an
    exception leaves the store as it was; the result carries the new store
    only on success. *)
Definition generate_variants (fuel : nat) (db : Data)
    : res ((nat * nat * nat) * Data) :=
  let to_restore : gset string :=
    list_to_set (map Variant.unique_id
      (filter (fun v => Variant.status v = Variant.RESTORE) (variants db))) in
  let data := db in
  let old_id_set : gset string :=
    list_to_set (map Variant.unique_id (variants data)) in
  '(variants_, data) ←
    match base_model data with
    | Some model =>
        variant_check_model ← exclude_variants_model model data;
        variants_ ← get_variants_from_model fuel model data;
        st ← foldM (save_variant old_id_set to_restore)
                   (variant_check_model, data) variants_;
        Ok (variants_, st.2)
    | None => Ok ([], data)
    end;
  let new_id_set : gset string := dict_keys variants_ in
  let to_delete := old_id_set ∖ new_id_set in
  let added := new_id_set ∖ old_id_set in
  let restored := new_id_set ∩ to_restore in
  let data :=
    set_variants
      (filter (fun v => Variant.unique_id v ∉ to_delete) (variants data)) data in
  Ok ((size added, size restored, size to_delete), data).
End Engine.

(** ** The read endpoints of [views.py] *)

(** [VariantViewSet.queryset = Variant.objects.filter(status=Variant.Status.OK)] *)
Definition VariantViewSet_queryset (data : Data) : list Variant.t :=
  filter (fun v => Variant.status v = Variant.OK) (variants data).

(** [variant_list]: the filter, search and ordering backends select and
    reorder rows of the queryset; [selected] is the selection the request
    asks for and [ordering] its order. *)
Definition variant_list (selected : Variant.t -> bool)
    (ordering : Variant.t -> Z) (data : Data) : list Variant.t :=
  sorted_by_key ordering
    (filter (fun v => selected v = true) (VariantViewSet_queryset data)).

(** [variant_detail]: the row of the queryset the lookup designates, or
    nothing (a 404 response). *)
Definition variant_detail (lookup : Variant.t -> bool) (data : Data)
    : option Variant.t :=
  find lookup (VariantViewSet_queryset data).

(** ** A reference solver by exhaustive search

    Every assignment of the model's variables is tried; among the feasible
    ones, one that is best for the first activated objective is returned.
    It is used to run the engine on concrete catalogs. *)

Fixpoint powerlist {A : Type} (l : list A) : list (list A) :=
  match l with
  | [] => [[]]
  | x :: l' => powerlist l' ++ map (cons x) (powerlist l')
  end.

Definition assignment_of (true_vars : list var) : var -> bool :=
  fun v => bool_decide (v ∈ true_vars).

Definition score (m : Model) (a : var -> bool) : Z :=
  match active m with
  | [] => 0
  | MinimizeCards :: _ => - eval a (objective_expr m MinimizeCards)
  | o :: _ => eval a (objective_expr m o)
  end.

Definition best_of (m : Model) (first : list var) (rest : list (list var)) : list var :=
  foldl (fun best tv =>
           if score m (assignment_of best) <? score m (assignment_of tv)
           then tv else best) first rest.

Definition brute_solve (m : Model) : option (var -> bool) :=
  match filter (fun tv => feasible m (assignment_of tv) = true)
               (powerlist (variables m)) with
  | [] => None
  | tv :: rest => Some (assignment_of (best_of m tv rest))
  end.

(** A digest for running examples: the serialisation itself. *)
Definition plain_digest (s : string) : string := s.

(** ** Example catalogs *)

Module Examples.
(** Combo 100 needs cards 1 and 2 and produces feature 10; combo 101 needs
    card 3 and feature 10. *)
Definition comboX : Combo.t :=
  {| Combo.id := 100; Combo.includes := [1; 2]; Combo.needs := [];
     Combo.removes := []; Combo.prerequisites := "pX";
     Combo.description := "dX"; Combo.generator := true |}.
Definition comboY : Combo.t :=
  {| Combo.id := 101; Combo.includes := [3]; Combo.needs := [10];
     Combo.removes := []; Combo.prerequisites := "pY";
     Combo.description := "dY"; Combo.generator := true |}.
Definition featureF : Feature.t :=
  {| Feature.id := 10; Feature.cards := []; Feature.produced_by_combos := [100] |}.

Definition catalog (vs : list Variant.t) : Data :=
  {| combos := [comboX; comboY];
     cards := [ {| Card.id := 1 |}; {| Card.id := 2 |}; {| Card.id := 3 |} ];
     features := [featureF];
     variants := vs |}.

(** A persisted variant of the card set {1, 2}. *)
Definition variant12 (st : Variant.Status) : Variant.t :=
  {| Variant.unique_id := "[1, 2]"; Variant.includes := {[1; 2]};
     Variant.of_ := {[100]}; Variant.produces := {[10]};
     Variant.status := st; Variant.prerequisites := "old text";
     Variant.description := "old text" |}.

(** A stale variant that no combo yields any more. *)
Definition variant3 : Variant.t :=
  {| Variant.unique_id := "[3]"; Variant.includes := {[3]};
     Variant.of_ := ∅; Variant.produces := ∅;
     Variant.status := Variant.OK; Variant.prerequisites := "";
     Variant.description := "" |}.

(** A cyclic rule graph: combo 1 needs feature 11, produced only by
    combo 2; combo 2 needs feature 12, produced only by combo 1.  Combo 100
    is a sound seed of the same catalog. *)
Definition comboA : Combo.t :=
  {| Combo.id := 1; Combo.includes := [1]; Combo.needs := [11];
     Combo.removes := []; Combo.prerequisites := "pA";
     Combo.description := "dA"; Combo.generator := true |}.
Definition comboB : Combo.t :=
  {| Combo.id := 2; Combo.includes := [2]; Combo.needs := [12];
     Combo.removes := []; Combo.prerequisites := "pB";
     Combo.description := "dB"; Combo.generator := true |}.
Definition featureG : Feature.t :=
  {| Feature.id := 11; Feature.cards := []; Feature.produced_by_combos := [2] |}.
Definition featureH : Feature.t :=
  {| Feature.id := 12; Feature.cards := []; Feature.produced_by_combos := [1] |}.

Definition cyclic : Data :=
  {| combos := [comboX; comboA; comboB];
     cards := [ {| Card.id := 1 |}; {| Card.id := 2 |} ];
     features := [featureG; featureH];
     variants := [] |}.

(** Combo 200 requires card 1 directly and needs feature 20, which card 1
    grants. *)
Definition comboO : Combo.t :=
  {| Combo.id := 200; Combo.includes := [1]; Combo.needs := [20];
     Combo.removes := []; Combo.prerequisites := "pO";
     Combo.description := "dO"; Combo.generator := true |}.
Definition featureO : Feature.t :=
  {| Feature.id := 20; Feature.cards := [1]; Feature.produced_by_combos := [] |}.

Definition overlap : Data :=
  {| combos := [comboO];
     cards := [ {| Card.id := 1 |} ];
     features := [featureO];
     variants := [] |}.

Definition empty_model : Model :=
  {| B := []; F := []; C := []; V := Le (sum_ []) (num MAX_CARDS_IN_COMBO);
     BC := []; BF := []; BCF := []; FC := []; FB := []; FCB := [];
     XB := []; Sequential := []; Variants := []; active := [];
     fixed := fun _ => None; value := fun _ => false |}.

(** The base model of the example catalog, seeded with combo 101. *)
Definition seeded : Model :=
  combo_model (default empty_model (base_model (catalog []))) comboY.

(** A run of the pass with the reference solver and the plain digest. *)
Definition run (data : Data) : res ((nat * nat * nat) * Data) :=
  generate_variants plain_digest brute_solve 9 data.
End Examples.

(** ** Vocabulary of the statements *)

(** What [update_variant] writes, given the row that [get] returns. *)
Definition updated_row (data : Data) (v0 : Variant.t) (combos_included : gset Z)
    (features : gset Z) (ok restore : bool) : Variant.t :=
  {| Variant.unique_id := Variant.unique_id v0;
     Variant.includes := Variant.includes v0;
     Variant.of_ := combos_included;
     Variant.produces :=
       features ∖ removes_of data (Variant.set_of combos_included v0);
     Variant.status :=
       if restore then (if ok then Variant.NEW else Variant.NOT_WORKING)
       else if ok then Variant.status v0 else Variant.NOT_WORKING;
     Variant.prerequisites :=
       if restore
       then join newline (map Combo.prerequisites (combos_in data combos_included))
       else Variant.prerequisites v0;
     Variant.description :=
       if restore
       then join newline (map Combo.description (combos_in data combos_included))
       else Variant.description v0 |}.

(** The row that [create_variant] appends. *)
Definition created_row (data : Data) (uid : string) (cards : list Z)
    (combos_included features : gset Z) (ok : bool) : Variant.t :=
  {| Variant.unique_id := uid;
     Variant.includes := list_to_set cards;
     Variant.of_ := combos_included;
     Variant.produces :=
       features ∖ removes_of data
         {| Variant.unique_id := uid; Variant.includes := list_to_set cards;
            Variant.of_ := combos_included; Variant.produces := ∅;
            Variant.status :=
              if ok then Variant.default_status else Variant.NOT_WORKING;
            Variant.prerequisites :=
              join newline (map Combo.prerequisites (combos_in data combos_included));
            Variant.description :=
              join newline (map Combo.description (combos_in data combos_included)) |};
     Variant.status := if ok then Variant.default_status else Variant.NOT_WORKING;
     Variant.prerequisites :=
       join newline (map Combo.prerequisites (combos_in data combos_included));
     Variant.description :=
       join newline (map Combo.description (combos_in data combos_included)) |}.

(** The fuel suffices when the counter is already above the limit or when
    every level down to the limit still has a unit left. *)
Definition enough_fuel (fuel : nat) (counter : Z) : Prop :=
  RECURSION_LIMIT < counter \/ RECURSION_LIMIT + 2 <= 2 * Z.of_nat fuel + counter.

(** [feature.produced_by_combos.all()] over [combo.needs.all()], in the order
    the analyzer visits them, and the cards that grant a needed feature. *)
Definition producers (data : Data) (combo : Combo.t) : list Combo.t :=
  flat_map (produced_by_combos_all data) (needs_all data combo).
Definition needed_cards (data : Data) (combo : Combo.t) : list Z :=
  flat_map Feature.cards (needs_all data combo).

(** Ghost state of the loop: the card sets found so far, as sublists of
    the card universe; each is forbidden by a constraint of the model. *)
Definition excluded (found : list (list Z)) (m : Model) : Prop :=
  forall s, s ∈ found ->
    exists l c, exclusion l = Ok c /\ c ∈ Variants m /\ forall k, k ∈ l -> k ∈ s.

(** The snapshots taken at the start of the pass and the discovered set. *)
Definition persisted_ids (data : Data) : gset string :=
  list_to_set (map Variant.unique_id (variants data)).
Definition restore_snapshot (data : Data) : gset string :=
  list_to_set (map Variant.unique_id
    (filter (fun v => Variant.status v = Variant.RESTORE) (variants data))).
Definition discovered (sha256_hexdigest : string -> string)
    (solve : Model -> option (var -> bool)) (fuel : nat) (data : Data)
    : res (list (string * VariantDefinition)) :=
  match base_model data with
  | Some model => get_variants_from_model sha256_hexdigest solve fuel model data
  | None => Ok []
  end.

(** ** [check_combo_sanity] *)

Fixpoint check_combo_sanity_fuel (fuel : nat) (data : Data) (combo : Combo.t)
    (recursion_counter : Z) : bool :=
  if RECURSION_LIMIT <? recursion_counter then false
  else
    match fuel with
    | O => false
    | S fuel' =>
      forallb (fun feature =>
          forallb (fun combo' =>
              check_combo_sanity_fuel fuel' data combo' (recursion_counter + 1))
            (produced_by_combos_all data feature))
        (needs_all data combo)
    end.

(** The counter grows by 1 per level and stops above [RECURSION_LIMIT], so
    the branch without fuel is never reached. *)
Definition check_combo_sanity (data : Data) (combo : Combo.t)
    (recursion_counter : Z) : bool :=
  check_combo_sanity_fuel (Z.to_nat (RECURSION_LIMIT + 1 - recursion_counter))
                          data combo recursion_counter.

(** A chain of [n] production steps in the rule graph: each combo produces
    a feature that its predecessor needs. *)
Inductive chain (data : Data) : nat -> Combo.t -> Combo.t -> Prop :=
  | chain_O (c : Combo.t) : chain data 0 c c
  | chain_S (n : nat) (c c' c'' : Combo.t) :
      c' ∈ producers data c -> chain data n c' c'' -> chain data (S n) c c''.

(** ** The migration [0006_combo_generator] *)

Definition set_generator (x : bool) (c : Combo.t) : Combo.t :=
  {| Combo.id := Combo.id c; Combo.includes := Combo.includes c;
     Combo.needs := Combo.needs c; Combo.removes := Combo.removes c;
     Combo.prerequisites := Combo.prerequisites c;
     Combo.description := Combo.description c; Combo.generator := x |}.

(** The body of the loop of [forward_func]:
    [combo.generator = len(combo.includes.all()) + len(combo.needs.all()) > 1]. *)
Definition forward_combo (combo : Combo.t) : Combo.t :=
  set_generator
    (1 <? Z.of_nat (length (Combo.includes combo))
          + Z.of_nat (length (Combo.needs combo))) combo.

(** [forward_func]: the loop over [Combo.objects.all()]. *)
Definition forward_func (data : Data) : Data :=
  {| combos := map forward_combo (combos data);
     cards := cards data; features := features data; variants := variants data |}.

(** ** What the constraints of the model mean *)

(** A combo is realized when all its cards and needed features are active;
    a feature is yielded when a granting card or a producing combo is. *)
Definition combo_realized (a : var -> bool) (combo : Combo.t) : bool :=
  forallb (fun k => a (c_ k)) (Combo.includes combo)
  && forallb (fun j => a (f_ j)) (Combo.needs combo).
Definition feature_yielded (a : var -> bool) (feature : Feature.t) : bool :=
  existsb (fun k => a (c_ k)) (Feature.cards feature)
  || existsb (fun i => a (b_ i)) (Feature.produced_by_combos feature).

Definition consistent (data : Data) (a : var -> bool) : Prop :=
  Z.of_nat (length (filter (fun k => a (c_ k) = true) (map Card.id (cards data))))
    <= MAX_CARDS_IN_COMBO
  /\ (forall combo, combo ∈ combos data ->
        a (b_ (Combo.id combo)) = combo_realized a combo)
  /\ (forall feature, feature ∈ features data ->
        a (f_ (Feature.id feature)) = feature_yielded a feature).

(** The constraints that [base_model] builds. *)
Definition base_constraints (m : Model) : list constr :=
  V m :: BC m ++ BF m ++ BCF m ++ FC m ++ FB m ++ FCB m.

(** The staged objectives of the sequential solver. *)
Definition staged (o : objective) : Prop :=
  o = MinimizeCards \/ o = MaximizeFeatures \/ o = MaximizeCombos.

#[global] Instance staged_dec (o : objective) : Decision (staged o).
Proof. unfold staged. apply _. Defined.

(** A variant definition as read off an assignment of the model. *)
Definition reads (m : Model) (a : var -> bool) (def : VariantDefinition) : Prop :=
  card_ids def ≡ₚ filter (fun k => a (c_ k) = true) (C m)
  /\ feature_ids def = list_to_set (filter (fun j => a (f_ j) = true) (F m))
  /\ combo_ids def = list_to_set (filter (fun i => a (b_ i) = true) (B m)).

(** The relations of the catalog only name rows that exist (the foreign
    keys of the store). *)
Definition referential_integrity (data : Data) : bool :=
  forallb (fun combo =>
      forallb (fun k => bool_decide (k ∈ map Card.id (cards data)))
              (Combo.includes combo)
      && forallb (fun j => bool_decide (j ∈ map Feature.id (features data)))
                 (Combo.needs combo)) (combos data)
  && forallb (fun feature =>
      forallb (fun k => bool_decide (k ∈ map Card.id (cards data)))
              (Feature.cards feature)
      && forallb (fun i => bool_decide (i ∈ map Combo.id (combos data)))
                 (Feature.produced_by_combos feature)) (features data).

(** An entry of the enumeration's result: its key is the unique id of its
    card list, and it is read off an assignment that satisfies the base
    constraints and the seed constraint of the model [m0]. *)
Definition recorded (sha256_hexdigest : string -> string) (m0 : Model)
    (kv : string * VariantDefinition) : Prop :=
  kv.1 = unique_id_from_cards_ids sha256_hexdigest (card_ids kv.2)
  /\ exists a, forallb (holds a) (base_constraints m0) = true
               /\ forallb (holds a) (XB m0) = true
               /\ reads m0 a kv.2.

(** No card list of the sequence contains all the cards of an earlier one. *)
Fixpoint never_again (founds : list (list Z)) : Prop :=
  match founds with
  | [] => True
  | l :: rest =>
      (forall l', l' ∈ rest -> ~ (forall k, k ∈ l -> k ∈ l')) /\ never_again rest
  end.

(** ** The characters of a serialized list *)

(** The two characters that end an item of [json_dumps], and the strings
    free of them. *)
Definition delimiter (c : Ascii.ascii) : Prop :=
  c = Ascii.ascii_of_nat 44 \/ c = Ascii.ascii_of_nat 93.

Fixpoint undelimited (s : string) : Prop :=
  match s with
  | EmptyString => True
  | String c s' => ~ delimiter c /\ undelimited s'
  end.

(** ** The rounds of the enumeration loop *)

(** A successful round of the loop of [variants_from_combo] on the seeded
    model [m], after the exclusions [earlier] were appended: the model
    solved in the round differs from [m] only by these exclusions and by
    the values of the variables, and [def] is what the loop reads off the
    values that the round leaves. *)
Definition successful_round (solve : Model -> option (var -> bool))
    (m : Model) (priorityc : gmap Z Z) (earlier : list constr)
    (def : VariantDefinition) : Prop :=
  exists m_i m_i',
    base_constraints m_i = base_constraints m /\ XB m_i = XB m
    /\ B m_i = B m /\ F m_i = F m /\ C m_i = C m
    /\ Variants m_i = Variants m ++ earlier
    /\ solve_combo_model solve m_i = (true, m_i')
    /\ sorted_by_priority priorityc
         (filter (fun v => value m_i' (c_ v) = true) (C m_i')) = Ok (card_ids def)
    /\ feature_ids def
       = list_to_set (filter (fun v => value m_i' (f_ v) = true) (F m_i'))
    /\ combo_ids def
       = list_to_set (filter (fun v => value m_i' (b_ v) = true) (B m_i')).

(** The dictionary after the definitions [defs] were written in this order,
    each under the unique id of its card list. *)
Definition record_all (sha256_hexdigest : string -> string)
    (result : list (string * VariantDefinition)) (defs : list VariantDefinition)
    : list (string * VariantDefinition) :=
  foldl (fun d def =>
           dict_set (unique_id_from_cards_ids sha256_hexdigest (card_ids def)) def d)
        result defs.

(** ** The models of the later stages of a round *)

(** The model that [solve_combo_model] hands to the solver the second time,
    when its first solve left the values [a1]: the card count is bounded by
    the count under [a1] and the feature objective is the active one. *)
Definition second_stage (m : Model) (a1 : var -> bool) : Model :=
  let model := set_value a1 (activate MinimizeCards m) in
  let model :=
    set_Sequential
      (Sequential model ++
         [Le (objective_expr model MinimizeCards)
             (num (pyo_value model MinimizeCards))]) model in
  let model := deactivate MinimizeCards model in
  activate MaximizeFeatures model.

(** The model of the third solve, when the second left the values [a2]. *)
Definition third_stage (m : Model) (a1 a2 : var -> bool) : Model :=
  let model := set_value a2 (second_stage m a1) in
  let model :=
    set_Sequential
      (Sequential model ++
         [Ge (objective_expr model MaximizeFeatures)
             (num (pyo_value model MaximizeFeatures))]) model in
  let model := deactivate MaximizeFeatures model in
  activate MaximizeCombos model.

(** ** Further example data *)

Module Scenarios.
Import Examples.

(** The base model of the example catalog, and the assignment that selects
    the cards 1, 2 and 3 with both combos and the feature. *)
Definition base : Model := default empty_model (base_model (catalog [])).
Definition pick_all : var -> bool :=
  assignment_of [c_ 1; c_ 2; c_ 3; b_ 100; b_ 101; f_ 10].

(** The depth map of combo 101 in the example catalog. *)
Definition depths : gmap Z Z := <[3 := 0]> (<[1 := 2]> (<[2 := 2]> ∅)).

(** A combo with a single requirement, flagged as generator by the default
    of the new column, in a catalog as it is before the migration. *)
Definition single : Combo.t :=
  {| Combo.id := 102; Combo.includes := [3]; Combo.needs := [];
     Combo.removes := []; Combo.prerequisites := "pS";
     Combo.description := "dS"; Combo.generator := true |}.
Definition legacy : Data :=
  {| combos := [comboX; single];
     cards := [ {| Card.id := 1 |}; {| Card.id := 2 |}; {| Card.id := 3 |} ];
     features := [featureF];
     variants := [] |}.


(** A store with two rows under one unique id. *)
Definition doubled : Data := catalog [variant12 Variant.OK; variant12 Variant.NEW].

(** Combo 300 needs cards 1 and 2 and removes feature 10, which card 1
    grants; it produces feature 11. *)
Definition comboR : Combo.t :=
  {| Combo.id := 300; Combo.includes := [1; 2]; Combo.needs := [];
     Combo.removes := [10]; Combo.prerequisites := "pR";
     Combo.description := "dR"; Combo.generator := true |}.
Definition featureR : Feature.t :=
  {| Feature.id := 10; Feature.cards := [1]; Feature.produced_by_combos := [] |}.
Definition featureK : Feature.t :=
  {| Feature.id := 11; Feature.cards := []; Feature.produced_by_combos := [300] |}.
Definition removing (vs : list Variant.t) : Data :=
  {| combos := [comboR];
     cards := [ {| Card.id := 1 |}; {| Card.id := 2 |} ];
     features := [featureR; featureK];
     variants := vs |}.

(** Combo 400 needs card 1 and feature 30, which card 2 and card 3 both
    grant: two ways to realize it.  The model seeded with it, and its depth
    map. *)
Definition comboZ : Combo.t :=
  {| Combo.id := 400; Combo.includes := [1]; Combo.needs := [30];
     Combo.removes := []; Combo.prerequisites := "pZ";
     Combo.description := "dZ"; Combo.generator := true |}.
Definition featureZ : Feature.t :=
  {| Feature.id := 30; Feature.cards := [2; 3]; Feature.produced_by_combos := [] |}.
Definition alternatives : Data :=
  {| combos := [comboZ];
     cards := [ {| Card.id := 1 |}; {| Card.id := 2 |}; {| Card.id := 3 |} ];
     features := [featureZ];
     variants := [] |}.
Definition alt_seeded : Model :=
  combo_model (default empty_model (base_model alternatives)) comboZ.
Definition alt_depths : gmap Z Z := <[1 := 0]> (<[2 := 1]> (<[3 := 1]> ∅)).
End Scenarios.

(** * Properties *)

(** ** Properties of sorting *)

Lemma insert_by_key_comm (x y : Z) (l : list Z) :
  insert_by_key (fun z => z) x (insert_by_key (fun z => z) y l) =
  insert_by_key (fun z => z) y (insert_by_key (fun z => z) x l).
Proof.
  induction l as [|z l IH]; simpl.
  - destruct (Z.leb_spec x y), (Z.leb_spec y x); try lia; try reflexivity.
    by replace y with x by lia.
  - destruct (Z.leb_spec y z), (Z.leb_spec x z); simpl;
      repeat match goal with
             | |- context [?a <=? ?b] => destruct (Z.leb_spec a b); try lia
             end; try reflexivity.
    + by replace y with x by lia.
    + by rewrite IH.
Qed.

Lemma sorted_Permutation (l1 l2 : list Z) :
  l1 ≡ₚ l2 -> sorted l1 = sorted l2.
Proof.
  unfold sorted, sorted_by_key.
  induction 1 as [|x l1 l2 _ IH|x y l|l1 l2 l3 _ IH1 _ IH2]; simpl.
  - reflexivity.
  - by rewrite IH.
  - apply insert_by_key_comm.
  - congruence.
Qed.

Lemma insert_by_key_Permutation {A} (key : A -> Z) x (l : list A) :
  insert_by_key key x l ≡ₚ x :: l.
Proof.
  induction l as [|y l IH]; simpl; [done|].
  destruct (key x <=? key y); [done|].
  rewrite IH. apply Permutation_swap.
Qed.

Lemma sorted_by_key_Permutation {A} (key : A -> Z) (l : list A) :
  sorted_by_key key l ≡ₚ l.
Proof.
  induction l as [|x l IH]; simpl; [done|].
  by rewrite insert_by_key_Permutation, IH.
Qed.

Lemma dict_set_same_key {A} (k : string) (x y : A) (d : list (string * A)) :
  map fst (dict_set k x (dict_set k y d)) = map fst (dict_set k y d).
Proof.
  induction d as [|[k' z] d IH]; simpl.
  - by rewrite decide_True.
  - case_decide as Hk; simpl.
    + by rewrite decide_True.
    + rewrite decide_False by done. simpl. by rewrite IH.
Qed.

(** C8. The unique id does not depend on the order of the card ids: for
    every list of card ids [S] and every permutation [P] of it,
    [unique_id_from_cards_ids S = unique_id_from_cards_ids P]; the id is the
    digest of the serialisation of the sorted list.  Two definitions with
    the same card set therefore share one entry of the dictionary of
    discovered variants. *)
Theorem unique_id_order_independent
    (sha256_hexdigest : string -> string) (S P : list Z) :
  S ≡ₚ P ->
  unique_id_from_cards_ids sha256_hexdigest S =
    unique_id_from_cards_ids sha256_hexdigest P
  /\ unique_id_from_cards_ids sha256_hexdigest S =
       sha256_hexdigest (json_dumps (sorted S))
  /\ forall (x y : VariantDefinition) (d : list (string * VariantDefinition)),
       map fst (dict_set (unique_id_from_cards_ids sha256_hexdigest S) x
                  (dict_set (unique_id_from_cards_ids sha256_hexdigest P) y d))
       = map fst (dict_set (unique_id_from_cards_ids sha256_hexdigest P) y d).
Proof.
  intros HP.
  assert (Heq : unique_id_from_cards_ids sha256_hexdigest S =
                unique_id_from_cards_ids sha256_hexdigest P).
  { unfold unique_id_from_cards_ids. by rewrite (sorted_Permutation S P HP). }
  split; [done|]. split; [done|].
  intros x y d. rewrite Heq. apply dict_set_same_key.
Qed.

(** ** Reading and writing variants *)

Lemma map_is_fmap {A B} (f : A -> B) (l : list A) : map f l = f <$> l.
Proof. reflexivity. Qed.

Lemma elem_of_sorted_by_key {A} (key : A -> Z) (l : list A) (x : A) :
  x ∈ sorted_by_key key l <-> x ∈ l.
Proof. by rewrite sorted_by_key_Permutation. Qed.

Lemma elem_of_queryset (data : Data) (v : Variant.t) :
  v ∈ VariantViewSet_queryset data <->
  v ∈ variants data /\ Variant.status v = Variant.OK.
Proof. unfold VariantViewSet_queryset. by rewrite list_elem_of_filter, (comm and). Qed.

Lemma variants_get_Ok (data : Data) (uid : string) (v : Variant.t) :
  variants_get data uid = Ok v ->
  filter (fun v => Variant.unique_id v = uid) (variants data) = [v].
Proof.
  unfold variants_get.
  destruct (filter _ _) as [|v1 [|v2 l]]; intros H; by inversion H.
Qed.

Lemma variants_get_elem (data : Data) (uid : string) (v : Variant.t) :
  variants_get data uid = Ok v -> v ∈ variants data /\ Variant.unique_id v = uid.
Proof.
  intros H%variants_get_Ok.
  assert (Hv : v ∈ filter (fun v => Variant.unique_id v = uid) (variants data))
    by (rewrite H; apply list_elem_of_here).
  apply list_elem_of_filter in Hv. tauto.
Qed.

Lemma update_variant_row (data : Data) (uid : string) (v0 : Variant.t)
    (combos_included features : gset Z) (ok restore : bool) :
  variants_get data uid = Ok v0 ->
  update_variant data uid combos_included features ok restore =
    Ok (store_row (updated_row data v0 combos_included features ok restore) data).
Proof.
  intros Hget. unfold update_variant. rewrite Hget. simpl.
  destruct v0, ok, restore; reflexivity.
Qed.

Lemma update_variant_inv (data data' : Data) (uid : string)
    (combos_included features : gset Z) (ok restore : bool) :
  update_variant data uid combos_included features ok restore = Ok data' ->
  exists v0, variants_get data uid = Ok v0 /\
    data' = store_row (updated_row data v0 combos_included features ok restore) data.
Proof.
  intros H. destruct (variants_get data uid) as [v0| |] eqn:Hget.
  - exists v0. split; [done|].
    rewrite (update_variant_row _ _ _ _ _ _ _ Hget) in H. by inversion H.
  - unfold update_variant in H. by rewrite Hget in H.
  - unfold update_variant in H. by rewrite Hget in H.
Qed.

Lemma elem_of_store_row (row : Variant.t) (data : Data) (v : Variant.t) :
  v ∈ variants (store_row row data) ->
  (v = row /\ exists v0, v0 ∈ variants data /\
                         Variant.unique_id v0 = Variant.unique_id row)
  \/ (v ∈ variants data /\ Variant.unique_id v <> Variant.unique_id row).
Proof.
  unfold store_row. simpl. rewrite map_is_fmap, list_elem_of_fmap.
  intros (v0 & -> & Hin). case_decide; eauto.
Qed.

Lemma removes_of_spec (data : Data) (v : Variant.t) (f : Z) :
  f ∈ removes_of data v <->
  exists c, c ∈ combos data /\ Combo.id c ∈ Variant.of_ v /\ f ∈ Combo.removes c.
Proof.
  unfold removes_of. rewrite elem_of_union_list. split.
  - intros (X & HX & Hf). rewrite map_is_fmap, list_elem_of_fmap in HX.
    destruct HX as (c & -> & Hc). apply list_elem_of_filter in Hc as [? ?].
    exists c. by rewrite elem_of_list_to_set in Hf.
  - intros (c & Hc & Hof & Hf). exists (list_to_set (Combo.removes c)). split.
    + rewrite map_is_fmap.
      apply (list_elem_of_fmap_2 (fun c => list_to_set (Combo.removes c))).
      by apply list_elem_of_filter.
    + by apply elem_of_list_to_set.
Qed.

Lemma create_variant_row (data : Data) (uid : string) (cards : list Z)
    (combos_included features : gset Z) (ok : bool) :
  create_variant data uid cards combos_included features ok =
    set_variants
      (variants data ++ [created_row data uid cards combos_included features ok])
      data.
Proof. unfold create_variant, created_row. by destruct ok. Qed.

(** C9. The list and detail endpoints serve only variants whose status is
    OK: a variant whose status is NEW, NOT_WORKING or RESTORE is never
    returned.  In particular a variant just written by [create_variant], or
    refreshed by [update_variant] from the RESTORE snapshot, is not served:
    its status is NEW or NOT_WORKING. *)
Theorem variant_endpoints_serve_only_OK
    (data : Data) (selected lookup : Variant.t -> bool) (ordering : Variant.t -> Z) :
  (forall v, v ∈ variant_list selected ordering data ->
             v ∈ variants data /\ Variant.status v = Variant.OK)
  /\ (forall v, variant_detail lookup data = Some v ->
                v ∈ variants data /\ Variant.status v = Variant.OK)
  /\ (forall uid cards combos_included features ok,
        VariantViewSet_queryset
          (create_variant data uid cards combos_included features ok)
        = VariantViewSet_queryset data)
  /\ (forall uid combos_included features ok data',
        update_variant data uid combos_included features ok true = Ok data' ->
        forall v, v ∈ VariantViewSet_queryset data' ->
                  Variant.unique_id v <> uid).
Proof.
  repeat split.
  - apply elem_of_sorted_by_key, list_elem_of_filter in H as [_ H].
    by apply elem_of_queryset in H as [? ?].
  - apply elem_of_sorted_by_key, list_elem_of_filter in H as [_ H].
    by apply elem_of_queryset in H as [? ?].
  - apply find_some in H as [H _]. apply list_elem_of_In, elem_of_queryset in H. tauto.
  - apply find_some in H as [H _]. apply list_elem_of_In, elem_of_queryset in H. tauto.
  - intros. rewrite create_variant_row. unfold VariantViewSet_queryset. simpl.
    rewrite filter_app. rewrite (filter_cons _ (created_row _ _ _ _ _ _)).
    rewrite decide_False; [by rewrite filter_nil, app_nil_r|].
    simpl. by destruct ok.
  - intros uid combos_included features ok data' Hup v Hv Huid.
    apply update_variant_inv in Hup as (v0 & Hget & ->).
    apply variants_get_elem in Hget as [Hin0 Huid0].
    apply elem_of_queryset in Hv as [Hv Hst].
    apply elem_of_store_row in Hv as [[-> _]|[_ Hne]].
    + simpl in Hst. by destruct ok.
    + simpl in Hne. congruence.
Qed.

(** C7. The [produces] set written by [create_variant] and by
    [update_variant] is the discovered feature set minus the union of the
    [removes] sets of the realized combos ([of]); it never contains a
    feature that a realized combo removes. *)
Theorem produces_excludes_removed_features
    (data : Data) (uid : string) (cards : list Z)
    (combos_included features : gset Z) (ok restore : bool) :
  let realized_removes : gset Z :=
    ⋃ (map (fun c => list_to_set (Combo.removes c))
           (filter (fun c => Combo.id c ∈ combos_included) (combos data))) in
  (* update_variant *)
  (forall v0, variants_get data uid = Ok v0 ->
     exists data', update_variant data uid combos_included features ok restore = Ok data')
  /\ (forall data' v,
        update_variant data uid combos_included features ok restore = Ok data' ->
        v ∈ variants data' -> Variant.unique_id v = uid ->
        Variant.of_ v = combos_included
        /\ Variant.produces v = features ∖ realized_removes
        /\ forall c f, c ∈ combos data -> Combo.id c ∈ Variant.of_ v ->
                       f ∈ Combo.removes c -> f ∉ Variant.produces v)
  (* create_variant *)
  /\ (exists v,
        variants (create_variant data uid cards combos_included features ok)
          = variants data ++ [v]
        /\ Variant.unique_id v = uid
        /\ Variant.of_ v = combos_included
        /\ Variant.produces v = features ∖ realized_removes
        /\ forall c f, c ∈ combos data -> Combo.id c ∈ Variant.of_ v ->
                       f ∈ Combo.removes c -> f ∉ Variant.produces v).
Proof.
  intros realized_removes. split; [|split].
  - intros v0 Hget. eexists. by apply update_variant_row.
  - intros data' v Hup Hv Huid.
    apply update_variant_inv in Hup as (v0 & Hget & ->).
    apply variants_get_elem in Hget as [Hin0 Huid0].
    apply elem_of_store_row in Hv as [[-> _]|[_ Hne]]; [|simpl in Hne; congruence].
    simpl. split; [done|]. split; [done|].
    intros c f Hc Hof Hf Hp. apply elem_of_difference in Hp as [_ Hp].
    apply Hp, removes_of_spec. exists c. simpl. done.
  - exists (created_row data uid cards combos_included features ok).
    rewrite create_variant_row. simpl. repeat split.
    intros c f Hc Hof Hf Hp. apply elem_of_difference in Hp as [_ Hp].
    apply Hp, removes_of_spec. exists c. simpl. done.
Qed.


(** ** The empty card universe *)

Lemma filter_none {A} (P : A -> Prop) `{forall x, Decision (P x)} (l : list A) :
  (forall x, x ∈ l -> ~ P x) -> filter P l = [].
Proof.
  induction l as [|x l IH]; intros Hl; [done|].
  rewrite filter_cons, decide_False.
  - apply IH. intros y Hy. apply Hl. by right.
  - apply Hl. by left.
Qed.


(** ** The result monad and its folds *)

Lemma bind_Ok {A B} (f : A -> res B) (a : A) : (Ok a ≫= f) = f a.
Proof. reflexivity. Qed.

Lemma bind_Ok_inv {A B} (f : A -> res B) (m : res A) (b : B) :
  (m ≫= f) = Ok b -> exists a, m = Ok a /\ f a = Ok b.
Proof. destruct m; simpl; intros H; try discriminate. eauto. Qed.

Lemma foldM_ext {A S} (f g : S -> A -> res S) (s : S) (l : list A) :
  (forall s x, x ∈ l -> f s x = g s x) -> foldM f s l = foldM g s l.
Proof.
  revert s. induction l as [|x l IH]; intros s Hfg; simpl; [done|].
  rewrite Hfg by left. destruct (g s x); simpl; try done.
  apply IH. intros. apply Hfg. by right.
Qed.

Lemma mapM_res_cons {A B} (f : A -> res B) (x : A) (l : list A) :
  mapM f (x :: l) = y ← f x; ys ← mapM f l; Ok (y :: ys).
Proof. reflexivity. Qed.

Lemma mapM_res_app {A B} (f : A -> res B) (l1 l2 : list A) :
  mapM f (l1 ++ l2) = ys1 ← mapM f l1; ys2 ← mapM f l2; Ok (ys1 ++ ys2).
Proof.
  induction l1 as [|x l1 IH].
  - change (mapM f ([] ++ l2)) with (mapM f l2).
    change (mapM f []) with (Ok (@nil B)). rewrite bind_Ok.
    destruct (mapM f l2); reflexivity.
  - rewrite <- app_comm_cons, !mapM_res_cons. destruct (f x); try done.
    rewrite !bind_Ok, IH. destruct (mapM f l1); try done.
    rewrite !bind_Ok. destruct (mapM f l2); reflexivity.
Qed.

Lemma mapM_res_Ok_Forall2 {A B} (f : A -> res B) (l : list A) (ys : list B) :
  mapM f l = Ok ys <-> Forall2 (fun x y => f x = Ok y) l ys.
Proof.
  revert ys. induction l as [|x l IH]; intros ys.
  - split.
    + intros H. inversion H. constructor.
    + intros H. by inversion H.
  - rewrite mapM_res_cons. split.
    + intros H. apply bind_Ok_inv in H as (y & Hy & H).
      apply bind_Ok_inv in H as (ys' & Hys & H). inversion H; subst.
      constructor; [done|]. by apply IH.
    + intros H. inversion H as [|? y ? ys' Hy Hys]; subst.
      rewrite Hy. simpl. apply IH in Hys. by rewrite Hys.
Qed.

(** ** The priority analyzer *)

Lemma priority_dict_fuel_irrelevant (data : Data) (f1 f2 : nat)
    (combo : Combo.t) (k : Z) :
  enough_fuel f1 k -> enough_fuel f2 k ->
  priority_dict_fuel f1 data combo k = priority_dict_fuel f2 data combo k.
Proof.
  revert f2 combo k.
  induction f1 as [|f1 IH]; intros f2 combo k H1 H2;
    unfold enough_fuel, RECURSION_LIMIT in *.
  - destruct f2; simpl; unfold RECURSION_LIMIT;
      destruct (Z.ltb_spec 20 k); try done; lia.
  - destruct f2 as [|f2]; simpl; unfold RECURSION_LIMIT;
      destruct (Z.ltb_spec 20 k); try done; try lia.
    apply foldM_ext. intros r feature _.
    apply foldM_ext. intros r' combo' _.
    rewrite (IH f2); [done| |]; unfold enough_fuel, RECURSION_LIMIT; lia.
Qed.

Lemma priority_dict_rec_call (data : Data) (combo : Combo.t) (k : Z) :
  k <= RECURSION_LIMIT ->
  priority_dict_fuel (Nat.pred (Z.to_nat (RECURSION_LIMIT + 2 - k))) data combo (k + 2)
  = priority_dict_for_combo data combo (k + 2).
Proof.
  intros Hk. unfold priority_dict_for_combo.
  apply priority_dict_fuel_irrelevant; unfold enough_fuel, RECURSION_LIMIT in *; lia.
Qed.

Ltac map_lookup :=
  apply map_eq; intros ?i; apply option_eq; intros ?y;
  repeat (rewrite ?lookup_union_Some_raw, ?lookup_union_None,
            ?lookup_insert_Some, ?lookup_insert_None,
            ?lookup_gset_to_gmap_Some, ?lookup_gset_to_gmap_None,
            ?lookup_empty,
            ?elem_of_list_to_set, ?not_elem_of_list_to_set,
            ?elem_of_app, ?not_elem_of_app, ?elem_of_cons, ?not_elem_of_cons).

Lemma foldl_insert_const (v : Z) (l : list Z) (r : gmap Z Z) :
  foldl (fun result card => <[card := v]> result) r l
  = gset_to_gmap v (list_to_set l) ∪ r.
Proof.
  revert r. induction l as [|x l IH]; intros r; simpl.
  - by rewrite gset_to_gmap_empty, (left_id_L ∅ (∪)).
  - rewrite IH. map_lookup.
    rewrite elem_of_union, elem_of_singleton, elem_of_list_to_set.
    destruct (decide (x = i)), (decide (i ∈ l)); intuition congruence.
Qed.

Lemma union_list_map_app (ps1 ps2 : list (gmap Z Z)) :
  ⋃ (ps1 ++ ps2) = ⋃ ps1 ∪ ⋃ ps2.
Proof.
  induction ps1 as [|p ps1 IH]; simpl.
  - by rewrite (left_id_L ∅ (∪)).
  - by rewrite IH, (assoc_L (∪)).
Qed.

Section PriorityFolds.
Variable rec : Combo.t -> res (gmap Z Z).

Lemma merge_producers (cs : list Combo.t) (r : gmap Z Z) :
  foldM (fun result combo' => p1 ← rec combo'; Ok (result ∪ p1)) r cs
  = ps ← mapM rec cs; Ok (r ∪ ⋃ ps).
Proof.
  revert r. induction cs as [|c cs IH]; intros r.
  - simpl. by rewrite (right_id_L ∅ (∪)).
  - rewrite mapM_res_cons. simpl. destruct (rec c) as [p| |]; simpl; try done.
    rewrite IH. destruct (mapM rec cs) as [ps| |]; simpl; try done.
    by rewrite (assoc_L (∪)).
Qed.

Lemma merge_features (data : Data) (v : Z) (fs : list Feature.t) (r : gmap Z Z) :
  foldM (fun result feature =>
      let result :=
        foldl (fun result card => <[card := v]> result) result
              (Feature.cards feature) in
      foldM (fun result combo' => p1 ← rec combo'; Ok (result ∪ p1))
        result (produced_by_combos_all data feature)) r fs
  = ps ← mapM rec (flat_map (produced_by_combos_all data) fs);
    Ok (gset_to_gmap v (list_to_set (flat_map Feature.cards fs)) ∪ r ∪ ⋃ ps).
Proof.
  revert r. induction fs as [|f fs IH]; intros r.
  - simpl. by rewrite gset_to_gmap_empty, (left_id_L ∅ (∪)), (right_id_L ∅ (∪)).
  - simpl. rewrite merge_producers, mapM_res_app, foldl_insert_const.
    destruct (mapM rec (produced_by_combos_all data f)) as [ps1| |]; simpl; try done.
    rewrite IH.
    destruct (mapM rec (flat_map _ fs)) as [ps2| |]; simpl; try done.
    f_equal. rewrite union_list_map_app.
    generalize (⋃ ps1) (⋃ ps2). intros u1 u2. map_lookup.
    destruct (decide (i ∈ Feature.cards f)),
      (decide (i ∈ flat_map Feature.cards fs)), (r !! i), (u1 !! i);
      intuition congruence.
Qed.
End PriorityFolds.

(** The analyzer as one equation: within the limit, the depth map is the
    needed-feature cards at depth+1, then the included cards at depth, then
    the maps of the producing combos at depth+2 in visiting order, earlier
    entries taking precedence; an exception of a recursive call is the
    exception of the call. *)
Lemma priority_dict_for_combo_eq (data : Data) (combo : Combo.t) (k : Z) :
  k <= RECURSION_LIMIT ->
  priority_dict_for_combo data combo k =
    ps ← mapM (fun c => priority_dict_for_combo data c (k + 2)) (producers data combo);
    Ok (gset_to_gmap (k + 1) (list_to_set (needed_cards data combo))
        ∪ gset_to_gmap k (list_to_set (Combo.includes combo))
        ∪ ⋃ ps).
Proof.
  intros Hk. unfold priority_dict_for_combo at 1.
  destruct (Z.to_nat (RECURSION_LIMIT + 2 - k)) as [|n] eqn:Hn;
    [unfold RECURSION_LIMIT in *; lia|].
  simpl. destruct (Z.ltb_spec RECURSION_LIMIT k); [lia|].
  rewrite foldl_insert_const, (right_id_L ∅ (∪)).
  erewrite foldM_ext.
  - apply merge_features.
  - intros r feature _. simpl. apply foldM_ext. intros r' c _.
    replace n with (Nat.pred (Z.to_nat (RECURSION_LIMIT + 2 - k))) by lia.
    by rewrite priority_dict_rec_call.
Qed.

Lemma priority_dict_above_limit (data : Data) (combo : Combo.t) (k : Z) :
  RECURSION_LIMIT < k ->
  priority_dict_for_combo data combo k = Raise (RecursionLimitReached (Combo.id combo)).
Proof.
  intros Hk. unfold priority_dict_for_combo.
  destruct (Z.to_nat _); simpl; destruct (Z.ltb_spec RECURSION_LIMIT k); done || lia.
Qed.

Lemma mapM_res_no_Diverge {A B} (f : A -> res B) (l : list A) :
  (forall x, x ∈ l -> f x <> Diverge) -> mapM f l <> Diverge.
Proof.
  induction l as [|x l IH]; intros Hf; [done|].
  rewrite mapM_res_cons.
  destruct (f x) eqn:Hx; simpl; try done.
  - destruct (mapM f l) eqn:Hl; simpl; try done.
    exfalso. apply IH; [|done]. intros. apply Hf. by right.
  - exfalso. apply (Hf x); [by left|done].
Qed.

(** The analyzer is total: it returns a map or raises. *)
Lemma priority_dict_total (data : Data) (combo : Combo.t) (k : Z) :
  priority_dict_for_combo data combo k <> Diverge.
Proof.
  destruct (Z.ltb_spec RECURSION_LIMIT k) as [Hk|Hk];
    [by rewrite priority_dict_above_limit|].
  remember (Z.to_nat (RECURSION_LIMIT - k)) as n eqn:Hn.
  revert combo k Hk Hn. induction (lt_wf n) as [n _ IH]. intros combo k Hk ->.
  rewrite priority_dict_for_combo_eq by done.
  destruct (mapM _ _) as [ps| |] eqn:Hps; simpl; try done.
  exfalso. revert Hps. apply mapM_res_no_Diverge. intros c _.
  destruct (Z.ltb_spec RECURSION_LIMIT (k + 2)) as [Hk2|Hk2];
    [by rewrite priority_dict_above_limit|].
  eapply IH; [|done|reflexivity]. unfold RECURSION_LIMIT in *. lia.
Qed.

(** C4 (amended). Within the recursion limit the analyzer returns a depth map
    or raises, and a returned map gives: depth+1 to every card that grants a
    needed feature (also when the combo requires that card directly);
    the current depth to every other card the combo requires directly; and
    to every remaining card the depth found in the maps computed
    recursively, at depth+2, from the combos producing a needed feature, the
    first such map in visiting order that knows the card deciding.  The two
    depths assigned by the call itself take precedence over every depth
    merged in from the recursive calls. *)
Theorem priority_dict_depths (data : Data) (combo : Combo.t) (k : Z) :
  k <= RECURSION_LIMIT ->
  priority_dict_for_combo data combo k <> Diverge
  /\ forall m, priority_dict_for_combo data combo k = Ok m ->
      (forall card, card ∈ needed_cards data combo -> m !! card = Some (k + 1))
      /\ (forall card, card ∈ Combo.includes combo ->
                       card ∉ needed_cards data combo -> m !! card = Some k)
      /\ exists ps,
           Forall2 (fun c p => priority_dict_for_combo data c (k + 2) = Ok p)
                   (producers data combo) ps
           /\ (forall card, card ∉ needed_cards data combo ->
                            card ∉ Combo.includes combo ->
                            m !! card = (⋃ ps : gmap Z Z) !! card)
           /\ (forall card, card ∈ needed_cards data combo \/
                            card ∈ Combo.includes combo ->
                            m !! card = Some (k + 1) \/ m !! card = Some k).
Proof.
  intros Hk. split; [apply priority_dict_total|].
  intros m Hm. rewrite priority_dict_for_combo_eq in Hm by done.
  apply bind_Ok_inv in Hm as (ps & Hps & Hm). inversion Hm as [Hm']. clear Hm.
  assert (H1 : forall card, card ∈ needed_cards data combo ->
            (gset_to_gmap (k + 1) (list_to_set (needed_cards data combo))
             ∪ gset_to_gmap k (list_to_set (Combo.includes combo)) ∪ ⋃ ps) !! card
            = Some (k + 1)).
  { intros card Hc. apply lookup_union_Some_l, lookup_union_Some_l.
    apply lookup_gset_to_gmap_Some. by rewrite elem_of_list_to_set. }
  assert (H2 : forall card, card ∈ Combo.includes combo ->
            card ∉ needed_cards data combo ->
            (gset_to_gmap (k + 1) (list_to_set (needed_cards data combo))
             ∪ gset_to_gmap k (list_to_set (Combo.includes combo)) ∪ ⋃ ps) !! card
            = Some k).
  { intros card Hc Hn. apply lookup_union_Some_l.
    rewrite lookup_union_r.
    - apply lookup_gset_to_gmap_Some. by rewrite elem_of_list_to_set.
    - apply lookup_gset_to_gmap_None. by rewrite elem_of_list_to_set. }
  split; [done|]. split; [done|].
  exists ps. split; [by apply mapM_res_Ok_Forall2|]. split.
  - intros card Hn Hi. rewrite <- (assoc_L (∪)).
    rewrite lookup_union_r
      by (apply lookup_gset_to_gmap_None; by rewrite elem_of_list_to_set).
    rewrite lookup_union_r
      by (apply lookup_gset_to_gmap_None; by rewrite elem_of_list_to_set).
    done.
  - intros card [Hc|Hc]; [left; by apply H1|].
    destruct (decide (card ∈ needed_cards data combo)); [left; by apply H1|].
    right. by apply H2.
Qed.


(** ** Termination of the enumeration loop *)

Lemma filter_in_powerlist {A} (P : A -> Prop) `{forall x, Decision (P x)} (l : list A) :
  filter P l ∈ powerlist l.
Proof.
  induction l as [|x l IH]; simpl.
  - rewrite filter_nil. by left.
  - rewrite filter_cons. apply elem_of_app. destruct (decide (P x)).
    + right. rewrite map_is_fmap. by apply list_elem_of_fmap_2.
    + by left.
Qed.

Lemma length_powerlist {A} (l : list A) :
  length (powerlist l) = (2 ^ length l)%nat.
Proof.
  induction l as [|x l IH]; simpl; [done|].
  rewrite length_app, length_map, IH. lia.
Qed.

Lemma eval_sum_all_true (a : var -> bool) (l : list var) :
  (forall v, v ∈ l -> a v = true) -> eval a (sum_ l) = Z.of_nat (length l).
Proof.
  unfold eval. simpl. induction l as [|v l IH]; intros Ha; simpl; [done|].
  rewrite (Ha v) by left.
  rewrite Z.add_0_r in IH. rewrite Z.add_0_r, IH; [lia|].
  intros. apply Ha. by right.
Qed.

Lemma eval_sum_filter (a : var -> bool) (l : list Z) :
  eval a (sum_ (map c_ l))
  = Z.of_nat (length (filter (fun v => a (c_ v) = true) l)).
Proof.
  unfold eval. simpl. rewrite Z.add_0_r.
  induction l as [|k l IH]; simpl; [done|].
  rewrite filter_cons, IH. case_decide as Ha.
  - rewrite Ha. simpl. lia.
  - destruct (a (c_ k)); [done|lia].
Qed.

Lemma exclusion_Ok (l : list Z) (c : constr) :
  exclusion l = Ok c ->
  l <> [] /\ c = Le (sum_ (map c_ l)) (num (Z.of_nat (length l) - 1)).
Proof. destruct l; intros H; [done|]. by inversion H. Qed.

(** A solution of a model that carries the exclusion of [l] does not
    activate all the cards of [l]. *)
Lemma exclusion_excludes (m : Model) (a : var -> bool) (l : list Z) (c : constr) :
  feasible m a = true -> exclusion l = Ok c -> c ∈ Variants m ->
  ~ (forall k, k ∈ l -> a (c_ k) = true).
Proof.
  intros Hf Hc Hin Hall. apply exclusion_Ok in Hc as [_ ->].
  unfold feasible in Hf. apply andb_true_iff in Hf as [Hf _].
  rewrite forallb_forall in Hf.
  assert (Hc : holds a (Le (sum_ (map c_ l)) (num (Z.of_nat (length l) - 1))) = true).
  { apply Hf, list_elem_of_In. unfold constraints. right.
    rewrite !elem_of_app. tauto. }
  unfold holds in Hc. rewrite eval_sum_all_true in Hc.
  - unfold eval in Hc. simpl in Hc. rewrite length_map in Hc.
    apply Z.leb_le in Hc. lia.
  - intros v Hv. rewrite map_is_fmap in Hv.
    apply list_elem_of_fmap in Hv as (k & -> & Hk). by apply Hall.
Qed.

Lemma sorted_by_priority_Permutation (priorityc : gmap Z Z) (l l' : list Z) :
  sorted_by_priority priorityc l = Ok l' -> l' ≡ₚ l.
Proof.
  unfold sorted_by_priority. intros H.
  apply bind_Ok_inv in H as (keyed & Hk & H). inversion H as [Hl']. clear H Hl'.
  rewrite map_is_fmap, sorted_by_key_Permutation.
  apply mapM_res_Ok_Forall2 in Hk.
  induction Hk as [|c [c' p] l keyed Hc _ IH]; [done|].
  destruct (priorityc !! c); [|done]. inversion Hc; subst.
  rewrite fmap_cons. simpl. by rewrite IH.
Qed.

Section Termination.
Variable sha256_hexdigest : string -> string.
Variable solve : Model -> option (var -> bool).
Hypothesis solve_sound : forall m a, solve m = Some a -> feasible m a = true.

(** What one round of the sequential solver leaves of the model. *)
Lemma solve_combo_model_spec (m m' : Model) (solved : bool) :
  solve_combo_model solve m = (solved, m') ->
  C m' = C m /\ V m' = V m /\ Variants m' = Variants m
  /\ (solved = true ->
      exists m3, feasible m3 (value m') = true
                 /\ C m3 = C m /\ V m3 = V m /\ Variants m3 = Variants m).
Proof.
  unfold solve_combo_model, opt_solve.
  destruct (solve (activate MinimizeCards m)) as [a1|] eqn:H1; simpl.
  2:{ intros Hs. inversion Hs. subst. simpl. repeat split; try done. }
  match goal with
  | |- context [solve ?x] => destruct (solve x) as [a2|] eqn:H2
  end; simpl.
  2:{ intros Hs. inversion Hs. subst. simpl. repeat split; try done. }
  match goal with
  | |- context [solve ?x] => destruct (solve x) as [a3|] eqn:H3
  end; simpl.
  2:{ intros Hs. inversion Hs. subst. simpl. repeat split; try done. }
  intros Hs. inversion Hs. subst. simpl. repeat split; try done.
  intros _. eexists. split; [apply (solve_sound _ _ H3)|]. done.
Qed.

Lemma loop_terminates (fuel : nat) :
  forall (m : Model) (priorityc : gmap Z Z)
         (result : list (string * VariantDefinition)) (found : list (list Z)),
    NoDup found ->
    (forall s, s ∈ found -> s ∈ powerlist (C m)) ->
    excluded found m ->
    (length (powerlist (C m)) < fuel + length found)%nat ->
    variants_from_combo_loop sha256_hexdigest solve fuel m priorityc result
      <> Diverge.
Proof.
  induction fuel as [|fuel IH]; intros m priorityc result found Hnd Hsub Hex Hlen.
  - exfalso. assert (length found <= length (powerlist (C m)))%nat; [|simpl in *; lia].
    apply submseteq_length, NoDup_submseteq; done.
  - simpl. destruct (solve_combo_model solve m) as [solved m'] eqn:Hs.
    apply solve_combo_model_spec in Hs as (HC & _ & HV & Hsolved).
    destruct solved; [|done].
    destruct Hsolved as (m3 & Hfeas & HC3 & _ & HV3); [done|].
    destruct (sorted_by_priority _ _) as [card_id_list| |] eqn:Hsort;
      simpl; try done.
    2:{ unfold sorted_by_priority in Hsort.
        destruct (mapM _ _) eqn:Hm in Hsort; simpl in Hsort; try done.
        exfalso. revert Hm. apply mapM_res_no_Diverge.
        intros c _. by destruct (priorityc !! c). }
    apply sorted_by_priority_Permutation in Hsort.
    destruct (exclusion card_id_list) as [c| |] eqn:Hc; simpl; try done.
    2:{ by destruct card_id_list. }
    set (s0 := filter (fun v => value m' (c_ v) = true) (C m')) in *.
    assert (Hs0 : forall k, k ∈ s0 -> value m' (c_ k) = true).
    { intros k Hk. by apply list_elem_of_filter in Hk as [? _]. }
    apply (IH _ _ _ (s0 :: found)).
    + constructor; [|done]. intros Hin.
      destruct (Hex s0 Hin) as (l & c' & Hl & Hc' & Hls).
      apply (exclusion_excludes m3 (value m') l c'); try done.
      * by rewrite HV3.
      * intros k Hk. by apply Hs0, Hls.
    + simpl. intros s [->|Hin]%elem_of_cons.
      * apply filter_in_powerlist.
      * rewrite HC. by apply Hsub.
    + intros s [->|Hin]%elem_of_cons.
      * exists card_id_list, c. split; [done|]. simpl. split.
        -- apply elem_of_app. right. by left.
        -- intros k Hk. by rewrite <- Hsort.
      * destruct (Hex s Hin) as (l & c' & Hl & Hc' & Hls).
        exists l, c'. split; [done|]. simpl. split; [|done].
        apply elem_of_app. left. by rewrite HV.
    + simpl. rewrite HC. lia.
Qed.

Lemma variants_from_combo_no_Diverge (fuel : nat) (m : Model) (priorityc : gmap Z Z) :
  (2 ^ length (C m) < fuel)%nat ->
  variants_from_combo_loop sha256_hexdigest solve fuel m priorityc [] <> Diverge
  /\ variants_from_combo sha256_hexdigest solve fuel m priorityc <> Diverge.
Proof.
  assert (Hloop : (2 ^ length (C m) < fuel)%nat ->
    variants_from_combo_loop sha256_hexdigest solve fuel m priorityc [] <> Diverge).
  { intros Hfuel. apply (loop_terminates fuel m priorityc [] []).
    - constructor.
    - intros s Hs. by apply elem_of_nil in Hs.
    - intros s Hs. by apply elem_of_nil in Hs.
    - rewrite length_powerlist. simpl. lia. }
  intros Hfuel. specialize (Hloop Hfuel). split; [done|].
  unfold variants_from_combo.
  by destruct (variants_from_combo_loop _ _ _ _ _ _).
Qed.

(** A normal exit of the loop follows a round whose solve failed. *)
Lemma loop_exit (fuel : nat) :
  forall (m m' : Model) (priorityc : gmap Z Z)
         (result r : list (string * VariantDefinition)),
    variants_from_combo_loop sha256_hexdigest solve fuel m priorityc result
      = Ok (m', r) ->
    exists m_last, solve_combo_model solve m_last = (false, m').
Proof.
  induction fuel as [|fuel IH]; intros m m' priorityc result r; simpl; [done|].
  destruct (solve_combo_model solve m) as [solved m1] eqn:Hs.
  destruct solved.
  - intros H. apply bind_Ok_inv in H as (l & _ & H).
    apply bind_Ok_inv in H as (c & _ & H). by apply IH in H.
  - intros H. inversion H; subst. by exists m.
Qed.
End Termination.


Lemma elem_of_dict_set {A} (k : string) (x : A) (d : list (string * A)) (kv : string * A) :
  kv ∈ dict_set k x d -> kv = (k, x) \/ kv ∈ d.
Proof.
  induction d as [|[k' x'] d IH]; simpl.
  - intros ->%list_elem_of_singleton. by left.
  - case_decide.
    + intros [->|Hin]%elem_of_cons; [by left|]. right. by right.
    + intros [->|Hin]%elem_of_cons; [right; by left|].
      destruct (IH Hin) as [->|?]; [by left|]. right. by right.
Qed.

Section CardinalityBound.
Variable sha256_hexdigest : string -> string.
Variable solve : Model -> option (var -> bool).
Hypothesis solve_sound : forall m a, solve m = Some a -> feasible m a = true.

(** Every recorded definition respects the global constraint [V]. *)
Lemma loop_cards_bound (fuel : nat) :
  forall (m m' : Model) (priorityc : gmap Z Z)
         (result r : list (string * VariantDefinition)),
    V m = Le (sum_ (map c_ (C m))) (num MAX_CARDS_IN_COMBO) ->
    (forall kv, kv ∈ result ->
                Z.of_nat (length (card_ids kv.2)) <= MAX_CARDS_IN_COMBO) ->
    variants_from_combo_loop sha256_hexdigest solve fuel m priorityc result
      = Ok (m', r) ->
    forall kv, kv ∈ r -> Z.of_nat (length (card_ids kv.2)) <= MAX_CARDS_IN_COMBO.
Proof.
  induction fuel as [|fuel IH]; intros m m' priorityc result r HV Hres; simpl; [done|].
  destruct (solve_combo_model solve m) as [solved m1] eqn:Hs.
  apply (solve_combo_model_spec solve solve_sound) in Hs as (HC & HV1 & _ & Hsolved).
  destruct solved.
  2:{ intros H. inversion H; subst. done. }
  destruct Hsolved as (m3 & Hfeas & HC3 & HV3 & _); [done|].
  intros H. apply bind_Ok_inv in H as (card_id_list & Hsort & H).
  apply bind_Ok_inv in H as (c & Hc & H).
  apply sorted_by_priority_Permutation in Hsort.
  eapply IH; [| |exact H].
  - simpl. by rewrite HC, HV1.
  - intros kv [->|Hin]%elem_of_dict_set; [|by apply Hres]. simpl.
    rewrite Hsort, HC.
    unfold feasible in Hfeas. apply andb_true_iff in Hfeas as [Hfeas _].
    rewrite forallb_forall in Hfeas.
    assert (Hh : holds (value m1) (V m3) = true).
    { apply Hfeas, list_elem_of_In. unfold constraints. by left. }
    rewrite HV3, HV in Hh. unfold holds in Hh. rewrite eval_sum_filter in Hh.
    apply Z.leb_le in Hh. unfold eval in Hh. simpl in Hh. lia.
Qed.
End CardinalityBound.

(** C10. For every seed model the enumeration loop terminates, whatever a
    sound solver answers: each successful round forbids the card set it
    found, the card sets are sublists of the finite card universe, so after
    at most 2^|C| successful rounds no round can succeed.  With more fuel
    than that the loop never runs out: it either returns, and then the last
    round's solve was unsuccessful, or a round raises.  When the model
    carries the global constraint of at most [MAX_CARDS_IN_COMBO] active
    cards, every recorded variant respects it. *)
Theorem enumeration_terminates
    (sha256_hexdigest : string -> string) (solve : Model -> option (var -> bool))
    (fuel : nat) (model : Model) (priorityc : gmap Z Z) :
  (forall m a, solve m = Some a -> feasible m a = true) ->
  (2 ^ length (C model) < fuel)%nat ->
  variants_from_combo_loop sha256_hexdigest solve fuel model priorityc [] <> Diverge
  /\ variants_from_combo sha256_hexdigest solve fuel model priorityc <> Diverge
  /\ (forall m' r,
        variants_from_combo_loop sha256_hexdigest solve fuel model priorityc []
          = Ok (m', r) ->
        (exists m_last, solve_combo_model solve m_last = (false, m'))
        /\ (V model = Le (sum_ (map c_ (C model))) (num MAX_CARDS_IN_COMBO) ->
            forall kv, kv ∈ r ->
              Z.of_nat (length (card_ids kv.2)) <= MAX_CARDS_IN_COMBO)).
Proof.
  intros Hsound Hfuel.
  destruct (variants_from_combo_no_Diverge sha256_hexdigest solve Hsound
              fuel model priorityc Hfuel) as [Hloop Hv].
  split; [done|]. split; [done|].
  intros m' r Hr. split.
    + by eapply loop_exit.
    + intros HV. eapply (loop_cards_bound sha256_hexdigest solve Hsound); [done| |done].
      intros kv Hkv. by apply elem_of_nil in Hkv.
Qed.

(** ** The reference solver is sound *)

Lemma best_of_elem (m : Model) (first : list var) (rest : list (list var)) :
  best_of m first rest ∈ first :: rest.
Proof.
  unfold best_of. revert first.
  induction rest as [|tv rest IH]; intros first; simpl; [by left|].
  match goal with |- context [if ?b then _ else _] => destruct b end.
  - right. apply IH.
  - pose proof (IH first) as Hx. apply elem_of_cons in Hx as [Hx|Hx].
    + rewrite Hx. by left.
    + right. by right.
Qed.

Lemma brute_solve_sound (m : Model) (a : var -> bool) :
  brute_solve m = Some a -> feasible m a = true.
Proof.
  unfold brute_solve.
  destruct (filter _ _) as [|tv rest] eqn:Hf; [done|].
  intros H. inversion H; subst. clear H.
  pose proof (best_of_elem m tv rest) as Hin. rewrite <- Hf in Hin.
  by apply list_elem_of_filter in Hin as [? _].
Qed.


(** ** Propagation of the recursion-limit exception *)

Lemma foldM_no_Diverge {A S} (f : S -> A -> res S) (s : S) (l : list A) :
  (forall s x, x ∈ l -> f s x <> Diverge) -> foldM f s l <> Diverge.
Proof.
  revert s. induction l as [|x l IH]; intros s Hf; simpl; [done|].
  destruct (f s x) eqn:Hx; simpl; try done.
  - apply IH. intros. apply Hf. by right.
  - exfalso. apply (Hf s x); [by left|done].
Qed.

Lemma base_model_C (data : Data) (model : Model) :
  base_model data = Some model ->
  C model = map Card.id (cards data)
  /\ V model = Le (sum_ (map c_ (C model))) (num MAX_CARDS_IN_COMBO)
  /\ Variants model = [].
Proof.
  unfold base_model. case_decide; [done|]. intros Hm. by inversion Hm.
Qed.

Lemma base_model_Some (data : Data) :
  cards data <> [] -> exists model, base_model data = Some model.
Proof.
  intros Hc. unfold base_model. rewrite decide_False; [eauto|].
  rewrite length_map. by destruct (cards data).
Qed.

Lemma exclude_variants_model_no_Diverge (model : Model) (data : Data) :
  exclude_variants_model model data <> Diverge.
Proof.
  unfold exclude_variants_model.
  destruct (foldM _ _ _) eqn:Hf; simpl; try done.
  exfalso. revert Hf. apply foldM_no_Diverge. intros m v _.
  by destruct (elements (Variant.includes v)).
Qed.

Section Propagation.
Variable sha256_hexdigest : string -> string.
Variable solve : Model -> option (var -> bool).

Lemma get_variants_needs_every_seed (fuel : nat) (base : Model) (data : Data)
    (seed : Combo.t) (r : list (string * VariantDefinition)) :
  get_variants_from_model sha256_hexdigest solve fuel base data = Ok r ->
  seed ∈ combos data -> Combo.generator seed = true ->
  exists priorityc, priority_dict_for_combo data seed 0 = Ok priorityc.
Proof.
  unfold get_variants_from_model. intros H Hin Hgen.
  apply bind_Ok_inv in H as (results & Hres & _).
  apply mapM_res_Ok_Forall2 in Hres.
  assert (Hs : seed ∈ filter (fun c => Combo.generator c = true) (combos data))
    by by apply list_elem_of_filter.
  apply list_elem_of_lookup in Hs as [i Hi].
  destruct (Forall2_lookup_l _ _ _ _ _ Hres Hi) as (y & _ & Hy).
  apply bind_Ok_inv in Hy as (p & Hp & _). eauto.
Qed.

Lemma generate_variants_needs_enumeration (fuel : nat) (data : Data)
    (model : Model) (r : (nat * nat * nat) * Data) :
  base_model data = Some model ->
  generate_variants sha256_hexdigest solve fuel data = Ok r ->
  exists vs, get_variants_from_model sha256_hexdigest solve fuel model data = Ok vs.
Proof.
  unfold generate_variants. intros Hb Hg. rewrite Hb in Hg.
  apply bind_Ok_inv in Hg as ([vs d] & Hg & _).
  apply bind_Ok_inv in Hg as (vcm & _ & Hg).
  apply bind_Ok_inv in Hg as (vs' & Hvs & _). eauto.
Qed.

Hypothesis solve_sound : forall m a, solve m = Some a -> feasible m a = true.

Lemma get_variants_no_Diverge (fuel : nat) (base : Model) (data : Data) :
  (2 ^ length (C base) < fuel)%nat ->
  get_variants_from_model sha256_hexdigest solve fuel base data <> Diverge.
Proof.
  intros Hfuel. unfold get_variants_from_model.
  destruct (mapM _ _) eqn:Hm; simpl; try done.
  exfalso. revert Hm. apply mapM_res_no_Diverge. intros c _.
  destruct (priority_dict_for_combo data c 0) as [p| |] eqn:Hp; simpl; try done.
  - by apply variants_from_combo_no_Diverge.
  - by apply priority_dict_total in Hp.
Qed.
End Propagation.

(** C3 (amended). Above the recursion limit the analyzer raises an explicit
    exception, and a call returns a map only if each of its recursive calls
    did: nothing is truncated.  The exception is not confined to the seed:
    when the analyzer raises for some generator combo, the enumeration over
    all seeds returns no variants at all and the reconciliation pass as a
    whole ends with an exception, leaving the store as it was (provided the
    card universe is not empty, so that the enumeration runs at all). *)
Theorem recursion_limit_aborts_pass
    (sha256_hexdigest : string -> string) (solve : Model -> option (var -> bool))
    (fuel : nat) (data : Data) (seed : Combo.t) (e : exn) :
  seed ∈ combos data -> Combo.generator seed = true ->
  priority_dict_for_combo data seed 0 = Raise e ->
  (forall combo k, RECURSION_LIMIT < k ->
     priority_dict_for_combo data combo k
       = Raise (RecursionLimitReached (Combo.id combo)))
  /\ (forall combo k m, priority_dict_for_combo data combo k = Ok m ->
        k <= RECURSION_LIMIT /\
        Forall (fun c => exists p, priority_dict_for_combo data c (k + 2) = Ok p)
               (producers data combo))
  /\ (forall base r,
        get_variants_from_model sha256_hexdigest solve fuel base data <> Ok r)
  /\ (cards data <> [] ->
      forall r, generate_variants sha256_hexdigest solve fuel data <> Ok r)
  /\ ((forall m a, solve m = Some a -> feasible m a = true) ->
      cards data <> [] -> (2 ^ length (cards data) < fuel)%nat ->
      exists e', generate_variants sha256_hexdigest solve fuel data = Raise e').
Proof.
  intros Hin Hgen Hraise.
  assert (Hget : forall base r,
    get_variants_from_model sha256_hexdigest solve fuel base data <> Ok r).
  { intros base r Hr.
    destruct (get_variants_needs_every_seed _ _ _ _ _ _ _ Hr Hin Hgen) as [p Hp].
    congruence. }
  assert (Hgen_v : cards data <> [] ->
    forall r, generate_variants sha256_hexdigest solve fuel data <> Ok r).
  { intros Hc r Hr. destruct (base_model_Some data Hc) as [model Hb].
    destruct (generate_variants_needs_enumeration _ _ _ _ _ _ Hb Hr) as [vs Hvs].
    by apply Hget in Hvs. }
  split; [intros; by apply priority_dict_above_limit|].
  split; [|split; [done|split; [done|]]].
  - intros combo k m Hm. destruct (Z.ltb_spec RECURSION_LIMIT k) as [Hk|Hk].
    { by rewrite priority_dict_above_limit in Hm. }
    split; [done|]. rewrite priority_dict_for_combo_eq in Hm by done.
    apply bind_Ok_inv in Hm as (ps & Hps & _).
    apply mapM_res_Ok_Forall2 in Hps.
    induction Hps; constructor; eauto.
  - intros Hsound Hc Hfuel.
    destruct (generate_variants sha256_hexdigest solve fuel data) as [r|e'|] eqn:Hg.
    + by destruct (Hgen_v Hc r).
    + eauto.
    + exfalso. destruct (base_model_Some data Hc) as [model Hb].
      unfold generate_variants in Hg. rewrite Hb in Hg.
      destruct (exclude_variants_model model data) as [vcm| |] eqn:Hvcm;
        simpl in Hg; try done.
      2:{ by apply exclude_variants_model_no_Diverge in Hvcm. }
      destruct (get_variants_from_model _ _ _ _ _) as [vs| |] eqn:Hvs;
        simpl in Hg; try done.
      * by apply Hget in Hvs.
      * revert Hvs. apply get_variants_no_Diverge; [done|].
        apply base_model_C in Hb as [-> _]. by rewrite length_map.
Qed.

(** ** The validity check *)

Lemma fix_c_fold_shape (ids : list Z) (m : Model) :
  let m' := foldl (fun model card_id => fix_c card_id true model) m ids in
  constraints m' = constraints m /\ variables m' = variables m
  /\ Variants m' = Variants m /\ C m' = C m.
Proof.
  revert m. induction ids as [|k ids IH]; intros m; simpl; [done|].
  destruct (IH (fix_c k true m)) as (H1 & H2 & H3 & H4).
  by rewrite H1, H2, H3, H4.
Qed.

Lemma fix_c_fold_fixed (ids : list Z) (m : Model) (k : Z) :
  k ∈ ids \/ fixed m (c_ k) = Some true ->
  fixed (foldl (fun model card_id => fix_c card_id true model) m ids) (c_ k)
    = Some true.
Proof.
  revert m. induction ids as [|k' ids IH]; intros m; simpl.
  - intros [H|H]; [by apply elem_of_nil in H|done].
  - intros H. apply IH. destruct (decide (k = k')) as [->|Hne].
    + right. simpl. by rewrite decide_True.
    + destruct H as [[?|?]%elem_of_cons|H]; [done|by left|].
      right. simpl. rewrite decide_False; [done|congruence].
Qed.

Lemma respects_fixed_spec (m : Model) (a : var -> bool) (v : var) (x : bool) :
  respects_fixed m a = true -> v ∈ variables m -> fixed m v = Some x -> a v = x.
Proof.
  unfold respects_fixed. rewrite forallb_forall. intros H Hv Hx.
  apply list_elem_of_In, H in Hv. rewrite Hx in Hv.
  by apply bool_decide_eq_true in Hv.
Qed.

Section Validity.
Variable solve : Model -> option (var -> bool).
Hypothesis solve_sound : forall m a, solve m = Some a -> feasible m a = true.

Lemma is_variant_valid_shape (m : Model) (card_ids : list Z) :
  Variants (is_variant_valid solve m card_ids).2 = Variants m
  /\ C (is_variant_valid solve m card_ids).2 = C m.
Proof.
  unfold is_variant_valid, opt_solve.
  destruct (fix_c_fold_shape card_ids (fix_all_c false m)) as (_ & _ & H3 & H4).
  destruct (solve _); simpl; by rewrite H3, H4.
Qed.

(** A candidate that contains a forbidden card set is never valid. *)
Lemma is_variant_valid_excluded (m : Model) (card_ids l : list Z) (c : constr) :
  exclusion l = Ok c -> c ∈ Variants m ->
  (forall k, k ∈ l -> k ∈ card_ids /\ k ∈ C m) ->
  (is_variant_valid solve m card_ids).1 = false.
Proof.
  intros Hc Hin Hl. unfold is_variant_valid, opt_solve.
  destruct (solve _) as [a|] eqn:Hs; [|done]. exfalso.
  apply solve_sound in Hs.
  destruct (fix_c_fold_shape card_ids (fix_all_c false m)) as (H1 & H2 & H3 & H4).
  apply (exclusion_excludes _ a l c Hs Hc).
  - by rewrite H3.
  - intros k Hk. destruct (Hl k Hk) as [Hk1 Hk2].
    unfold feasible in Hs. apply andb_true_iff in Hs as [_ Hs].
    apply (respects_fixed_spec _ a (c_ k) true Hs).
    + rewrite H2. unfold variables. simpl. rewrite !elem_of_app. right. right.
      rewrite map_is_fmap. by apply list_elem_of_fmap_2.
    + apply fix_c_fold_fixed. by left.
Qed.
End Validity.

Lemma exclude_variants_model_spec (model vcm : Model) (data : Data) :
  exclude_variants_model model data = Ok vcm ->
  C vcm = C model
  /\ forall v, v ∈ variants data -> Variant.status v = Variant.NOT_WORKING ->
       exists c, exclusion (elements (Variant.includes v)) = Ok c /\ c ∈ Variants vcm.
Proof.
  unfold exclude_variants_model. intros H.
  apply bind_Ok_inv in H as (m & Hm & H). inversion H; subst. clear H. simpl.
  assert (Hgen : forall vs m0 m1,
    foldM (fun model variant =>
             c ← exclusion (elements (Variant.includes variant));
             Ok (set_Variants (Variants model ++ [c]) model)) m0 vs = Ok m1 ->
    C m1 = C m0
    /\ (forall c, c ∈ Variants m0 -> c ∈ Variants m1)
    /\ forall v, v ∈ vs ->
         exists c, exclusion (elements (Variant.includes v)) = Ok c /\ c ∈ Variants m1).
  { induction vs as [|v vs IH]; intros m0 m1 Hf; simpl in Hf.
    - inversion Hf; subst. split; [done|]. split; [done|].
      intros v Hv. by apply elem_of_nil in Hv.
    - apply bind_Ok_inv in Hf as (m' & Hm' & Hf).
      apply bind_Ok_inv in Hm' as (c & Hc & Hm'). inversion Hm'; subst. clear Hm'.
      destruct (IH _ _ Hf) as (HC & Hmono & Hvs). simpl in *.
      split; [done|]. split.
      + intros c' Hc'. apply Hmono, elem_of_app. by left.
      + intros v' [->|Hv']%elem_of_cons; [|by apply Hvs].
        exists c. split; [done|]. apply Hmono, elem_of_app. right. by left. }
  destruct (Hgen _ _ _ Hm) as (HC & _ & Hvs). split; [done|].
  intros v Hv Hst. apply Hvs. by apply list_elem_of_filter.
Qed.

(** ** The write loop of the reconciliation pass *)

Lemma store_row_uids (row : Variant.t) (data : Data) :
  map Variant.unique_id (variants (store_row row data))
  = map Variant.unique_id (variants data).
Proof.
  unfold store_row. simpl. induction (variants data) as [|v vs IH]; simpl; [done|].
  rewrite IH. by case_decide as Hd; [rewrite Hd|].
Qed.

Lemma foldM_invariant {A S} (I : S -> Prop) (f : S -> A -> res S)
    (l : list A) (s s' : S) :
  I s ->
  (forall s x s', x ∈ l -> I s -> f s x = Ok s' -> I s') ->
  foldM f s l = Ok s' -> I s'.
Proof.
  revert s. induction l as [|x l IH]; intros s Hs Hstep; simpl.
  - intros H. by inversion H; subst.
  - intros H. apply bind_Ok_inv in H as (s1 & H1 & H).
    apply (IH s1); [|intros; eapply Hstep; [by right|done..]|done].
    eapply Hstep; [by left|done..].
Qed.

Lemma filter_eq_NoDup {A} `{EqDecision A} (l : list A) (x : A) :
  NoDup l -> x ∈ l -> filter (fun y => y = x) l = [x].
Proof.
  induction 1 as [|y l Hy Hnd IH]; intros Hx; [by apply elem_of_nil in Hx|].
  rewrite filter_cons. case_decide as Hd.
  - subst y. f_equal. apply filter_none. intros z Hz ->. done.
  - apply elem_of_cons in Hx as [->|Hx]; [done|]. by apply IH.
Qed.

Lemma filter_uid_length (u : string) (l : list Variant.t) :
  length (filter (fun v => Variant.unique_id v = u) l)
  = length (filter (fun y => y = u) (map Variant.unique_id l)).
Proof.
  induction l as [|v l IH]; simpl; [done|].
  rewrite !filter_cons. case_decide; simpl; by rewrite IH.
Qed.

Lemma variants_get_unique (data : Data) (u : string) (ids extra : list string) :
  map Variant.unique_id (variants data) = ids ++ extra ->
  NoDup ids -> u ∈ ids -> u ∉ extra ->
  exists v, variants_get data u = Ok v.
Proof.
  intros Hids Hnd Hin Hex. unfold variants_get.
  pose proof (filter_uid_length u (variants data)) as Hlen.
  rewrite Hids, filter_app, (filter_eq_NoDup ids u Hnd Hin) in Hlen.
  rewrite (filter_none _ extra) in Hlen by (intros z Hz ->; done).
  destruct (filter _ (variants data)) as [|v [|v' l]]; simpl in Hlen; try done.
  eauto.
Qed.

Section WriteLoop.
Variable solve : Model -> option (var -> bool).
Variables old_id_set to_restore : gset string.

Lemma save_variant_inv (vcm vcm' : Model) (d d' : Data)
    (u : string) (def : VariantDefinition) :
  save_variant solve old_id_set to_restore (vcm, d) (u, def) = Ok (vcm', d') ->
  let ok := (is_variant_valid solve vcm (card_ids def)).1 in
  vcm' = (is_variant_valid solve vcm (card_ids def)).2
  /\ ((u ∈ old_id_set /\
       update_variant d u (combo_ids def) (feature_ids def) ok
         (bool_decide (u ∈ to_restore)) = Ok d')
      \/ ((u ∉ old_id_set) /\
          d' = create_variant d u (card_ids def) (combo_ids def)
                 (feature_ids def) ok)).
Proof.
  unfold save_variant.
  destruct (is_variant_valid solve vcm (card_ids def)) as [ok m1]. simpl.
  case_decide as Hu.
  - intros H. apply bind_Ok_inv in H as (d1 & Hup & H). inversion H; subst.
    split; [done|]. by left.
  - intros H. inversion H; subst. split; [done|]. by right.
Qed.

(** The catalog and the check model's constraints are not touched, and
    the unique ids in the store grow by the ids that were not persisted. *)
Lemma save_loop_uids (vs : list (string * VariantDefinition)) :
  forall (vcm vcm' : Model) (d d' : Data),
    foldM (save_variant solve old_id_set to_restore) (vcm, d) vs = Ok (vcm', d') ->
    Variants vcm' = Variants vcm /\ C vcm' = C vcm
    /\ combos d' = combos d /\ cards d' = cards d /\ features d' = features d
    /\ map Variant.unique_id (variants d')
       = map Variant.unique_id (variants d)
         ++ filter (fun u => u ∉ old_id_set) (map fst vs).
Proof.
  induction vs as [|[u def] vs IH]; intros vcm vcm' d d'; simpl.
  - intros H. inversion H; subst. by rewrite filter_nil, app_nil_r.
  - intros H. apply bind_Ok_inv in H as ([vcm1 d1] & H1 & H).
    apply IH in H as (HV & HC & Hc & Hk & Hf & Hu).
    apply save_variant_inv in H1 as [-> Hcase].
    destruct (is_variant_valid_shape solve vcm (card_ids def)) as [HV1 HC1].
    rewrite HV, HC, HV1, HC1, Hc, Hk, Hf, Hu. rewrite filter_cons.
    destruct Hcase as [[Hold Hup]|[Hold ->]].
    + apply update_variant_inv in Hup as (v0 & _ & ->).
      rewrite decide_False by (intros Hn; by apply Hn).
      by rewrite store_row_uids.
    + rewrite decide_True by done. rewrite create_variant_row. simpl.
      rewrite map_app. simpl. by rewrite <- app_assoc.
Qed.

(** With unique ids identifying the persisted rows, no write raises. *)
Lemma save_loop_Ok (ids : list string) (vs : list (string * VariantDefinition)) :
  NoDup ids -> old_id_set = list_to_set ids ->
  forall (vcm : Model) (d : Data) (extra : list string),
    map Variant.unique_id (variants d) = ids ++ extra ->
    (forall u, u ∈ extra -> u ∉ old_id_set) ->
    exists st, foldM (save_variant solve old_id_set to_restore) (vcm, d) vs = Ok st.
Proof.
  intros Hnd Hold. induction vs as [|[u def] vs IH]; intros vcm d extra Hd Hex; simpl.
  - eauto.
  - unfold save_variant at 1.
    destruct (is_variant_valid solve vcm (card_ids def)) as [ok m1].
    case_decide as Hu.
    + destruct (variants_get_unique d u ids extra Hd Hnd) as [v0 Hget].
      * rewrite Hold in Hu. by apply elem_of_list_to_set in Hu.
      * intros Hin. by apply (Hex u Hin).
      * rewrite (update_variant_row _ _ _ _ _ _ _ Hget). simpl.
        apply (IH _ _ extra); [|done]. by rewrite store_row_uids.
    + simpl. apply (IH _ _ (extra ++ [u])).
      * rewrite create_variant_row. simpl. by rewrite map_app, Hd, <- app_assoc.
      * intros u' [Hin| ->%list_elem_of_singleton]%elem_of_app; [by apply Hex|done].
Qed.
End WriteLoop.

(** ** The reconciliation pass *)

Section Pass.
Variable sha256_hexdigest : string -> string.
Variable solve : Model -> option (var -> bool).

(** The pass, step by step. *)
Lemma generate_variants_inv (fuel : nat) (data data' : Data) (t : nat * nat * nat) :
  generate_variants sha256_hexdigest solve fuel data = Ok (t, data') ->
  exists vs written,
    discovered sha256_hexdigest solve fuel data = Ok vs
    /\ ((base_model data = None /\ vs = [] /\ written = data)
        \/ exists model vcm vcm',
             base_model data = Some model
             /\ exclude_variants_model model data = Ok vcm
             /\ foldM (save_variant solve (persisted_ids data) (restore_snapshot data))
                      (vcm, data) vs = Ok (vcm', written))
    /\ t = (size (dict_keys vs ∖ persisted_ids data),
            size (dict_keys vs ∩ restore_snapshot data),
            size (persisted_ids data ∖ dict_keys vs))
    /\ data' = set_variants
                 (filter (fun v => Variant.unique_id v ∉
                                   persisted_ids data ∖ dict_keys vs)
                         (variants written)) written.
Proof.
  unfold generate_variants, discovered. fold (persisted_ids data).
  fold (restore_snapshot data). intros H.
  apply bind_Ok_inv in H as ([vs written] & H1 & H).
  inversion H; subst. clear H. exists vs, written.
  destruct (base_model data) as [model|] eqn:Hb.
  - apply bind_Ok_inv in H1 as (vcm & Hvcm & H1).
    apply bind_Ok_inv in H1 as (vs' & Hvs & H1).
    apply bind_Ok_inv in H1 as ([vcm' d'] & Hloop & H1).
    inversion H1; subst. clear H1. simpl in *.
    split; [done|]. split; [|done]. right. by exists model, vcm, vcm'.
  - inversion H1; subst. split; [done|]. split; [|done]. by left.
Qed.

Lemma written_uids (data written : Data) (vs : list (string * VariantDefinition)) :
  (base_model data = None /\ vs = [] /\ written = data)
  \/ (exists model vcm vcm',
        base_model data = Some model
        /\ exclude_variants_model model data = Ok vcm
        /\ foldM (save_variant solve (persisted_ids data) (restore_snapshot data))
                 (vcm, data) vs = Ok (vcm', written)) ->
  combos written = combos data /\ cards written = cards data
  /\ features written = features data
  /\ map Variant.unique_id (variants written)
     = map Variant.unique_id (variants data)
       ++ filter (fun u => u ∉ persisted_ids data) (map fst vs).
Proof.
  intros [(_ & -> & ->)|(model & vcm & vcm' & _ & _ & Hloop)].
  - simpl. by rewrite filter_nil, app_nil_r.
  - apply save_loop_uids in Hloop. tauto.
Qed.
End Pass.

Lemma elem_of_uids (l : list Variant.t) (u : string) :
  u ∈ map Variant.unique_id l <-> exists v, v ∈ l /\ Variant.unique_id v = u.
Proof.
  rewrite map_is_fmap, list_elem_of_fmap. split.
  - intros (v & -> & Hv). eauto.
  - intros (v & Hv & <-). eauto.
Qed.

(** C1. When the pass completes, its result is the triple
    (|discovered − persisted|, |discovered ∩ RESTORE snapshot|,
    |persisted − discovered|), the sets being those of unique ids relative
    to the snapshots taken at the start; exactly the persisted records whose
    id is in the to-delete set are gone from the store, the others remain,
    and the ids left in the store are the discovered ones.  The pass
    completes whenever enumeration and the construction of the check model
    do and unique ids identify the persisted rows; with a sound solver and
    enough fuel it never runs forever. *)
Theorem reconciliation_counts
    (sha256_hexdigest : string -> string) (solve : Model -> option (var -> bool))
    (fuel : nat) (data : Data) :
  (forall added restored deleted data',
     generate_variants sha256_hexdigest solve fuel data
       = Ok ((added, restored, deleted), data') ->
     exists vs,
       discovered sha256_hexdigest solve fuel data = Ok vs
       /\ added = size (dict_keys vs ∖ persisted_ids data)
       /\ restored = size (dict_keys vs ∩ restore_snapshot data)
       /\ deleted = size (persisted_ids data ∖ dict_keys vs)
       /\ (forall v, v ∈ variants data ->
             (Variant.unique_id v ∈ persisted_ids data ∖ dict_keys vs ->
                forall v', v' ∈ variants data' ->
                           Variant.unique_id v' <> Variant.unique_id v)
             /\ (Variant.unique_id v ∉ persisted_ids data ∖ dict_keys vs ->
                   exists v', v' ∈ variants data'
                              /\ Variant.unique_id v' = Variant.unique_id v))
       /\ persisted_ids data' = dict_keys vs
       /\ combos data' = combos data /\ cards data' = cards data
       /\ features data' = features data)
  /\ (forall vs,
        NoDup (map Variant.unique_id (variants data)) ->
        discovered sha256_hexdigest solve fuel data = Ok vs ->
        (forall model, base_model data = Some model ->
                       exists vcm, exclude_variants_model model data = Ok vcm) ->
        exists r, generate_variants sha256_hexdigest solve fuel data = Ok r)
  /\ ((forall m a, solve m = Some a -> feasible m a = true) ->
      (2 ^ length (cards data) < fuel)%nat ->
      generate_variants sha256_hexdigest solve fuel data <> Diverge).
Proof.
  split; [|split].
  - intros added restored deleted data' Hg.
    apply generate_variants_inv in Hg as (vs & written & Hvs & Hw & Ht & ->).
    inversion Ht; subst. clear Ht. exists vs.
    apply written_uids in Hw as (Hc & Hk & Hf & Hu).
    assert (Hmem : forall u,
      u ∈ map Variant.unique_id (variants written) <->
      u ∈ persisted_ids data \/ u ∈ dict_keys vs ∖ persisted_ids data).
    { intros u. rewrite Hu, elem_of_app, list_elem_of_filter.
      unfold persisted_ids, dict_keys.
      rewrite elem_of_difference, !elem_of_list_to_set. tauto. }
    repeat split; try done.
    + intros Hdel v' Hv' Heq.
      apply list_elem_of_filter in Hv' as [Hn _]. apply Hn. by rewrite Heq.
    + intros Hkeep.
      assert (Hin : Variant.unique_id v ∈ map Variant.unique_id (variants written)).
      { apply Hmem. left. unfold persisted_ids. apply elem_of_list_to_set.
        apply elem_of_uids. eauto. }
      apply elem_of_uids in Hin as (v' & Hv' & Heq). exists v'. split; [|done].
      simpl. apply list_elem_of_filter. split; [|done]. by rewrite Heq.
    + apply set_eq. intros u. unfold persisted_ids at 1. simpl.
      rewrite elem_of_list_to_set, elem_of_uids. split.
      * intros (v' & [Hn Hv']%list_elem_of_filter & <-).
        assert (Hin : Variant.unique_id v' ∈ map Variant.unique_id (variants written))
          by (apply elem_of_uids; eauto).
        apply Hmem in Hin. rewrite elem_of_difference in Hn, Hin.
        destruct (decide (Variant.unique_id v' ∈ dict_keys vs)); tauto.
      * intros Hnew.
        assert (Hin : u ∈ map Variant.unique_id (variants written)).
        { apply Hmem. rewrite elem_of_difference.
          destruct (decide (u ∈ persisted_ids data)); tauto. }
        apply elem_of_uids in Hin as (v' & Hv' & <-). exists v'. split; [|done].
        apply list_elem_of_filter. split; [|done].
        rewrite elem_of_difference. tauto.
  - intros vs Hnd Hvs Hvcm. unfold generate_variants.
    fold (persisted_ids data). fold (restore_snapshot data).
    unfold discovered in Hvs. destruct (base_model data) as [model|]; simpl; [|eauto].
    destruct (Hvcm model eq_refl) as [vcm ->]. rewrite Hvs. simpl.
    destruct (save_loop_Ok solve (persisted_ids data) (restore_snapshot data)
                (map Variant.unique_id (variants data)) vs Hnd eq_refl
                vcm data []) as [st ->].
    + by rewrite app_nil_r.
    + intros u Hu. by apply elem_of_nil in Hu.
    + simpl. destruct st. eauto.
  - intros Hsound Hfuel Hdiv. unfold generate_variants in Hdiv.
    destruct (base_model data) as [model|] eqn:Hb; [|done].
    destruct (exclude_variants_model model data) as [vcm| |] eqn:Hvcm;
      simpl in Hdiv; try done.
    2:{ by apply exclude_variants_model_no_Diverge in Hvcm. }
    destruct (get_variants_from_model _ _ _ _ _) as [vs| |] eqn:Hvs;
      simpl in Hdiv; try done.
    2:{ revert Hvs. apply get_variants_no_Diverge; [done|].
        apply base_model_C in Hb as [-> _]. by rewrite length_map. }
    destruct (foldM _ _ _) as [[vcm' d']| |] eqn:Hloop; simpl in Hdiv; try done.
    revert Hloop. apply foldM_no_Diverge. intros [m d] [u def] _.
    unfold save_variant. destruct (is_variant_valid _ _ _) as [ok m1].
    case_decide; [|done].
    unfold update_variant, variants_get.
    destruct (filter _ (variants d)) as [|? [|? ?]]; simpl; done.
Qed.

(** ** Scenario D: a NOT_WORKING variant is not resurrected *)

Lemma fix_c_fold_unfixed (ids : list Z) (m : Model) (k : Z) :
  k ∉ ids ->
  fixed (foldl (fun model card_id => fix_c card_id true model) m ids) (c_ k)
    = fixed m (c_ k).
Proof.
  revert m. induction ids as [|k' ids IH]; intros m Hk; simpl; [done|].
  apply not_elem_of_cons in Hk as [Hne Hk]. rewrite IH by done. simpl.
  rewrite decide_False; [done|congruence].
Qed.

Lemma NoDup_uid_eq (l : list Variant.t) (v v' : Variant.t) :
  NoDup (map Variant.unique_id l) -> v ∈ l -> v' ∈ l ->
  Variant.unique_id v' = Variant.unique_id v -> v' = v.
Proof.
  induction l as [|x l IH]; simpl; intros Hnd Hv Hv' Heq;
    [by apply elem_of_nil in Hv|].
  apply NoDup_cons in Hnd as [Hx Hnd].
  apply elem_of_cons in Hv as [->|Hv]; apply elem_of_cons in Hv' as [->|Hv'].
  - done.
  - exfalso. apply Hx. rewrite <- Heq. apply elem_of_uids. eauto.
  - exfalso. apply Hx. rewrite Heq. apply elem_of_uids. eauto.
  - by apply IH.
Qed.

Section WriteLoopRows.
Variable solve : Model -> option (var -> bool).
Variables old_id_set to_restore : gset string.

(** Where a row of the store comes from after one iteration. *)
Lemma save_variant_rows (vcm vcm' : Model) (d d' : Data)
    (u : string) (def : VariantDefinition) (v' : Variant.t) :
  save_variant solve old_id_set to_restore (vcm, d) (u, def) = Ok (vcm', d') ->
  v' ∈ variants d' ->
  let ok := (is_variant_valid solve vcm (card_ids def)).1 in
  (v' ∈ variants d /\ (u ∈ old_id_set -> Variant.unique_id v' <> u))
  \/ (u ∈ old_id_set /\ exists v0,
        v0 ∈ variants d /\ Variant.unique_id v0 = u
        /\ v' = updated_row d v0 (combo_ids def) (feature_ids def) ok
                  (bool_decide (u ∈ to_restore)))
  \/ ((u ∉ old_id_set)
      /\ v' = created_row d u (card_ids def) (combo_ids def) (feature_ids def) ok).
Proof.
  intros Hs Hv'. apply save_variant_inv in Hs as [_ [[Hold Hup]|[Hold ->]]].
  - apply update_variant_inv in Hup as (v0 & Hget & ->).
    apply variants_get_elem in Hget as [Hin0 Hu0].
    apply elem_of_store_row in Hv' as [[-> _]|[Hin Hne]].
    + right. left. split; [done|]. by exists v0.
    + left. split; [done|]. intros _. simpl in Hne. congruence.
  - rewrite create_variant_row in Hv'. simpl in Hv'.
    apply elem_of_app in Hv' as [Hin| ->%list_elem_of_singleton].
    + left. split; [done|]. intros Hin'. done.
    + right. by right.
Qed.
End WriteLoopRows.

(** C2. A persisted variant whose status is NOT_WORKING keeps that status
    when the pass runs again and rediscovers its card set: the check model
    carries a constraint forbidding the variant's exact card set, the
    validity check fixes the candidate's card variables to 1 and every
    other card variable to 0 and answers whether the one solve was optimal,
    so a candidate holding these cards is never valid and [update_variant]
    writes NOT_WORKING.  No row of the store has the status OK after the pass
    unless it had it before. *)
Theorem not_working_stays_not_working
    (sha256_hexdigest : string -> string) (solve : Model -> option (var -> bool))
    (fuel : nat) (data : Data) (v : Variant.t) :
  (forall m a, solve m = Some a -> feasible m a = true) ->
  NoDup (map Variant.unique_id (variants data)) ->
  v ∈ variants data -> Variant.status v = Variant.NOT_WORKING ->
  (forall k, k ∈ Variant.includes v -> k ∈ map Card.id (cards data)) ->
  (* the validity check *)
  (forall m card_ids,
     exists m2,
       is_variant_valid solve m card_ids = opt_solve solve m2
       /\ constraints m2 = constraints m
       /\ forall k, k ∈ C m ->
            fixed m2 (c_ k) = Some (bool_decide (k ∈ card_ids)))
  (* the check model forbids the card set of the variant *)
  /\ (forall model vcm,
        base_model data = Some model ->
        exclude_variants_model model data = Ok vcm ->
        (exists c, exclusion (elements (Variant.includes v)) = Ok c
                   /\ c ∈ Variants vcm)
        /\ forall card_ids,
             (forall k, k ∈ Variant.includes v -> k ∈ card_ids) ->
             (is_variant_valid solve vcm card_ids).1 = false)
  (* the pass *)
  /\ (forall t data',
        generate_variants sha256_hexdigest solve fuel data = Ok (t, data') ->
        (forall vs def,
           discovered sha256_hexdigest solve fuel data = Ok vs ->
           (Variant.unique_id v, def) ∈ vs ->
           forall k, k ∈ Variant.includes v -> k ∈ card_ids def) ->
        (forall v', v' ∈ variants data' ->
           Variant.unique_id v' = Variant.unique_id v ->
           Variant.status v' = Variant.NOT_WORKING)
        /\ (forall v', v' ∈ variants data' -> Variant.status v' = Variant.OK ->
              exists v0, v0 ∈ variants data
                         /\ Variant.unique_id v0 = Variant.unique_id v'
                         /\ Variant.status v0 = Variant.OK)).
Proof.
  intros Hsound Hnd Hv Hst Hcards.
  assert (Hcheck : forall model vcm,
    base_model data = Some model ->
    exclude_variants_model model data = Ok vcm ->
    (exists c, exclusion (elements (Variant.includes v)) = Ok c /\ c ∈ Variants vcm)
    /\ forall vcm' card_ids,
         Variants vcm' = Variants vcm -> C vcm' = C vcm ->
         (forall k, k ∈ Variant.includes v -> k ∈ card_ids) ->
         (is_variant_valid solve vcm' card_ids).1 = false).
  { intros model vcm Hb Hvcm.
    apply exclude_variants_model_spec in Hvcm as [HC Hex].
    destruct (Hex v Hv Hst) as (c & Hc & Hin). split; [eauto|].
    intros vcm' card_ids HV' HC' Hsub.
    apply (is_variant_valid_excluded solve Hsound vcm' card_ids _ c Hc).
    - by rewrite HV'.
    - intros k Hk%elem_of_elements. split; [by apply Hsub|].
      rewrite HC', HC. apply base_model_C in Hb as [-> _]. by apply Hcards. }
  split; [|split].
  - intros m card_ids.
    exists (foldl (fun model card_id => fix_c card_id true model)
                  (fix_all_c false m) card_ids).
    split; [done|].
    destruct (fix_c_fold_shape card_ids (fix_all_c false m)) as (H1 & _).
    split; [done|]. intros k Hk. case_bool_decide as Hin.
    + apply fix_c_fold_fixed. by left.
    + rewrite fix_c_fold_unfixed by done. simpl. by rewrite decide_True.
  - intros model vcm Hb Hvcm. destruct (Hcheck model vcm Hb Hvcm) as [H1 H2].
    split; [done|]. intros card_ids Hsub. by apply H2.
  - intros t data' Hg Hdef.
    apply generate_variants_inv in Hg as (vs & written & Hvs & Hw & _ & ->).
    simpl.
    assert (Hinv :
      (forall v', v' ∈ variants written ->
         Variant.unique_id v' = Variant.unique_id v ->
         Variant.unique_id v ∈ dict_keys vs ->
         Variant.status v' = Variant.NOT_WORKING)
      /\ (forall v', v' ∈ variants written -> Variant.status v' = Variant.OK ->
            exists v0, v0 ∈ variants data
                       /\ Variant.unique_id v0 = Variant.unique_id v'
                       /\ Variant.status v0 = Variant.OK)).
    { destruct Hw as [(_ & _ & ->)|(model & vcm & vcm' & Hb & Hvcm & Hloop)].
      - split.
        + intros v' Hv' Heq _. by rewrite (NoDup_uid_eq _ v v' Hnd Hv Hv' Heq).
        + intros v' Hv' Hok. eauto.
      - destruct (Hcheck model vcm Hb Hvcm) as [_ Hvalid].
        pose (I := fun st : Model * Data =>
          Variants st.1 = Variants vcm /\ C st.1 = C vcm
          /\ (forall v', v' ∈ variants st.2 ->
                Variant.unique_id v' = Variant.unique_id v ->
                Variant.status v' = Variant.NOT_WORKING)
          /\ (forall v', v' ∈ variants st.2 -> Variant.status v' = Variant.OK ->
                exists v0, v0 ∈ variants data
                           /\ Variant.unique_id v0 = Variant.unique_id v'
                           /\ Variant.status v0 = Variant.OK)).
        assert (HI : I (vcm', written)).
        { apply (foldM_invariant I _ _ _ _) with (3 := Hloop).
          - unfold I. simpl. repeat split; try done.
            + intros v' Hv' Heq. by rewrite (NoDup_uid_eq _ v v' Hnd Hv Hv' Heq).
            + intros v' Hv' Hok. eauto.
          - intros [m d] [u def] [m' d'] Hitem (HV & HC & Hnw & Hok) Hstep.
            unfold I. simpl in *.
            pose proof (save_variant_inv _ _ _ _ _ _ _ _ _ Hstep) as [-> _].
            destruct (is_variant_valid_shape solve m (card_ids def)) as [HV1 HC1].
            split; [by rewrite HV1|]. split; [by rewrite HC1|]. split.
            + intros v' Hv' Heq.
              destruct (save_variant_rows _ _ _ _ _ _ _ _ _ _ Hstep Hv')
                as [[Hin _]|[(Hold & v0 & Hin0 & Hu0 & ->)|[Hold ->]]].
              * by apply Hnw.
              * simpl in Heq. rewrite Hvalid; try done.
                -- by destruct (bool_decide _).
                -- intros k Hk. apply (Hdef vs def Hvs); [|done].
                   by rewrite <- Heq, Hu0.
              * exfalso. apply Hold. simpl in Heq. subst u.
                unfold persisted_ids. apply elem_of_list_to_set, elem_of_uids. eauto.
            + intros v' Hv' Hst'.
              destruct (save_variant_rows _ _ _ _ _ _ _ _ _ _ Hstep Hv')
                as [[Hin _]|[(Hold & v0 & Hin0 & Hu0 & ->)|[Hold ->]]].
              * by apply Hok.
              * simpl in Hst'. simpl.
                destruct (bool_decide _); [by destruct (is_variant_valid _ _ _).1|].
                destruct (is_variant_valid _ _ _).1; [|done]. by apply Hok.
              * simpl in Hst'. by destruct (is_variant_valid _ _ _).1. }
        destruct HI as (_ & _ & H3 & H4). split; [|done].
        intros v' Hv' Heq _. by apply H3. }
    destruct Hinv as [Hnw Hok]. split.
    + intros v' [Hkeep Hv']%list_elem_of_filter Heq.
      apply Hnw; [done..|]. rewrite Heq in Hkeep.
      destruct (decide (Variant.unique_id v ∈ dict_keys vs)) as [|Hn]; [done|].
      exfalso. apply Hkeep. apply elem_of_difference. split; [|done].
      unfold persisted_ids. apply elem_of_list_to_set, elem_of_uids. eauto.
    + intros v' [_ Hv']%list_elem_of_filter Hst'. by apply Hok.
Qed.

(** ** The claims on concrete catalogs *)

Import Examples.

Lemma unique_id_order_independent_witness :
  unique_id_from_cards_ids plain_digest [3; 1; 2] =
    unique_id_from_cards_ids plain_digest [1; 2; 3]
  /\ unique_id_from_cards_ids plain_digest [3; 1; 2] =
       plain_digest (json_dumps (sorted [3; 1; 2])).
Proof.
  destruct (unique_id_order_independent plain_digest [3; 1; 2] [1; 2; 3])
    as (H1 & H2 & _).
  - apply (bool_decide_unpack _). vm_compute. exact I.
  - split; [exact H1|exact H2].
Defined.

Example unique_id_example :
  unique_id_from_cards_ids plain_digest [3; 1; 2] = "[1, 2, 3]".
Proof. reflexivity. Qed.


Lemma priority_dict_depths_witness :
  priority_dict_for_combo (catalog []) comboY 0 <> Diverge
  /\ forall m, priority_dict_for_combo (catalog []) comboY 0 = Ok m ->
       m !! 3 = Some 0 /\ m !! 1 = Some 2 /\ m !! 2 = Some 2.
Proof.
  destruct (priority_dict_depths (catalog []) comboY 0) as [H1 H2].
  - vm_compute. discriminate.
  - split; [exact H1|]. intros m Hm.
    destruct (H2 m Hm) as (_ & Hinc & ps & Hps & Hrest & _).
    split.
    + apply Hinc.
      * vm_compute. by left.
      * vm_compute. intros H. by apply elem_of_nil in H.
    + vm_compute in Hm. inversion Hm. by vm_compute.
Defined.

Lemma enumeration_terminates_witness :
  variants_from_combo plain_digest brute_solve 9 seeded
    (<[3 := 0]> (<[1 := 2]> (<[2 := 2]> ∅))) <> Diverge.
Proof.
  apply (enumeration_terminates plain_digest brute_solve 9 seeded
           (<[3 := 0]> (<[1 := 2]> (<[2 := 2]> ∅)))).
  - exact brute_solve_sound.
  - vm_compute. lia.
Defined.

Example enumeration_example :
  variants_from_combo plain_digest brute_solve 9 seeded
    (<[3 := 0]> (<[1 := 2]> (<[2 := 2]> ∅)))
  = Ok [("[1, 2, 3]",
         {| card_ids := [3; 1; 2]; combo_ids := {[100; 101]};
            feature_ids := {[10]} |})].
Proof. vm_compute. reflexivity. Qed.

Lemma recursion_limit_aborts_pass_witness :
  (forall base r,
     get_variants_from_model plain_digest brute_solve 5 base cyclic <> Ok r)
  /\ exists e', generate_variants plain_digest brute_solve 5 cyclic = Raise e'.
Proof.
  destruct (recursion_limit_aborts_pass plain_digest brute_solve 5 cyclic comboA
              (RecursionLimitReached 2))
    as (_ & _ & H3 & _ & H5).
  - vm_compute. right. by left.
  - reflexivity.
  - vm_compute. reflexivity.
  - split; [exact H3|]. apply H5.
    + exact brute_solve_sound.
    + discriminate.
    + vm_compute. lia.
Defined.

(** C3, as stated, fails: combo 100 is a sound seed of the cyclic catalog and
    the analyzer raises only for combos 1 and 2, yet the enumeration returns
    nothing for any seed and the whole pass ends with the exception. *)
Lemma recursion_limit_counterexample :
  (exists m, priority_dict_for_combo cyclic comboX 0 = Ok m)
  /\ priority_dict_for_combo cyclic comboA 0 = Raise (RecursionLimitReached 2)
  /\ (forall base, base_model cyclic = Some base ->
        get_variants_from_model plain_digest brute_solve 5 base cyclic
          = Raise (RecursionLimitReached 2))
  /\ generate_variants plain_digest brute_solve 5 cyclic
       = Raise (RecursionLimitReached 2)
  /\ ~ (exists r, generate_variants plain_digest brute_solve 5 cyclic = Ok r).
Proof.
  split; [eexists; vm_compute; reflexivity|].
  split; [vm_compute; reflexivity|].
  split; [intros base Hb; vm_compute in Hb; inversion Hb; vm_compute; reflexivity|].
  assert (H : generate_variants plain_digest brute_solve 5 cyclic
              = Raise (RecursionLimitReached 2)) by (vm_compute; reflexivity).
  split; [exact H|]. intros [r Hr]. rewrite H in Hr. discriminate.
Qed.

(** C4, as stated, fails: card 1 is directly required by combo 200 and also
    grants the feature the combo needs; it gets depth 1, not the current
    depth 0. *)
Lemma priority_overlap_counterexample :
  1 ∈ Combo.includes comboO
  /\ ~ (forall m, priority_dict_for_combo overlap comboO 0 = Ok m ->
          forall card, card ∈ Combo.includes comboO -> m !! card = Some 0).
Proof.
  split; [by left|]. intros H.
  specialize (H _ eq_refl 1 ltac:(by left)). vm_compute in H. discriminate.
Qed.



Lemma variant_endpoints_witness :
  (forall v, v ∈ variant_list (fun _ => true) (fun _ => 0)
                   (catalog [variant12 Variant.NEW; variant3]) ->
             Variant.status v = Variant.OK)
  /\ variant_detail (fun v => bool_decide (Variant.unique_id v = "[1, 2]"))
       (catalog [variant12 Variant.NEW; variant3]) = None
  /\ forall v, v ∈ VariantViewSet_queryset
                     (store_row (updated_row (catalog [variant12 Variant.RESTORE])
                                   (variant12 Variant.RESTORE) {[100]} {[10]} true true)
                                (catalog [variant12 Variant.RESTORE])) ->
               Variant.unique_id v <> "[1, 2]".
Proof.
  split; [|split].
  - intros v Hv.
    by apply (variant_endpoints_serve_only_OK
                (catalog [variant12 Variant.NEW; variant3])
                (fun _ => true) (fun _ => true) (fun _ => 0)) in Hv as [_ ?].
  - vm_compute. reflexivity.
  - destruct (variant_endpoints_serve_only_OK (catalog [variant12 Variant.RESTORE])
                (fun _ => true) (fun _ => true) (fun _ => 0)) as (_ & _ & _ & H).
    apply (H "[1, 2]" {[100]} {[10]} true). vm_compute. reflexivity.
Defined.

Lemma removing_update :
  exists data',
    update_variant (Scenarios.removing [variant12 Variant.OK]) "[1, 2]"
      {[300]} {[10; 11]} true false = Ok data'.
Proof. eexists. vm_compute. reflexivity. Qed.

Lemma produces_excludes_removed_witness :
  (exists v,
     variants (create_variant (Scenarios.removing []) "[1, 2]" [1; 2]
                 {[300]} {[10; 11]} true) = [v]
     /\ Variant.produces v = {[11]} /\ 10 ∉ Variant.produces v)
  /\ exists data',
       update_variant (Scenarios.removing [variant12 Variant.OK]) "[1, 2]"
         {[300]} {[10; 11]} true false = Ok data'
       /\ forall v, v ∈ variants data' -> Variant.unique_id v = "[1, 2]" ->
                    Variant.produces v = {[11]} /\ 10 ∉ Variant.produces v.
Proof.
  split.
  - destruct (produces_excludes_removed_features (Scenarios.removing []) "[1, 2]"
                [1; 2] {[300]} {[10; 11]} true false)
      as (_ & _ & v & Hv & _ & Hof & Hp & Hr).
    exists v. split; [exact Hv|]. split.
    + rewrite Hp. vm_compute. reflexivity.
    + apply (Hr Scenarios.comboR 10).
      * apply list_elem_of_here.
      * rewrite Hof. apply elem_of_singleton. reflexivity.
      * apply list_elem_of_here.
  - destruct removing_update as [data' Hup]. exists data'. split; [exact Hup|].
    intros v Hv Hu.
    destruct (produces_excludes_removed_features
                (Scenarios.removing [variant12 Variant.OK]) "[1, 2]"
                [1; 2] {[300]} {[10; 11]} true false)
      as (_ & H & _).
    destruct (H data' v Hup Hv Hu) as (Hof & Hp & Hr). split.
    + rewrite Hp. vm_compute. reflexivity.
    + apply (Hr Scenarios.comboR 10).
      * apply list_elem_of_here.
      * rewrite Hof. apply elem_of_singleton. reflexivity.
      * apply list_elem_of_here.
Defined.

(** Two runs of the pass on the example catalog. *)
Lemma run_restore :
  exists data',
    generate_variants plain_digest brute_solve 9
      (catalog [variant12 Variant.RESTORE; variant3]) = Ok ((1, 1, 1)%nat, data').
Proof. eexists. vm_compute. reflexivity. Qed.

Lemma discovered_restore :
  discovered plain_digest brute_solve 9 (catalog [variant12 Variant.RESTORE; variant3])
  = Ok [("[1, 2]",
         {| card_ids := [1; 2]; combo_ids := {[100]}; feature_ids := {[10]} |});
        ("[1, 2, 3]",
         {| card_ids := [3; 1; 2]; combo_ids := {[100; 101]};
            feature_ids := {[10]} |})].
Proof. vm_compute. reflexivity. Qed.

Lemma reconciliation_counts_witness :
  exists data',
    run (catalog [variant12 Variant.RESTORE; variant3]) = Ok ((1, 1, 1)%nat, data')
    /\ persisted_ids data' = {["[1, 2]"; "[1, 2, 3]"]}.
Proof.
  destruct run_restore as [data' Hrun]. exists data'. split; [exact Hrun|].
  destruct (reconciliation_counts plain_digest brute_solve 9
              (catalog [variant12 Variant.RESTORE; variant3])) as (H1 & _ & _).
  destruct (H1 _ _ _ _ Hrun) as (vs & Hvs & _ & _ & _ & _ & Hids & _).
  rewrite Hids. rewrite discovered_restore in Hvs. injection Hvs as <-.
  vm_compute. reflexivity.
Defined.

Lemma run_not_working :
  exists data',
    generate_variants plain_digest brute_solve 9
      (catalog [variant12 Variant.NOT_WORKING; variant3]) = Ok ((1, 0, 1)%nat, data').
Proof. eexists. vm_compute. reflexivity. Qed.

Lemma store_not_working_NoDup :
  NoDup (map Variant.unique_id
           (variants (catalog [variant12 Variant.NOT_WORKING; variant3]))).
Proof. apply (bool_decide_unpack _). vm_compute. exact I. Qed.

Lemma variant12_cards (k : Z) :
  k ∈ Variant.includes (variant12 Variant.NOT_WORKING) -> k = 1 \/ k = 2.
Proof.
  intros Hk. apply elem_of_union in Hk as [Hk|Hk];
    apply elem_of_singleton in Hk; tauto.
Qed.

Lemma rediscovered_not_working (vs : list (string * VariantDefinition))
    (def : VariantDefinition) :
  discovered plain_digest brute_solve 9
    (catalog [variant12 Variant.NOT_WORKING; variant3]) = Ok vs ->
  (Variant.unique_id (variant12 Variant.NOT_WORKING), def) ∈ vs ->
  forall k, k ∈ Variant.includes (variant12 Variant.NOT_WORKING) -> k ∈ card_ids def.
Proof.
  intros Hvs Hin k Hk. vm_compute in Hvs. injection Hvs as <-.
  apply elem_of_cons in Hin as [Hin|Hin].
  - injection Hin as ->. destruct (variant12_cards k Hk) as [->| ->].
    + by left.
    + right. by left.
  - apply elem_of_cons in Hin as [Hin|Hin]; [discriminate Hin|].
    by apply elem_of_nil in Hin.
Qed.

Lemma not_working_witness :
  exists data',
    run (catalog [variant12 Variant.NOT_WORKING; variant3]) = Ok ((1, 0, 1)%nat, data')
    /\ forall v', v' ∈ variants data' -> Variant.unique_id v' = "[1, 2]" ->
                  Variant.status v' = Variant.NOT_WORKING.
Proof.
  destruct run_not_working as [data' Hrun]. exists data'. split; [exact Hrun|].
  destruct (not_working_stays_not_working plain_digest brute_solve 9
              (catalog [variant12 Variant.NOT_WORKING; variant3])
              (variant12 Variant.NOT_WORKING)) as (_ & _ & Hpass).
  - exact brute_solve_sound.
  - exact store_not_working_NoDup.
  - by left.
  - reflexivity.
  - intros k Hk. destruct (variant12_cards k Hk) as [->| ->].
    + by left.
    + right. by left.
  - destruct (Hpass _ _ Hrun rediscovered_not_working) as [Hnw _]. exact Hnw.
Defined.

(** * Further properties *)

(** ** The sanity check and cycles of the rule graph *)

Lemma forallb_flat_map {A B} (f : B -> bool) (g : A -> list B) (l : list A) :
  forallb (fun x => forallb f (g x)) l = forallb f (flat_map g l).
Proof.
  induction l as [|x l IH]; simpl; [done|]. by rewrite forallb_app, IH.
Qed.

Lemma forallb_ext_in {A} (f g : A -> bool) (l : list A) :
  (forall x, x ∈ l -> f x = g x) -> forallb f l = forallb g l.
Proof.
  induction l as [|x l IH]; intros H; simpl; [done|].
  rewrite H by left. rewrite IH; [done|]. intros. apply H. by right.
Qed.

Lemma check_combo_sanity_fuel_irrelevant (data : Data) (f1 f2 : nat)
    (combo : Combo.t) (k : Z) :
  RECURSION_LIMIT + 1 - k <= Z.of_nat f1 ->
  RECURSION_LIMIT + 1 - k <= Z.of_nat f2 ->
  check_combo_sanity_fuel f1 data combo k = check_combo_sanity_fuel f2 data combo k.
Proof.
  revert f2 combo k. unfold RECURSION_LIMIT.
  induction f1 as [|f1 IH]; intros f2 combo k H1 H2.
  - destruct f2; simpl; unfold RECURSION_LIMIT;
      destruct (Z.ltb_spec 20 k); try done; lia.
  - destruct f2 as [|f2]; simpl; unfold RECURSION_LIMIT;
      destruct (Z.ltb_spec 20 k); try done; try lia.
    apply forallb_ext_in. intros feature _.
    apply forallb_ext_in. intros c' _. apply IH; lia.
Qed.

(** The sanity check as one equation. *)
Lemma check_combo_sanity_eq (data : Data) (combo : Combo.t) (k : Z) :
  check_combo_sanity data combo k =
    if RECURSION_LIMIT <? k then false
    else forallb (fun c => check_combo_sanity data c (k + 1)) (producers data combo).
Proof.
  unfold check_combo_sanity at 1.
  destruct (Z.ltb_spec RECURSION_LIMIT k) as [Hk|Hk].
  - destruct (Z.to_nat _); simpl;
      by destruct (Z.ltb_spec RECURSION_LIMIT k); try lia.
  - destruct (Z.to_nat (RECURSION_LIMIT + 1 - k)) as [|n] eqn:Hn;
      [unfold RECURSION_LIMIT in *; lia|].
    simpl. destruct (Z.ltb_spec RECURSION_LIMIT k); [lia|].
    unfold producers. rewrite <- forallb_flat_map.
    apply forallb_ext_in. intros feature _.
    apply forallb_ext_in. intros c' _. unfold check_combo_sanity.
    apply check_combo_sanity_fuel_irrelevant; unfold RECURSION_LIMIT in *; lia.
Qed.

Lemma check_combo_sanity_step (data : Data) (c c' : Combo.t) (k : Z) :
  check_combo_sanity data c k = true -> c' ∈ producers data c ->
  check_combo_sanity data c' (k + 1) = true.
Proof.
  rewrite check_combo_sanity_eq. destruct (RECURSION_LIMIT <? k); [done|].
  rewrite forallb_forall. intros H Hc. by apply H, list_elem_of_In.
Qed.

Lemma check_combo_sanity_chain (data : Data) (n : nat) (c c' : Combo.t) (k : Z) :
  chain data n c c' -> check_combo_sanity data c k = true ->
  check_combo_sanity data c' (k + Z.of_nat n) = true.
Proof.
  intros Hch. revert k. induction Hch as [c|n c c' c'' Hstep _ IH]; intros k Hk.
  - by rewrite Z.add_0_r.
  - replace (k + Z.of_nat (S n)) with (k + 1 + Z.of_nat n) by lia.
    apply IH. by eapply check_combo_sanity_step.
Qed.

Lemma priority_dict_step (data : Data) (c c' : Combo.t) (k : Z) (m : gmap Z Z) :
  priority_dict_for_combo data c k = Ok m -> c' ∈ producers data c ->
  exists m', priority_dict_for_combo data c' (k + 2) = Ok m'.
Proof.
  intros Hm Hc. destruct (Z.ltb_spec RECURSION_LIMIT k) as [Hk|Hk].
  { by rewrite priority_dict_above_limit in Hm. }
  rewrite priority_dict_for_combo_eq in Hm by done.
  apply bind_Ok_inv in Hm as (ps & Hps & _).
  apply mapM_res_Ok_Forall2 in Hps.
  apply list_elem_of_lookup in Hc as [i Hi].
  destruct (Forall2_lookup_l _ _ _ _ _ Hps Hi) as (p & _ & Hp). eauto.
Qed.

Lemma priority_dict_chain (data : Data) (n : nat) (c c' : Combo.t) (k : Z) (m : gmap Z Z) :
  chain data n c c' -> priority_dict_for_combo data c k = Ok m ->
  exists m', priority_dict_for_combo data c' (k + 2 * Z.of_nat n) = Ok m'.
Proof.
  intros Hch. revert k m. induction Hch as [c|n c c' c'' Hstep _ IH]; intros k m Hk.
  - rewrite Z.add_0_r. eauto.
  - destruct (priority_dict_step _ _ _ _ _ Hk Hstep) as [m1 Hm1].
    replace (k + 2 * Z.of_nat (S n)) with (k + 2 + 2 * Z.of_nat n) by lia.
    by eapply IH.
Qed.

Lemma chain_app (data : Data) (n1 n2 : nat) (c1 c2 c3 : Combo.t) :
  chain data n1 c1 c2 -> chain data n2 c2 c3 -> chain data (n1 + n2) c1 c3.
Proof.
  induction 1 as [c|n c c' c'' Hstep _ IH]; intros H2; simpl; [done|].
  econstructor; [done|]. by apply IH.
Qed.

Lemma chain_cycle_repeat (data : Data) (n : nat) (c : Combo.t) (k : nat) :
  chain data n c c -> chain data (k * n) c c.
Proof.
  intros Hc. induction k as [|k IH]; simpl; [constructor|].
  by apply (chain_app data n (k * n) c c c).
Qed.

Lemma mapM_res_Raise {A B} (f : A -> res B) (l : list A) (e : exn) :
  mapM f l = Raise e -> exists x, x ∈ l /\ f x = Raise e.
Proof.
  induction l as [|x l IH]; [done|]. rewrite mapM_res_cons.
  destruct (f x) as [y|e'|] eqn:Hx; simpl; try done.
  - destruct (mapM f l) as [ys|e'|] eqn:Hl; simpl; try done.
    intros H. inversion H; subst. destruct (IH eq_refl) as (x' & Hin & Hx').
    exists x'. split; [by right|done].
  - intros H. inversion H; subst. exists x. split; [by left|done].
Qed.

(** The analyzer raises nothing but the recursion-limit exception. *)
Lemma priority_dict_Raise (data : Data) (combo : Combo.t) (k : Z) (e : exn) :
  priority_dict_for_combo data combo k = Raise e ->
  exists i, e = RecursionLimitReached i.
Proof.
  destruct (Z.ltb_spec RECURSION_LIMIT k) as [Hk|Hk].
  { rewrite priority_dict_above_limit by done. intros H. inversion H. eauto. }
  remember (Z.to_nat (RECURSION_LIMIT - k)) as n eqn:Hn.
  revert combo k Hk Hn. induction (lt_wf n) as [n _ IH]. intros combo k Hk ->.
  rewrite priority_dict_for_combo_eq by done.
  destruct (mapM _ _) as [ps|e'|] eqn:Hps; simpl; try done.
  intros H. inversion H; subst. clear H.
  apply mapM_res_Raise in Hps as (c & _ & Hc).
  destruct (Z.ltb_spec RECURSION_LIMIT (k + 2)) as [Hk2|Hk2].
  { rewrite priority_dict_above_limit in Hc by done. inversion Hc. eauto. }
  eapply (IH (Z.to_nat (RECURSION_LIMIT - (k + 2)))); [|exact Hk2|reflexivity|exact Hc].
  unfold RECURSION_LIMIT in *. lia.
Qed.

(** X1. A combo that lies on a cycle of the rule graph (it is reached again
    after one or more production steps) never passes the sanity check, and
    the analyzer raises the recursion-limit exception for it, from any
    starting counter. *)
Theorem cycle_is_rejected (data : Data) (n : nat) (c : Combo.t) (k : Z) :
  chain data (S n) c c ->
  check_combo_sanity data c k = false
  /\ exists i, priority_dict_for_combo data c k = Raise (RecursionLimitReached i).
Proof.
  intros Hcyc.
  pose (r := Z.to_nat (RECURSION_LIMIT + 1 - k)).
  pose proof (chain_cycle_repeat data (S n) c r Hcyc) as Hrep.
  assert (Hbig : RECURSION_LIMIT < k + Z.of_nat (r * S n)).
  { unfold r, RECURSION_LIMIT. nia. }
  split.
  - destruct (check_combo_sanity data c k) eqn:Hs; [|done].
    pose proof (check_combo_sanity_chain _ _ _ _ _ Hrep Hs) as Hs'.
    rewrite check_combo_sanity_eq in Hs'.
    by destruct (Z.ltb_spec RECURSION_LIMIT (k + Z.of_nat (r * S n))); [|lia].
  - destruct (priority_dict_for_combo data c k) as [m|e|] eqn:Hp.
    + destruct (priority_dict_chain _ _ _ _ _ _ Hrep Hp) as [m' Hm'].
      rewrite priority_dict_above_limit in Hm'; [done|]. lia.
    + destruct (priority_dict_Raise _ _ _ _ Hp) as [i ->]. eauto.
    + by apply priority_dict_total in Hp.
Qed.

(** X2. The sanity check is implied by the analyzer: when the analyzer
    returns a depth map from counter [k], the sanity check holds from every
    counter [j] with [2 j <= k + RECURSION_LIMIT]; in particular both from
    0. *)
Theorem priority_dict_implies_sanity (data : Data) (c : Combo.t) (k j : Z)
    (m : gmap Z Z) :
  priority_dict_for_combo data c k = Ok m ->
  2 * j <= k + RECURSION_LIMIT ->
  check_combo_sanity data c j = true.
Proof.
  remember (Z.to_nat (RECURSION_LIMIT - k)) as n eqn:Hn.
  revert c k j m Hn. induction (lt_wf n) as [n _ IH]. intros c k j m -> Hm Hj.
  destruct (Z.ltb_spec RECURSION_LIMIT k) as [Hk|Hk].
  { by rewrite priority_dict_above_limit in Hm. }
  rewrite check_combo_sanity_eq.
  destruct (Z.ltb_spec RECURSION_LIMIT j) as [Hj'|Hj'].
  { unfold RECURSION_LIMIT in *. lia. }
  apply forallb_forall. intros c' Hc'%list_elem_of_In.
  destruct (priority_dict_step _ _ _ _ _ Hm Hc') as [m' Hm'].
  assert (Hk2 : k + 2 <= RECURSION_LIMIT).
  { destruct (Z.ltb_spec RECURSION_LIMIT (k + 2)); [|done].
    by rewrite priority_dict_above_limit in Hm'. }
  eapply (IH (Z.to_nat (RECURSION_LIMIT - (k + 2)))); [|reflexivity|exact Hm'|].
  - unfold RECURSION_LIMIT in *. lia.
  - unfold RECURSION_LIMIT in *. lia.
Qed.

(** ** The migration *)

Lemma find_map_id (l : list Combo.t) (i : Z) :
  find (fun c => Combo.id c =? i) (map forward_combo l)
  = forward_combo <$> find (fun c => Combo.id c =? i) l.
Proof.
  induction l as [|c l IH]; simpl; [done|].
  destruct (Combo.id c =? i); [done|]. apply IH.
Qed.

Lemma produced_by_combos_all_forward (data : Data) (feature : Feature.t) :
  produced_by_combos_all (forward_func data) feature
  = map forward_combo (produced_by_combos_all data feature).
Proof.
  unfold produced_by_combos_all, get_combo.
  change (combos (forward_func data)) with (map forward_combo (combos data)).
  induction (Feature.produced_by_combos feature) as [|i l IH]; [done|].
  cbn [omap list_omap]. rewrite find_map_id.
  destruct (find _ (combos data)); simpl; [f_equal|]; apply IH.
Qed.

Lemma foldM_map {A B S} (f : S -> B -> res S) (g : A -> B) (s : S) (l : list A) :
  foldM f s (map g l) = foldM (fun s x => f s (g x)) s l.
Proof.
  revert s. induction l as [|x l IH]; intros s; simpl; [done|].
  destruct (f s (g x)); simpl; auto.
Qed.

Lemma forallb_map_comp {A B} (f : B -> bool) (g : A -> B) (l : list A) :
  forallb f (map g l) = forallb (fun x => f (g x)) l.
Proof. induction l as [|x l IH]; simpl; [done|]. by rewrite IH. Qed.

Lemma priority_dict_fuel_forward (fuel : nat) (data : Data) (c c' : Combo.t) (k : Z) :
  Combo.id c' = Combo.id c -> Combo.includes c' = Combo.includes c ->
  Combo.needs c' = Combo.needs c ->
  priority_dict_fuel fuel (forward_func data) c' k = priority_dict_fuel fuel data c k.
Proof.
  revert c c' k. induction fuel as [|fuel IH]; intros c c' k Hid Hinc Hneeds; simpl.
  - by rewrite Hid.
  - rewrite Hid, Hinc. destruct (RECURSION_LIMIT <? k); [done|].
    unfold needs_all at 1. rewrite Hneeds. fold (needs_all data c).
    apply foldM_ext. intros r feature _. simpl.
    rewrite produced_by_combos_all_forward, foldM_map.
    apply foldM_ext. intros r' c0 _. by rewrite (IH c0 (forward_combo c0)).
Qed.

Lemma check_combo_sanity_fuel_forward (fuel : nat) (data : Data) (c c' : Combo.t) (k : Z) :
  Combo.needs c' = Combo.needs c ->
  check_combo_sanity_fuel fuel (forward_func data) c' k
  = check_combo_sanity_fuel fuel data c k.
Proof.
  revert c c' k. induction fuel as [|fuel IH]; intros c c' k Hneeds; simpl; [done|].
  destruct (RECURSION_LIMIT <? k); [done|].
  unfold needs_all at 1. rewrite Hneeds. fold (needs_all data c).
  apply forallb_ext_in. intros feature _.
  rewrite produced_by_combos_all_forward, forallb_map_comp.
  apply forallb_ext_in. intros c0 _. by apply IH.
Qed.

(** X3. After the migration a combo is flagged as generator exactly when it
    has more than one requirement (included cards plus needed features), so
    the seeds of the enumeration are the combos with more than one
    requirement; the migration is idempotent and changes nothing but the
    flag. *)
Theorem forward_func_generator (data : Data) :
  (forall c, c ∈ combos (forward_func data) ->
     (Combo.generator c = true <->
      (1 < length (Combo.includes c) + length (Combo.needs c))%nat))
  /\ filter (fun c => Combo.generator c = true) (combos (forward_func data))
     = map (set_generator true)
         (filter (fun c => (1 < length (Combo.includes c)
                                + length (Combo.needs c))%nat) (combos data))
  /\ forward_func (forward_func data) = forward_func data
  /\ Forall2 (fun c' c =>
        Combo.id c' = Combo.id c /\ Combo.includes c' = Combo.includes c
        /\ Combo.needs c' = Combo.needs c /\ Combo.removes c' = Combo.removes c
        /\ Combo.prerequisites c' = Combo.prerequisites c
        /\ Combo.description c' = Combo.description c)
       (combos (forward_func data)) (combos data).
Proof.
  assert (Hgen : forall c, Combo.generator (forward_combo c) = true <->
            (1 < length (Combo.includes c) + length (Combo.needs c))%nat).
  { intros c. simpl. rewrite Z.ltb_lt. lia. }
  split; [|split; [|split]].
  - intros c Hc. simpl in Hc. rewrite map_is_fmap in Hc.
    apply list_elem_of_fmap in Hc as (c0 & -> & _). exact (Hgen c0).
  - simpl. induction (combos data) as [|c l IH]; simpl; [done|].
    rewrite !filter_cons, IH.
    destruct (decide (Combo.generator (forward_combo c) = true)) as [Hg|Hg].
    + rewrite decide_True by (by apply Hgen). simpl. f_equal.
      unfold forward_combo, set_generator in *. simpl in *. by rewrite Hg.
    + rewrite decide_False; [done|]. intros H. by apply Hg, Hgen.
  - unfold forward_func. simpl. f_equal. rewrite map_map.
    apply map_ext. intros c. reflexivity.
  - simpl. induction (combos data) as [|c l IH]; simpl; constructor; done.
Qed.

(** X4. The migration does not change what the engine computes from a
    combo: the optimisation model, the depth map of the analyzer and the
    sanity check are the same before and after. *)
Theorem forward_func_preserves_analysis (data : Data) :
  base_model (forward_func data) = base_model data
  /\ (forall c k,
        priority_dict_for_combo (forward_func data) (forward_combo c) k
        = priority_dict_for_combo data c k)
  /\ (forall c k,
        check_combo_sanity (forward_func data) (forward_combo c) k
        = check_combo_sanity data c k).
Proof.
  split; [|split].
  - unfold base_model. simpl. rewrite !map_map. simpl.
    case_decide; [done|]. f_equal.
    assert (Hfm : forall (g h : Combo.t -> list constr),
      (forall c, g (forward_combo c) = h c) ->
      flat_map g (map forward_combo (combos data)) = flat_map h (combos data)).
    { intros g h Hgh. induction (combos data) as [|c l IH]; simpl; [done|].
      by rewrite Hgh, IH. }
    f_equal.
    + by apply Hfm.
    + by apply Hfm.
  - intros c k. unfold priority_dict_for_combo.
    by apply priority_dict_fuel_forward.
  - intros c k. unfold check_combo_sanity.
    by apply check_combo_sanity_fuel_forward.
Qed.

(** ** The meaning of the optimisation model *)

Lemma eval_var (a : var -> bool) (v : var) :
  eval a (var_ v) = if a v then 1 else 0.
Proof. unfold eval. simpl. destruct (a v); lia. Qed.

Lemma eval_num (a : var -> bool) (k : Z) : eval a (num k) = k.
Proof. unfold eval. simpl. lia. Qed.

Lemma eval_plus (a : var -> bool) (e : lexpr) (k : Z) :
  eval a (plus e k) = eval a e + k.
Proof. unfold eval. simpl. lia. Qed.

Lemma eval_sum_cons (a : var -> bool) (v : var) (l : list var) :
  eval a (sum_ (v :: l)) = (if a v then 1 else 0) + eval a (sum_ l).
Proof. unfold eval. simpl. lia. Qed.

Lemma eval_sum_app (a : var -> bool) (l1 l2 : list var) :
  eval a (sum_ (l1 ++ l2)) = eval a (sum_ l1) + eval a (sum_ l2).
Proof.
  induction l1 as [|v l1 IH]; [unfold eval; simpl; lia|].
  rewrite <- app_comm_cons, !eval_sum_cons, IH. lia.
Qed.

Lemma eval_sum_bounds (a : var -> bool) (l : list var) :
  0 <= eval a (sum_ l) <= Z.of_nat (length l).
Proof.
  induction l as [|v l IH]; [unfold eval; simpl; lia|].
  rewrite eval_sum_cons. simpl length. destruct (a v); lia.
Qed.

Lemma eval_sum_full (a : var -> bool) (l : list var) :
  eval a (sum_ l) = Z.of_nat (length l) <-> forallb a l = true.
Proof.
  induction l as [|v l IH]; [unfold eval; simpl; lia|].
  rewrite eval_sum_cons. simpl length. simpl forallb.
  pose proof (eval_sum_bounds a l). destruct (a v); simpl.
  - rewrite <- IH. lia.
  - split; [lia|done].
Qed.

Lemma eval_sum_positive (a : var -> bool) (l : list var) :
  1 <= eval a (sum_ l) <-> existsb a l = true.
Proof.
  induction l as [|v l IH]; [unfold eval; simpl; split; [lia|done]|].
  rewrite eval_sum_cons. simpl existsb.
  pose proof (eval_sum_bounds a l). destruct (a v); simpl.
  - split; [done|lia].
  - rewrite <- IH. lia.
Qed.

Lemma forallb_holds_flat_map {A} (a : var -> bool) (g : A -> list constr) (l : list A) :
  forallb (holds a) (flat_map g l) = true <->
  forall x, x ∈ l -> forallb (holds a) (g x) = true.
Proof.
  induction l as [|x l IH]; simpl.
  - split; [intros _ y Hy; by apply elem_of_nil in Hy|done].
  - rewrite forallb_app, andb_true_iff, IH. split.
    + intros [H1 H2] y [->|Hy]%elem_of_cons; auto.
    + intros H. split; [apply H; by left|]. intros y Hy. apply H. by right.
Qed.

Lemma forallb_holds_map {A} (a : var -> bool) (g : A -> constr) (l : list A) :
  forallb (holds a) (map g l) = true <-> forall x, x ∈ l -> holds a (g x) = true.
Proof.
  induction l as [|x l IH]; simpl.
  - split; [intros _ y Hy; by apply elem_of_nil in Hy|done].
  - rewrite andb_true_iff, IH. split.
    + intros [H1 H2] y [->|Hy]%elem_of_cons; auto.
    + intros H. split; [apply H; by left|]. intros y Hy. apply H. by right.
Qed.

Lemma forallb_map_var (a : var -> bool) (w : Z -> var) (l : list Z) :
  forallb a (map w l) = forallb (fun k => a (w k)) l.
Proof. induction l as [|x l IH]; simpl; [done|]. by rewrite IH. Qed.

Lemma existsb_map_var (a : var -> bool) (w : Z -> var) (l : list Z) :
  existsb a (map w l) = existsb (fun k => a (w k)) l.
Proof. induction l as [|x l IH]; simpl; [done|]. by rewrite IH. Qed.

(** The three families of constraints of a combo say that its variable is
    the conjunction of its requirements. *)
Lemma combo_constraints_and (a : var -> bool) (b : var) (cs fs : list var) :
  (forallb (fun c => holds a (Le (var_ b) (var_ c))) cs = true
   /\ forallb (fun f => holds a (Le (var_ b) (var_ f))) fs = true
   /\ holds a (Ge (var_ b)
                 (plus (sum_ (cs ++ fs))
                       (- Z.of_nat (length cs) - Z.of_nat (length fs) + 1))) = true)
  <-> a b = forallb a cs && forallb a fs.
Proof.
  assert (Himp : forall l,
    forallb (fun c => holds a (Le (var_ b) (var_ c))) l = true <->
    (a b = true -> forallb a l = true)).
  { intros l. rewrite !forallb_forall. split.
    - intros H Hb x Hx. specialize (H x Hx). simpl in H.
      rewrite !eval_var, Hb in H. apply Z.leb_le in H. destruct (a x); [done|lia].
    - intros H x Hx. simpl. rewrite !eval_var. apply Z.leb_le.
      destruct (a b); [|destruct (a x); lia].
      rewrite (H eq_refl x Hx). lia. }
  rewrite !Himp. simpl holds. rewrite eval_plus, eval_sum_app, eval_var, Z.leb_le.
  pose proof (eval_sum_bounds a cs). pose proof (eval_sum_bounds a fs).
  pose proof (eval_sum_full a cs) as Hc. pose proof (eval_sum_full a fs) as Hf.
  destruct (a b); simpl.
  - split.
    + intros (H1 & H2 & _). by rewrite H1, H2.
    + intros Hand. symmetry in Hand. apply andb_true_iff in Hand as [H1 H2].
      split; [done|]. split; [done|]. lia.
  - split.
    + intros (_ & _ & H3). destruct (forallb a cs); [|done].
      destruct (forallb a fs); [|done]. simpl.
      destruct Hc as [_ Hc]. destruct Hf as [_ Hf].
      specialize (Hc eq_refl). specialize (Hf eq_refl). lia.
    + intros Hand. split; [done|]. split; [done|].
      symmetry in Hand. apply andb_false_iff in Hand as [H1|H1].
      * assert (eval a (sum_ cs) <> Z.of_nat (length cs)); [|lia].
        intros Heq. apply Hc in Heq. congruence.
      * assert (eval a (sum_ fs) <> Z.of_nat (length fs)); [|lia].
        intros Heq. apply Hf in Heq. congruence.
Qed.

(** The three families of constraints of a feature say that its variable is
    the disjunction of its contributors. *)
Lemma feature_constraints_or (a : var -> bool) (f : var) (cs bs : list var) :
  (forallb (fun c => holds a (Ge (var_ f) (var_ c))) cs = true
   /\ forallb (fun b => holds a (Ge (var_ f) (var_ b))) bs = true
   /\ holds a (Le (var_ f) (sum_ (cs ++ bs))) = true)
  <-> a f = existsb a cs || existsb a bs.
Proof.
  assert (Himp : forall l,
    forallb (fun c => holds a (Ge (var_ f) (var_ c))) l = true <->
    (existsb a l = true -> a f = true)).
  { intros l. rewrite forallb_forall, existsb_exists. split.
    - intros H (x & Hx & Hax). specialize (H x Hx). simpl in H.
      rewrite !eval_var, Hax in H. apply Z.leb_le in H. destruct (a f); [done|lia].
    - intros H x Hx. simpl. rewrite !eval_var. apply Z.leb_le.
      destruct (a x) eqn:Hax; [|destruct (a f); lia].
      rewrite H by eauto. lia. }
  rewrite !Himp. simpl holds. rewrite eval_sum_app, eval_var, Z.leb_le.
  pose proof (eval_sum_bounds a cs). pose proof (eval_sum_bounds a bs).
  pose proof (eval_sum_positive a cs) as Hc. pose proof (eval_sum_positive a bs) as Hb.
  destruct (a f); simpl.
  - split.
    + intros (_ & _ & H3). destruct (existsb a cs); [done|].
      destruct (existsb a bs); [done|]. exfalso.
      assert (~ 1 <= eval a (sum_ cs)) by (rewrite Hc; congruence).
      assert (~ 1 <= eval a (sum_ bs)) by (rewrite Hb; congruence). lia.
    + intros Hor. split; [done|]. split; [done|].
      symmetry in Hor. apply orb_true_iff in Hor as [H1|H1].
      * apply Hc in H1. lia.
      * apply Hb in H1. lia.
  - split.
    + intros (H1 & H2 & _). destruct (existsb a cs); [by specialize (H1 eq_refl)|].
      destruct (existsb a bs); [by specialize (H2 eq_refl)|]. done.
    + intros Hor. symmetry in Hor. apply orb_false_iff in Hor as [-> ->].
      split; [done|]. split; [done|]. lia.
Qed.

Lemma base_constraints_consistent (data : Data) (model : Model) (a : var -> bool) :
  base_model data = Some model ->
  forallb (holds a) (base_constraints model) = true <-> consistent data a.
Proof.
  unfold base_model. case_decide as Hlen; [done|]. intros Hm.
  inversion Hm as [Hm']. clear Hm Hm'. unfold base_constraints, consistent. simpl.
  rewrite !forallb_app, !andb_true_iff.
  rewrite !forallb_holds_flat_map, !forallb_holds_map.
  rewrite eval_sum_filter, eval_num, Z.leb_le.
  assert (Hcombo : forall combo : Combo.t,
    (forallb (holds a)
       (map (fun card => Le (var_ (b_ (Combo.id combo))) (var_ (c_ card)))
            (Combo.includes combo)) = true
     /\ forallb (holds a)
       (map (fun feature => Le (var_ (b_ (Combo.id combo))) (var_ (f_ feature)))
            (Combo.needs combo)) = true
     /\ holds a
       (Ge (var_ (b_ (Combo.id combo)))
          (plus (sum_ (map c_ (Combo.includes combo) ++ map f_ (Combo.needs combo)))
             (- Z.of_nat (length (map c_ (Combo.includes combo)))
              - Z.of_nat (length (map f_ (Combo.needs combo))) + 1))) = true)
    <-> a (b_ (Combo.id combo)) = combo_realized a combo).
  { intros combo. unfold combo_realized.
    rewrite <- (forallb_map_var a c_), <- (forallb_map_var a f_).
    rewrite <- combo_constraints_and.
    by rewrite !forallb_map_comp. }
  assert (Hfeature : forall feature : Feature.t,
    (forallb (holds a)
       (map (fun card => Ge (var_ (f_ (Feature.id feature))) (var_ (c_ card)))
            (Feature.cards feature)) = true
     /\ forallb (holds a)
       (map (fun combo => Ge (var_ (f_ (Feature.id feature))) (var_ (b_ combo)))
            (Feature.produced_by_combos feature)) = true
     /\ holds a
       (Le (var_ (f_ (Feature.id feature)))
          (sum_ (map c_ (Feature.cards feature)
                 ++ map b_ (Feature.produced_by_combos feature)))) = true)
    <-> a (f_ (Feature.id feature)) = feature_yielded a feature).
  { intros feature. unfold feature_yielded.
    rewrite <- (existsb_map_var a c_), <- (existsb_map_var a b_).
    rewrite <- feature_constraints_or.
    by rewrite !forallb_map_comp. }
  split.
  - intros (HV & HBC & HBF & HBCF & HFC & HFB & HFCB). split; [done|]. split.
    + intros combo Hc. apply Hcombo. auto.
    + intros feature Hf. apply Hfeature. auto.
  - intros (HV & Hcs & Hfs). split; [done|].
    repeat split; intros x Hx.
    + by apply (Hcombo x), Hcs.
    + by apply (Hcombo x), Hcs.
    + by apply (Hcombo x), Hcs.
    + by apply (Hfeature x), Hfs.
    + by apply (Hfeature x), Hfs.
    + by apply (Hfeature x), Hfs.
Qed.

(** X5. An assignment is a solution of the base model exactly when at most
    [MAX_CARDS_IN_COMBO] cards are active, every combo variable is the
    conjunction of the combo's included cards and needed features, and every
    feature variable is the disjunction of its granting cards and producing
    combos. *)
Theorem base_model_semantics (data : Data) (model : Model) (a : var -> bool) :
  base_model data = Some model ->
  feasible model a = true <-> consistent data a.
Proof.
  intros Hb. rewrite <- (base_constraints_consistent data model a Hb).
  unfold feasible, respects_fixed, constraints, base_constraints.
  unfold base_model in Hb. case_decide as Hlen; [done|]. inversion Hb. simpl.
  rewrite !app_nil_r. rewrite andb_true_iff. split; [tauto|].
  intros Hc. split; [done|]. apply forallb_forall. done.
Qed.

Lemma feasible_split (m : Model) (a : var -> bool) :
  feasible m a = true <->
  forallb (holds a) (base_constraints m) = true
  /\ forallb (holds a) (XB m) = true
  /\ forallb (holds a) (Sequential m) = true
  /\ forallb (holds a) (Variants m) = true
  /\ respects_fixed m a = true.
Proof.
  unfold feasible, constraints, base_constraints. simpl.
  rewrite !forallb_app, !andb_true_iff. tauto.
Qed.

Lemma respects_fixed_None (m : Model) (a : var -> bool) :
  (forall v, fixed m v = None) -> respects_fixed m a = true.
Proof.
  intros Hf. unfold respects_fixed. apply forallb_forall. intros v _.
  by rewrite Hf.
Qed.

Lemma base_model_fresh (data : Data) (model : Model) :
  base_model data = Some model ->
  XB model = [] /\ Sequential model = [] /\ Variants model = []
  /\ active model = [] /\ (forall v, fixed model v = None)
  /\ B model = map Combo.id (combos data)
  /\ F model = map Feature.id (features data)
  /\ C model = map Card.id (cards data).
Proof.
  unfold base_model. case_decide as Hlen; [done|]. intros Hm. by inversion Hm.
Qed.

(** X6. An assignment is a solution of the model seeded with a combo exactly
    when it is a solution of the base model that activates the seed; it then
    activates every card the seed includes and every feature it needs. *)
Theorem combo_model_semantics (data : Data) (model : Model) (seed : Combo.t)
    (a : var -> bool) :
  base_model data = Some model ->
  (feasible (combo_model model seed) a = true <->
   consistent data a /\ a (b_ (Combo.id seed)) = true)
  /\ (seed ∈ combos data -> feasible (combo_model model seed) a = true ->
      (forall k, k ∈ Combo.includes seed -> a (c_ k) = true)
      /\ (forall j, j ∈ Combo.needs seed -> a (f_ j) = true)).
Proof.
  intros Hb.
  assert (Hiff : feasible (combo_model model seed) a = true <->
                 consistent data a /\ a (b_ (Combo.id seed)) = true).
  { rewrite <- (base_constraints_consistent data model a Hb), feasible_split.
    destruct (base_model_fresh data model Hb) as (_ & HS & HV & _ & Hfix & _).
    change (base_constraints (combo_model model seed)) with (base_constraints model).
    change (Sequential (combo_model model seed)) with (Sequential model).
    change (Variants (combo_model model seed)) with (Variants model).
    rewrite HS, HV, (respects_fixed_None (combo_model model seed) a) by done.
    simpl. rewrite eval_var, eval_num, andb_true_r, Z.leb_le.
    destruct (a (b_ (Combo.id seed))); intuition (try lia; done). }
  split; [done|]. intros Hseed [(_ & Hcs & _) Hact]%Hiff.
  rewrite (Hcs seed Hseed) in Hact. unfold combo_realized in Hact.
  apply andb_true_iff in Hact as [H1 H2]. rewrite forallb_forall in H1, H2.
  split; intros x Hx%list_elem_of_In; auto.
Qed.

(** ** One round of the sequential solver *)

Ltac solve_active :=
  unfold activate, deactivate; simpl;
  repeat (rewrite filter_cons; simpl);
  rewrite ?list_filter_filter;
  apply list_filter_iff; intros []; unfold staged; intuition congruence.

Section Round.
Variable solve : Model -> option (var -> bool).

(** What a round leaves of the model it was given. *)
Lemma solve_combo_model_frame (m m' : Model) (solved : bool) :
  solve_combo_model solve m = (solved, m') ->
  Sequential m' = []
  /\ active m' = filter (fun o => ~ staged o) (active m)
  /\ B m' = B m /\ F m' = F m /\ C m' = C m
  /\ base_constraints m' = base_constraints m
  /\ XB m' = XB m /\ Variants m' = Variants m
  /\ fixed m' = fixed m.
Proof.
  unfold solve_combo_model, opt_solve.
  destruct (solve (activate MinimizeCards m)) as [a1|] eqn:H1; simpl.
  2:{ intros Hs. inversion Hs. subst. simpl.
      split; [done|]. split; [solve_active|]. done. }
  match goal with
  | |- context [solve ?x] => destruct (solve x) as [a2|] eqn:H2
  end; simpl.
  2:{ intros Hs. inversion Hs. subst. simpl.
      split; [done|]. split; [solve_active|]. done. }
  match goal with
  | |- context [solve ?x] => destruct (solve x) as [a3|] eqn:H3
  end; simpl.
  2:{ intros Hs. inversion Hs. subst. simpl.
      split; [done|]. split; [solve_active|]. done. }
  intros Hs. inversion Hs. subst. simpl.
  split; [done|]. split; [solve_active|]. done.
Qed.

(** X7. Whatever its outcome, a round of the sequential solver leaves no
    lexicographic bound in [Sequential] and none of the three staged
    objectives active, and it touches nothing else of the model but the
    values of the variables: index sets, constraints, exclusions and fixings
    are those of the model it was given. *)
Theorem solve_combo_model_cleans_up (m m' : Model) (solved : bool) :
  solve_combo_model solve m = (solved, m') ->
  Sequential m' = []
  /\ active m' = filter (fun o => ~ staged o) (active m)
  /\ B m' = B m /\ F m' = F m /\ C m' = C m
  /\ base_constraints m' = base_constraints m
  /\ XB m' = XB m /\ Variants m' = Variants m
  /\ fixed m' = fixed m.
Proof. apply solve_combo_model_frame. Qed.

Hypothesis solve_sound : forall m a, solve m = Some a -> feasible m a = true.

(** The solution of a successful round satisfies every constraint of the
    model the round was given. *)
Lemma solve_combo_model_solution (m m' : Model) :
  solve_combo_model solve m = (true, m') ->
  forallb (holds (value m')) (base_constraints m) = true
  /\ forallb (holds (value m')) (XB m) = true
  /\ forallb (holds (value m')) (Variants m) = true.
Proof.
  unfold solve_combo_model, opt_solve.
  destruct (solve (activate MinimizeCards m)) as [a1|] eqn:H1; simpl; [|done].
  match goal with
  | |- context [solve ?x] => destruct (solve x) as [a2|] eqn:H2
  end; simpl; [|done].
  match goal with
  | |- context [solve ?x] => destruct (solve x) as [a3|] eqn:H3
  end; simpl; [|done].
  intros Hs. inversion Hs. subst. simpl.
  apply solve_sound, feasible_split in H3. simpl in H3. tauto.
Qed.
End Round.

(** ** What the enumeration records *)

Lemma dict_set_key_in {A} (k : string) (x : A) (d : list (string * A)) :
  k ∈ map fst (dict_set k x d).
Proof.
  induction d as [|[k' x'] d IH]; simpl; [by left|].
  case_decide; simpl; [by left|by right].
Qed.

Lemma dict_set_keys_mono {A} (k k0 : string) (x : A) (d : list (string * A)) :
  k0 ∈ map fst d -> k0 ∈ map fst (dict_set k x d).
Proof.
  induction d as [|[k' x'] d IH]; simpl; [intros H; by apply elem_of_nil in H|].
  intros Hin. apply elem_of_cons in Hin as [->|Hin]; case_decide; simpl; subst.
  - by left.
  - by left.
  - by right.
  - right. by apply IH.
Qed.

Lemma holds_exclusion (a : var -> bool) (l : list Z) (c : constr) :
  exclusion l = Ok c -> holds a c = true -> ~ (forall k, k ∈ l -> a (c_ k) = true).
Proof.
  intros [_ ->]%exclusion_Ok Hh Hall. unfold holds in Hh.
  rewrite eval_sum_all_true, eval_num, length_map in Hh.
  - apply Z.leb_le in Hh. lia.
  - intros v Hv. rewrite map_is_fmap in Hv.
    apply list_elem_of_fmap in Hv as (k & -> & Hk). by apply Hall.
Qed.

Section Recorded.
Variable sha256_hexdigest : string -> string.
Variable solve : Model -> option (var -> bool).
Hypothesis solve_sound : forall m a, solve m = Some a -> feasible m a = true.

Lemma loop_recorded (m0 : Model) (fuel : nat) :
  forall (m m' : Model) (priorityc : gmap Z Z)
         (result r : list (string * VariantDefinition)),
    base_constraints m = base_constraints m0 -> XB m = XB m0 ->
    B m = B m0 -> F m = F m0 -> C m = C m0 ->
    (forall kv, kv ∈ result -> recorded sha256_hexdigest m0 kv) ->
    variants_from_combo_loop sha256_hexdigest solve fuel m priorityc result
      = Ok (m', r) ->
    forall kv, kv ∈ r -> recorded sha256_hexdigest m0 kv.
Proof.
  induction fuel as [|fuel IH];
    intros m m' priorityc result r Hbc Hxb HB HF HC Hres; simpl; [done|].
  destruct (solve_combo_model solve m) as [solved m1] eqn:Hs.
  pose proof (solve_combo_model_frame solve _ _ _ Hs)
    as (_ & _ & HB1 & HF1 & HC1 & Hbc1 & Hxb1 & _).
  destruct solved.
  2:{ intros H. inversion H; subst. done. }
  pose proof (solve_combo_model_solution solve solve_sound _ _ Hs) as (Hh1 & Hh2 & _).
  intros H. apply bind_Ok_inv in H as (card_id_list & Hsort & H).
  apply bind_Ok_inv in H as (c & Hc & H).
  apply sorted_by_priority_Permutation in Hsort.
  eapply IH; [| | | | | |exact H].
  - simpl. by rewrite <- Hbc, <- Hbc1.
  - simpl. by rewrite Hxb1.
  - simpl. by rewrite HB1.
  - simpl. by rewrite HF1.
  - simpl. by rewrite HC1.
  - intros kv [->|Hin]%elem_of_dict_set; [|by apply Hres].
    split; [done|]. exists (value m1). rewrite <- Hbc, <- Hxb.
    split; [done|]. split; [done|]. unfold reads. simpl.
    by rewrite Hsort, HC1, HF1, HB1, HC, HF, HB.
Qed.

(** The exclusions that the loop appends, in order, and the card lists
    they forbid. *)
Lemma loop_exclusions (fuel : nat) :
  forall (m m' : Model) (priorityc : gmap Z Z)
         (result r : list (string * VariantDefinition)),
    variants_from_combo_loop sha256_hexdigest solve fuel m priorityc result
      = Ok (m', r) ->
    (forall k, k ∈ map fst result -> k ∈ map fst r)
    /\ exists founds cs,
        Variants m' = Variants m ++ cs
        /\ Forall2 (fun l c => exclusion l = Ok c) founds cs
        /\ never_again founds
        /\ (forall l', l' ∈ founds ->
              (forall l0 c0, exclusion l0 = Ok c0 -> c0 ∈ Variants m ->
                             ~ (forall k, k ∈ l0 -> k ∈ l'))
              /\ (forall k, k ∈ l' -> k ∈ C m)
              /\ unique_id_from_cards_ids sha256_hexdigest l' ∈ map fst r).
Proof.
  induction fuel as [|fuel IH]; intros m m' priorityc result r; simpl; [done|].
  destruct (solve_combo_model solve m) as [solved m1] eqn:Hs.
  pose proof (solve_combo_model_frame solve _ _ _ Hs)
    as (_ & _ & _ & _ & HC1 & _ & _ & HV1 & _).
  destruct solved.
  2:{ intros H. inversion H; subst. split; [done|].
      exists [], []. rewrite app_nil_r. split; [done|]. split; [constructor|].
      split; [done|]. intros l0 Hl0. by apply elem_of_nil in Hl0. }
  pose proof (solve_combo_model_solution solve solve_sound _ _ Hs) as (_ & _ & Hh3).
  intros H. apply bind_Ok_inv in H as (l & Hsort & H).
  apply bind_Ok_inv in H as (c & Hc & H).
  apply sorted_by_priority_Permutation in Hsort.
  apply IH in H as (Hkeys & founds & cs & HV & Hcs & Hna & Hfounds). simpl in HV.
  assert (Hact : forall k, k ∈ l <-> k ∈ C m /\ value m1 (c_ k) = true).
  { intros k. rewrite Hsort, list_elem_of_filter, HC1. tauto. }
  split.
  { intros k Hk. by apply Hkeys, dict_set_keys_mono. }
  exists (l :: founds), (c :: cs). split; [by rewrite HV, HV1, <- app_assoc|].
  split; [by constructor|]. split.
  - simpl. split; [|done]. intros l' Hl'.
    destruct (Hfounds l' Hl') as (Havoid & _).
    apply (Havoid l c Hc). simpl. apply elem_of_app. right. by left.
  - intros l' [->|Hl']%elem_of_cons.
    + split; [|split].
      * intros l0 c0 Hc0 Hin Hall.
        rewrite forallb_forall in Hh3.
        apply list_elem_of_In, Hh3 in Hin.
        apply (holds_exclusion _ _ _ Hc0 Hin).
        intros k Hk. by apply Hact, Hall.
      * intros k Hk. by apply Hact in Hk as [? _].
      * apply Hkeys, dict_set_key_in.
    + destruct (Hfounds l' Hl') as (Havoid & Hperm & Hkey).
      split; [|split; [|done]].
      * intros l0 c0 Hc0 Hin. apply (Havoid l0 c0 Hc0). simpl.
        apply elem_of_app. left. by rewrite HV1.
      * simpl in Hperm. by rewrite HC1 in Hperm.
Qed.
End Recorded.

(** ** The dictionary of discovered variants *)

Lemma dict_set_keys {A} (k : string) (x : A) (d : list (string * A)) :
  map fst (dict_set k x d)
  = if decide (k ∈ map fst d) then map fst d else map fst d ++ [k].
Proof.
  induction d as [|[k' x'] d IH]; [done|].
  cbn [dict_set map fst]. destruct (decide (k = k')) as [->|Hk]; cbn [map fst].
  - destruct (decide (k' ∈ k' :: map fst d)) as [|Hn]; [done|].
    exfalso. apply Hn. by left.
  - rewrite IH. destruct (decide (k ∈ map fst d)) as [Hin|Hin].
    + destruct (decide (k ∈ k' :: map fst d)) as [|Hn]; [done|].
      exfalso. apply Hn. by right.
    + destruct (decide (k ∈ k' :: map fst d)) as [Hy|Hn]; [|done].
      apply elem_of_cons in Hy as [?|?]; done.
Qed.

Lemma dict_set_NoDup {A} (k : string) (x : A) (d : list (string * A)) :
  NoDup (map fst d) -> NoDup (map fst (dict_set k x d)).
Proof.
  intros Hnd. rewrite dict_set_keys. case_decide as Hk; [done|].
  apply NoDup_app. split; [done|]. split.
  - intros k' Hk' ->%list_elem_of_singleton. done.
  - apply NoDup_singleton.
Qed.

Lemma dict_update_NoDup {A} (d r : list (string * A)) :
  NoDup (map fst d) -> NoDup (map fst (dict_update d r)).
Proof.
  unfold dict_update. revert d. induction r as [|[k x] r IH]; intros d Hd; simpl; [done|].
  by apply IH, dict_set_NoDup.
Qed.

Lemma elem_of_keys {A} (d : list (string * A)) (kv : string * A) :
  kv ∈ d -> kv.1 ∈ map fst d.
Proof. intros H. rewrite map_is_fmap. by apply list_elem_of_fmap_2. Qed.

Lemma elem_of_dict_set_iff {A} (k : string) (x : A) (d : list (string * A))
    (kv : string * A) :
  NoDup (map fst d) ->
  kv ∈ dict_set k x d <-> kv = (k, x) \/ (kv ∈ d /\ kv.1 <> k).
Proof.
  induction d as [|[k' x'] d IH]; simpl; intros Hnd.
  - rewrite list_elem_of_singleton. split; [by left|].
    intros [?|[H _]]; [done|by apply elem_of_nil in H].
  - apply NoDup_cons in Hnd as [Hk' Hnd]. case_decide as Hk.
    + subst k'. rewrite !elem_of_cons. split.
      * intros [->|Hin]; [by left|]. right. split; [by right|].
        intros Heq. apply Hk'. rewrite <- Heq. by apply elem_of_keys.
      * intros [->|[[->|Hin] Hne]]; [by left|done|by right].
    + rewrite !elem_of_cons, (IH Hnd). split.
      * intros [->|[->|[Hin Hne]]].
        -- right. split; [by left|]. simpl. congruence.
        -- by left.
        -- right. split; [by right|done].
      * intros [->|[[->|Hin] Hne]]; [right; by left|by left|].
        right. right. done.
Qed.

(** X10. Merging a seed's result into the dictionary ([result.update(r)])
    keeps the keys unique; the merged dictionary holds every entry of the
    new result and those entries of the old dictionary whose key the new
    result does not have: on a shared unique id the later seed wins. *)
Theorem dict_update_entries {A} (d r : list (string * A)) (kv : string * A) :
  NoDup (map fst d) -> NoDup (map fst r) ->
  NoDup (map fst (dict_update d r))
  /\ (kv ∈ dict_update d r <-> kv ∈ r \/ (kv ∈ d /\ kv.1 ∉ map fst r)).
Proof.
  intros Hd Hr. split; [by apply dict_update_NoDup|].
  unfold dict_update. revert d Hd.
  induction r as [|[k x] r IH]; intros d Hd; simpl.
  - split; [right; split; [done|apply not_elem_of_nil]|].
    intros [H|[H _]]; [by apply elem_of_nil in H|done].
  - apply NoDup_cons in Hr as [Hk Hr].
    rewrite (IH Hr) by (by apply dict_set_NoDup).
    rewrite (elem_of_dict_set_iff k x d kv Hd), !elem_of_cons. split.
    + intros [Hin|[[->|[Hin Hne]] Hnr]].
      * left. by right.
      * left. by left.
      * right. split; [done|]. intros [Heq|Hin']; [by apply Hne|by apply Hnr].
    + intros [[->|Hin]|[Hin Hnr]].
      * right. split; [by left|done].
      * by left.
      * right. split; [|intros Hin'; apply Hnr; by right].
        right. split; [done|]. intros Heq. apply Hnr. by left.
Qed.

(** ** The discovered variants *)

Lemma foldl_dict_update_NoDup {A} (results : list (list (string * A)))
    (d : list (string * A)) :
  NoDup (map fst d) -> NoDup (map fst (foldl dict_update d results)).
Proof.
  revert d. induction results as [|r results IH]; intros d Hd; simpl; [done|].
  by apply IH, dict_update_NoDup.
Qed.

Lemma elem_of_dict_update {A} (d r : list (string * A)) (kv : string * A) :
  kv ∈ dict_update d r -> kv ∈ d \/ kv ∈ r.
Proof.
  unfold dict_update. revert d. induction r as [|[k x] r IH]; intros d; simpl.
  - by left.
  - intros [[->|Hin]%elem_of_dict_set|Hin]%IH.
    + right. by left.
    + by left.
    + right. by right.
Qed.

Lemma elem_of_foldl_dict_update {A} (results : list (list (string * A)))
    (d : list (string * A)) (kv : string * A) :
  kv ∈ foldl dict_update d results ->
  kv ∈ d \/ exists r, r ∈ results /\ kv ∈ r.
Proof.
  revert d. induction results as [|r results IH]; intros d; simpl; [by left|].
  intros [[Hin|Hin]%elem_of_dict_update|(r' & Hr' & Hin)]%IH.
  - by left.
  - right. exists r. split; [by left|done].
  - right. exists r'. split; [by right|done].
Qed.

Section Discovered.
Variable sha256_hexdigest : string -> string.
Variable solve : Model -> option (var -> bool).
Hypothesis solve_sound : forall m a, solve m = Some a -> feasible m a = true.

(** Every discovered entry comes from the enumeration of some seed. *)
Lemma get_variants_entry (fuel : nat) (base : Model) (data : Data)
    (vs : list (string * VariantDefinition)) (kv : string * VariantDefinition) :
  get_variants_from_model sha256_hexdigest solve fuel base data = Ok vs ->
  kv ∈ vs ->
  exists seed priorityc m' r,
    seed ∈ combos data /\ Combo.generator seed = true
    /\ priority_dict_for_combo data seed 0 = Ok priorityc
    /\ variants_from_combo_loop sha256_hexdigest solve fuel
         (combo_model base seed) priorityc [] = Ok (m', r)
    /\ kv ∈ r.
Proof.
  unfold get_variants_from_model. intros H Hkv.
  apply bind_Ok_inv in H as (results & Hres & H). inversion H; subst. clear H.
  apply elem_of_foldl_dict_update in Hkv as [Hkv|(r & Hr & Hkv)];
    [by apply elem_of_nil in Hkv|].
  apply mapM_res_Ok_Forall2 in Hres.
  apply list_elem_of_lookup in Hr as [i Hi].
  destruct (Forall2_lookup_r _ _ _ _ _ Hres Hi) as (seed & Hseed & Hrun).
  apply list_elem_of_lookup_2, list_elem_of_filter in Hseed as [Hgen Hin].
  apply bind_Ok_inv in Hrun as (priorityc & Hp & Hrun).
  unfold variants_from_combo in Hrun.
  apply bind_Ok_inv in Hrun as ([m' r'] & Hloop & Hrun).
  simpl in Hrun. injection Hrun as <-.
  exists seed, priorityc, m', r'. done.
Qed.
End Discovered.

(** ** The rounds of the enumeration, one by one *)

Lemma exclusion_inj (l1 l2 : list Z) (c : constr) :
  exclusion l1 = Ok c -> exclusion l2 = Ok c -> l1 = l2.
Proof.
  intros [_ ->]%exclusion_Ok [_ H]%exclusion_Ok. inversion H as [[Hm Hl]].
  clear H Hl. revert l2 Hm. induction l1 as [|x l1 IH]; intros [|y l2] Hm;
    try discriminate; [done|].
  inversion Hm. f_equal. by apply IH.
Qed.

Lemma Forall2_exclusion_inj (founds : list (list Z)) (defs : list VariantDefinition)
    (cs : list constr) :
  Forall2 (fun l c => exclusion l = Ok c) founds cs ->
  Forall2 (fun def c => exclusion (card_ids def) = Ok c) defs cs ->
  founds = map card_ids defs.
Proof.
  intros H. revert defs. induction H as [|l c founds cs Hl _ IH]; intros defs Hd.
  - by inversion Hd.
  - inversion Hd as [|def c' defs' cs' Hdef Hrest]; subst. simpl. f_equal.
    + by apply (exclusion_inj _ _ c).
    + by apply IH.
Qed.

Section Rounds.
Variable sha256_hexdigest : string -> string.
Variable solve : Model -> option (var -> bool).

Lemma loop_trace (fuel : nat) :
  forall (m m' : Model) (priorityc : gmap Z Z)
         (result r : list (string * VariantDefinition)),
    variants_from_combo_loop sha256_hexdigest solve fuel m priorityc result
      = Ok (m', r) ->
    exists defs cs,
      r = record_all sha256_hexdigest result defs
      /\ Variants m' = Variants m ++ cs
      /\ Forall2 (fun def c => exclusion (card_ids def) = Ok c) defs cs
      /\ (length defs < fuel)%nat
      /\ (forall i def, defs !! i = Some def ->
            successful_round solve m priorityc (take i cs) def)
      /\ exists m_end,
           Variants m_end = Variants m ++ cs
           /\ solve_combo_model solve m_end = (false, m').
Proof.
  induction fuel as [|fuel IH]; intros m m' priorityc result r; simpl; [done|].
  destruct (solve_combo_model solve m) as [solved m1] eqn:Hs.
  pose proof (solve_combo_model_frame solve _ _ _ Hs)
    as (_ & _ & HB1 & HF1 & HC1 & Hbc1 & Hxb1 & HV1 & _).
  destruct solved.
  2:{ intros H. inversion H; subst. exists [], [].
      split; [done|]. split; [by rewrite app_nil_r|]. split; [constructor|].
      split; [simpl; lia|]. split; [intros i def Hi; by destruct i|].
      exists m. split; [by rewrite app_nil_r|done]. }
  intros H. apply bind_Ok_inv in H as (l & Hsort & H).
  apply bind_Ok_inv in H as (c & Hc & H).
  apply IH in H as (defs & cs & Hr & HV & Hcs & Hlen & Hrounds & m_end & HVe & Hend).
  simpl in HV, HVe.
  set (def0 := {| card_ids := l;
                  combo_ids := list_to_set
                    (filter (fun v => value m1 (b_ v) = true) (B m1));
                  feature_ids := list_to_set
                    (filter (fun v => value m1 (f_ v) = true) (F m1)) |}) in *.
  exists (def0 :: defs), (c :: cs).
  split; [done|]. split; [by rewrite HV, HV1, <- app_assoc|].
  split; [by constructor|]. split; [simpl; lia|]. split.
  - intros [|i] def Hi; simpl in Hi.
    + inversion Hi; subst def. exists m, m1. simpl. rewrite app_nil_r. done.
    + destruct (Hrounds i def Hi)
        as (m_i & m_i' & Hb & Hx & HB & HF & HC & HVi & Hsi & Hrest).
      exists m_i, m_i'.
      split; [rewrite Hb; exact Hbc1|]. split; [rewrite Hx; exact Hxb1|].
      split; [rewrite HB; exact HB1|]. split; [rewrite HF; exact HF1|].
      split; [rewrite HC; exact HC1|].
      split; [|done]. rewrite HVi. simpl. by rewrite HV1, <- app_assoc.
  - exists m_end. split; [|done]. by rewrite HVe, HV1, <- app_assoc.
Qed.

Hypothesis solve_sound : forall m a, solve m = Some a -> feasible m a = true.

(** X8. The loop of [variants_from_combo], round by round.  The result is
    the dictionary obtained by writing the definitions found, in round
    order, each under the unique id of its card list; every one of them is
    read off a successful round on the seeded model extended by the
    exclusions of the rounds before it, and every successful round appends
    exactly one exclusion, that of the card list it found; the loop stops at
    the first round that fails.  No card list found contains all the cards of
    a list found in an earlier round, nor of a list that the model already
    excluded; each consists of cards of the model. *)
Theorem enumeration_never_repeats (fuel : nat) (m m' : Model)
    (priorityc : gmap Z Z) (r : list (string * VariantDefinition)) :
  variants_from_combo_loop sha256_hexdigest solve fuel m priorityc [] = Ok (m', r) ->
  exists defs cs,
    r = record_all sha256_hexdigest [] defs
    /\ Variants m' = Variants m ++ cs
    /\ Forall2 (fun def c => exclusion (card_ids def) = Ok c) defs cs
    /\ (length defs < fuel)%nat
    /\ (forall i def, defs !! i = Some def ->
          successful_round solve m priorityc (take i cs) def)
    /\ (exists m_end,
          Variants m_end = Variants m ++ cs
          /\ solve_combo_model solve m_end = (false, m'))
    /\ never_again (map card_ids defs)
    /\ (forall def, def ∈ defs ->
          (forall l0 c0, exclusion l0 = Ok c0 -> c0 ∈ Variants m ->
                         ~ (forall k, k ∈ l0 -> k ∈ card_ids def))
          /\ (forall k, k ∈ card_ids def -> k ∈ C m)
          /\ unique_id_from_cards_ids sha256_hexdigest (card_ids def) ∈ map fst r).
Proof.
  intros H.
  destruct (loop_trace _ _ _ _ _ _ H)
    as (defs & cs & Hr & HV & Hcs & Hlen & Hrounds & Hend).
  destruct (loop_exclusions sha256_hexdigest solve solve_sound _ _ _ _ _ _ H)
    as (_ & founds & cs' & HV' & Hcs' & Hna & Hfounds).
  assert (cs' = cs) as -> by (rewrite HV in HV'; by apply app_inv_head in HV').
  pose proof (Forall2_exclusion_inj _ _ _ Hcs' Hcs) as ->.
  exists defs, cs. repeat (split; [done|]).
  intros def Hdef. apply Hfounds. rewrite map_is_fmap. by apply list_elem_of_fmap_2.
Qed.
End Rounds.

Lemma reads_members (m : Model) (a : var -> bool) (def : VariantDefinition) :
  reads m a def ->
  (forall k, k ∈ card_ids def <-> k ∈ C m /\ a (c_ k) = true)
  /\ (forall j, j ∈ feature_ids def <-> j ∈ F m /\ a (f_ j) = true)
  /\ (forall i, i ∈ combo_ids def <-> i ∈ B m /\ a (b_ i) = true).
Proof.
  intros (Hc & -> & ->). split; [|split]; intros x.
  - rewrite Hc, list_elem_of_filter. tauto.
  - rewrite elem_of_list_to_set, list_elem_of_filter. tauto.
  - rewrite elem_of_list_to_set, list_elem_of_filter. tauto.
Qed.

Lemma referential_integrity_spec (data : Data) :
  referential_integrity data = true ->
  (forall combo, combo ∈ combos data ->
     (forall k, k ∈ Combo.includes combo -> k ∈ map Card.id (cards data))
     /\ (forall j, j ∈ Combo.needs combo -> j ∈ map Feature.id (features data)))
  /\ (forall feature, feature ∈ features data ->
     (forall k, k ∈ Feature.cards feature -> k ∈ map Card.id (cards data))
     /\ (forall i, i ∈ Feature.produced_by_combos feature ->
                   i ∈ map Combo.id (combos data))).
Proof.
  unfold referential_integrity. rewrite andb_true_iff, !forallb_forall.
  intros [Hc Hf]. split.
  - intros combo Hin%list_elem_of_In. specialize (Hc combo Hin).
    apply andb_true_iff in Hc as [H1 H2]. rewrite forallb_forall in H1, H2.
    split; intros x Hx%list_elem_of_In.
    + by apply H1, bool_decide_eq_true in Hx.
    + by apply H2, bool_decide_eq_true in Hx.
  - intros feature Hin%list_elem_of_In. specialize (Hf feature Hin).
    apply andb_true_iff in Hf as [H1 H2]. rewrite forallb_forall in H1, H2.
    split; intros x Hx%list_elem_of_In.
    + by apply H1, bool_decide_eq_true in Hx.
    + by apply H2, bool_decide_eq_true in Hx.
Qed.

(** X9. Every variant that the enumeration discovers is closed under the
    rules of the catalog.  Its key is the unique id of its card list; its
    cards are cards of the catalog, at most [MAX_CARDS_IN_COMBO] of them; it
    comes from a generator combo that it realizes and whose cards it holds;
    a combo is among its realized combos exactly when the variant holds all
    the cards the combo includes and yields all the features it needs; a
    feature is among its features exactly when one of its cards grants it
    or one of its realized combos produces it.  The keys of the discovered
    dictionary are pairwise distinct. *)
Theorem discovered_variants_sound
    (sha256_hexdigest : string -> string) (solve : Model -> option (var -> bool))
    (fuel : nat) (data : Data) (base : Model)
    (vs : list (string * VariantDefinition)) :
  (forall m a, solve m = Some a -> feasible m a = true) ->
  referential_integrity data = true ->
  base_model data = Some base ->
  get_variants_from_model sha256_hexdigest solve fuel base data = Ok vs ->
  NoDup (map fst vs)
  /\ forall uid def, (uid, def) ∈ vs ->
      uid = unique_id_from_cards_ids sha256_hexdigest (card_ids def)
      /\ (forall k, k ∈ card_ids def -> k ∈ map Card.id (cards data))
      /\ Z.of_nat (length (card_ids def)) <= MAX_CARDS_IN_COMBO
      /\ (exists seed, seed ∈ combos data /\ Combo.generator seed = true
            /\ Combo.id seed ∈ combo_ids def
            /\ forall k, k ∈ Combo.includes seed -> k ∈ card_ids def)
      /\ (forall combo, combo ∈ combos data ->
            (Combo.id combo ∈ combo_ids def <->
             (forall k, k ∈ Combo.includes combo -> k ∈ card_ids def)
             /\ (forall j, j ∈ Combo.needs combo -> j ∈ feature_ids def)))
      /\ (forall feature, feature ∈ features data ->
            (Feature.id feature ∈ feature_ids def <->
             (exists k, k ∈ Feature.cards feature /\ k ∈ card_ids def)
             \/ (exists i, i ∈ Feature.produced_by_combos feature
                           /\ i ∈ combo_ids def))).
Proof.
  intros Hsound Hint Hb Hvs. split.
  { unfold get_variants_from_model in Hvs.
    apply bind_Ok_inv in Hvs as (results & _ & H). inversion H; subst.
    apply foldl_dict_update_NoDup. constructor. }
  intros uid def Hin.
  destruct (get_variants_entry _ _ _ _ _ _ _ Hvs Hin)
    as (seed & priorityc & m' & r & Hseed & Hgen & _ & Hloop & Hr).
  assert (Hrec : recorded sha256_hexdigest (combo_model base seed) (uid, def)).
  { eapply (loop_recorded sha256_hexdigest solve Hsound (combo_model base seed));
      [done..| |exact Hloop|exact Hr].
    intros kv Hkv. by apply elem_of_nil in Hkv. }
  destruct Hrec as (Huid & a & Hbase & Hxb & Hreads). simpl in Huid, Hreads.
  change (base_constraints (combo_model base seed)) with (base_constraints base) in Hbase.
  apply (base_constraints_consistent data base a Hb) in Hbase
    as (Hcount & Hcombos & Hfeatures).
  destruct (base_model_fresh data base Hb) as (_ & _ & _ & _ & _ & HB & HF & HC).
  destruct (reads_members _ _ _ Hreads) as (Hcm & Hfm & Hbm).
  simpl in Hcm, Hfm, Hbm. rewrite HC in Hcm. rewrite HF in Hfm. rewrite HB in Hbm.
  destruct (referential_integrity_spec data Hint) as (Hic & Hif).
  assert (Hseed_act : a (b_ (Combo.id seed)) = true).
  { simpl in Hxb. rewrite eval_var, eval_num, andb_true_r in Hxb.
    apply Z.leb_le in Hxb. destruct (a (b_ (Combo.id seed))); [done|lia]. }
  assert (Hin_B : forall combo, combo ∈ combos data ->
            Combo.id combo ∈ map Combo.id (combos data)).
  { intros combo Hc. rewrite map_is_fmap. by apply list_elem_of_fmap_2. }
  assert (Hin_F : forall feature, feature ∈ features data ->
            Feature.id feature ∈ map Feature.id (features data)).
  { intros feature Hf. rewrite map_is_fmap. by apply list_elem_of_fmap_2. }
  assert (Hcombo : forall combo, combo ∈ combos data ->
    (Combo.id combo ∈ combo_ids def <->
     (forall k, k ∈ Combo.includes combo -> k ∈ card_ids def)
     /\ (forall j, j ∈ Combo.needs combo -> j ∈ feature_ids def))).
  { intros combo Hc. destruct (Hic combo Hc) as [Hi1 Hi2].
    rewrite Hbm, (Hcombos combo Hc). unfold combo_realized.
    rewrite andb_true_iff, !forallb_forall. split.
    - intros (_ & H1 & H2). split.
      + intros k Hk. apply Hcm. split; [by apply Hi1|]. by apply H1, list_elem_of_In.
      + intros j Hj. apply Hfm. split; [by apply Hi2|]. by apply H2, list_elem_of_In.
    - intros [H1 H2]. split; [by apply Hin_B|]. split.
      + intros k Hk%list_elem_of_In. by apply H1, Hcm in Hk as [_ ?].
      + intros j Hj%list_elem_of_In. by apply H2, Hfm in Hj as [_ ?]. }
  split; [done|]. split; [intros k Hk; by apply Hcm in Hk as [? _]|]. split.
  { destruct Hreads as (Hperm & _). rewrite Hperm. simpl. by rewrite HC. }
  split.
  { exists seed. split; [done|]. split; [done|].
    assert (Hs : Combo.id seed ∈ combo_ids def).
    { apply Hbm. split; [by apply Hin_B|done]. }
    split; [done|]. by apply (Hcombo seed Hseed) in Hs as [? _]. }
  split; [done|].
  intros feature Hf. destruct (Hif feature Hf) as [Hi1 Hi2].
  rewrite Hfm, (Hfeatures feature Hf). unfold feature_yielded.
  rewrite orb_true_iff, !existsb_exists. split.
  - intros (_ & [(k & Hk%list_elem_of_In & Hak)|(i & Hi%list_elem_of_In & Hai)]).
    + left. exists k. split; [done|]. apply Hcm. split; [by apply Hi1|done].
    + right. exists i. split; [done|]. apply Hbm. split; [by apply Hi2|done].
  - intros H. split; [by apply Hin_F|].
    destruct H as [(k & Hk & Hkc)|(i & Hi & Hic')].
    + left. exists k. split; [by apply list_elem_of_In|]. by apply Hcm in Hkc as [_ ?].
    + right. exists i. split; [by apply list_elem_of_In|]. by apply Hbm in Hic' as [_ ?].
Qed.

(** ** What a completed pass leaves behind *)

Lemma save_loop_restore (solve : Model -> option (var -> bool))
    (old_id_set to_restore : gset string)
    (vs : list (string * VariantDefinition)) :
  (forall u, u ∈ to_restore -> u ∈ old_id_set) ->
  forall (vcm vcm' : Model) (d d' : Data),
    (forall v, v ∈ variants d -> Variant.status v = Variant.RESTORE ->
               Variant.unique_id v ∈ to_restore) ->
    foldM (save_variant solve old_id_set to_restore) (vcm, d) vs = Ok (vcm', d') ->
    forall v', v' ∈ variants d' -> Variant.status v' = Variant.RESTORE ->
      v' ∈ variants d /\ Variant.unique_id v' ∉ map fst vs.
Proof.
  intros Hsub. induction vs as [|[u def] vs IH]; intros vcm vcm' d d' Hd; simpl.
  - intros H v' Hv' Hst. inversion H; subst. split; [done|].
    apply not_elem_of_nil.
  - intros H v' Hv' Hst. apply bind_Ok_inv in H as ([vcm1 d1] & H1 & H).
    assert (Hrows : forall v, v ∈ variants d1 ->
              Variant.status v = Variant.RESTORE ->
              v ∈ variants d /\ Variant.unique_id v <> u).
    { intros v Hv Hs.
      destruct (save_variant_rows solve old_id_set to_restore _ _ _ _ _ _ v H1 Hv)
        as [[Hin Hne]|[(Hold & v0 & Hin0 & Hu0 & ->)|[Hold ->]]].
      - pose proof (Hd v Hin Hs) as Hr. split; [done|].
        destruct (decide (u ∈ old_id_set)) as [Ho|Ho]; [by apply Hne|].
        intros Heq. apply Ho. rewrite <- Heq. by apply Hsub.
      - exfalso. simpl in Hs. case_bool_decide as Hr.
        + by destruct (is_variant_valid _ _ _).1.
        + destruct (is_variant_valid _ _ _).1; [|done].
          apply Hr. rewrite <- Hu0. by apply Hd.
      - exfalso. simpl in Hs. by destruct (is_variant_valid _ _ _).1. }
    assert (Hd1 : forall v, v ∈ variants d1 ->
              Variant.status v = Variant.RESTORE ->
              Variant.unique_id v ∈ to_restore).
    { intros v Hv Hs. destruct (Hrows v Hv Hs) as [Hin _]. by apply Hd. }
    destruct (IH vcm1 vcm' d1 d' Hd1 H v' Hv' Hst) as [Hin1 Hnot].
    destruct (Hrows v' Hin1 Hst) as [Hin Hne].
    split; [done|]. apply not_elem_of_cons. by split.
Qed.

Lemma restore_snapshot_spec (data : Data) (v : Variant.t) :
  v ∈ variants data -> Variant.status v = Variant.RESTORE ->
  Variant.unique_id v ∈ restore_snapshot data.
Proof.
  intros Hv Hs. unfold restore_snapshot. apply elem_of_list_to_set.
  apply elem_of_uids. exists v. split; [|done]. by apply list_elem_of_filter.
Qed.

Lemma restore_snapshot_persisted (data : Data) (u : string) :
  u ∈ restore_snapshot data -> u ∈ persisted_ids data.
Proof.
  unfold restore_snapshot, persisted_ids. rewrite !elem_of_list_to_set, !elem_of_uids.
  intros (v & [_ Hv]%list_elem_of_filter & Hu). eauto.
Qed.

Lemma elem_of_dict_keys {A} (d : list (string * A)) (u : string) :
  u ∈ dict_keys d <-> u ∈ map fst d.
Proof. unfold dict_keys. by rewrite elem_of_list_to_set. Qed.

Lemma no_restore_after_pass
    (sha256_hexdigest : string -> string) (solve : Model -> option (var -> bool))
    (fuel : nat) (data data' : Data) (t : nat * nat * nat) (v : Variant.t) :
  generate_variants sha256_hexdigest solve fuel data = Ok (t, data') ->
  v ∈ variants data' -> Variant.status v <> Variant.RESTORE.
Proof.
  intros Hg Hv Hs.
  apply generate_variants_inv in Hg as (vs & written & _ & Hw & _ & ->).
  simpl in Hv. apply list_elem_of_filter in Hv as [Hkeep Hv]. apply Hkeep.
  rewrite elem_of_difference, elem_of_dict_keys.
  destruct Hw as [(_ & -> & ->)|(model & vcm & vcm' & _ & _ & Hloop)].
  - split; [|apply not_elem_of_nil].
    by apply restore_snapshot_persisted, restore_snapshot_spec.
  - destruct (save_loop_restore solve _ _ vs (restore_snapshot_persisted data)
                vcm vcm' data written (restore_snapshot_spec data) Hloop v Hv Hs)
      as [Hin Hnot].
    split; [|done]. by apply restore_snapshot_persisted, restore_snapshot_spec.
Qed.

(** X11. When the pass completes, no variant is left with the status
    RESTORE: a rediscovered one is set to NEW or NOT_WORKING, the others are
    deleted. *)
Theorem pass_clears_restore
    (sha256_hexdigest : string -> string) (solve : Model -> option (var -> bool))
    (fuel : nat) (data data' : Data) (t : nat * nat * nat) (v : Variant.t) :
  generate_variants sha256_hexdigest solve fuel data = Ok (t, data') ->
  v ∈ variants data' -> Variant.status v <> Variant.RESTORE.
Proof. apply no_restore_after_pass. Qed.







(** ** Ordering the cards of a variant *)

Lemma insert_by_key_sorted {A} (key : A -> Z) (x : A) (l : list A) :
  StronglySorted (fun a b => key a <= key b) l ->
  StronglySorted (fun a b => key a <= key b) (insert_by_key key x l).
Proof.
  induction 1 as [|y l Hs IH Hy]; simpl; [repeat constructor|].
  destruct (Z.leb_spec (key x) (key y)) as [Hxy|Hxy].
  - constructor; [by constructor|]. constructor; [done|].
    eapply Forall_impl; [exact Hy|]. simpl. intros z Hz. lia.
  - constructor; [done|].
    rewrite insert_by_key_Permutation. constructor; [lia|done].
Qed.

Lemma sorted_by_key_sorted {A} (key : A -> Z) (l : list A) :
  StronglySorted (fun a b => key a <= key b) (sorted_by_key key l).
Proof.
  induction l as [|x l IH]; simpl; [constructor|]. by apply insert_by_key_sorted.
Qed.

(** The sort is stable: elements with the same key keep their order. *)
Lemma insert_by_key_stable {A} (key : A -> Z) (p : Z) (x : A) (l : list A) :
  filter (fun a => key a = p) (insert_by_key key x l)
  = filter (fun a => key a = p) (x :: l).
Proof.
  induction l as [|y l IH]; simpl; [done|].
  destruct (Z.leb_spec (key x) (key y)) as [Hxy|Hxy]; [done|].
  rewrite filter_cons, IH, !filter_cons.
  destruct (decide (key y = p)), (decide (key x = p)); try done. lia.
Qed.

Lemma sorted_by_key_stable {A} (key : A -> Z) (p : Z) (l : list A) :
  filter (fun a => key a = p) (sorted_by_key key l) = filter (fun a => key a = p) l.
Proof.
  induction l as [|x l IH]; simpl; [done|].
  by rewrite insert_by_key_stable, !filter_cons, IH.
Qed.

Lemma keyed_Ok (priorityc : gmap Z Z) (l : list Z) (keyed : list (Z * Z)) :
  mapM (fun c => match priorityc !! c with
                 | Some p => Ok (c, p)
                 | None => Raise (KeyError c)
                 end) l = Ok keyed ->
  map fst keyed = l /\ Forall (fun kp => priorityc !! kp.1 = Some kp.2) keyed.
Proof.
  intros H%mapM_res_Ok_Forall2.
  induction H as [|c [c' p] l keyed Hc _ IH]; [by split|].
  destruct IH as [IH1 IH2].
  destruct (priorityc !! c) as [p'|] eqn:Hp; [|done]. inversion Hc; subst.
  simpl. split; [done|]. by constructor.
Qed.

Lemma keyed_total (priorityc : gmap Z Z) (l : list Z) :
  (forall x, x ∈ l -> is_Some (priorityc !! x)) ->
  exists keyed,
    mapM (fun c => match priorityc !! c with
                   | Some p => Ok (c, p)
                   | None => Raise (KeyError c)
                   end) l = Ok keyed.
Proof.
  induction l as [|c l IH]; intros Hl; [by exists []|].
  destruct IH as [keyed Hk]; [intros x Hx; apply Hl; by right|].
  destruct (Hl c) as [p Hp]; [by left|].
  exists ((c, p) :: keyed). by rewrite mapM_res_cons, Hp, Hk.
Qed.

Lemma filter_fst_keyed (priorityc : gmap Z Z) (p : Z) (keyed : list (Z * Z)) :
  Forall (fun kp => priorityc !! kp.1 = Some kp.2) keyed ->
  filter (fun c => priorityc !! c = Some p) (map fst keyed)
  = map fst (filter (fun kp => kp.2 = p) keyed).
Proof.
  induction 1 as [|[c q] keyed Hc _ IH]; [done|]. simpl in Hc.
  cbn [map]. rewrite !filter_cons. simpl. rewrite IH, Hc.
  destruct (decide (q = p)) as [->|Hne].
  - by rewrite decide_True.
  - rewrite decide_False; [done|congruence].
Qed.

(** X13. The cards of a variant are listed by ascending priority, cards of
    the same priority in the order of the card universe; the list is a
    rearrangement of the cards selected.  A selected card without an entry
    in the priority map makes the sort raise [KeyError] for the first such
    card. *)
Theorem sorted_by_priority_spec (priorityc : gmap Z Z) (l : list Z) :
  ((forall x, x ∈ l -> is_Some (priorityc !! x)) ->
   exists l',
     sorted_by_priority priorityc l = Ok l'
     /\ l' ≡ₚ l
     /\ StronglySorted (fun x y => forall px py,
          priorityc !! x = Some px -> priorityc !! y = Some py -> px <= py) l'
     /\ forall p, filter (fun c => priorityc !! c = Some p) l'
                  = filter (fun c => priorityc !! c = Some p) l)
  /\ (forall l1 c l2,
        l = l1 ++ c :: l2 ->
        (forall x, x ∈ l1 -> is_Some (priorityc !! x)) ->
        priorityc !! c = None ->
        sorted_by_priority priorityc l = Raise (KeyError c)).
Proof.
  split.
  - intros Hl. destruct (keyed_total priorityc l Hl) as [keyed Hk].
    destruct (keyed_Ok _ _ _ Hk) as [Hfst Hall].
    exists (map fst (sorted_by_key snd keyed)).
    assert (Hall' : Forall (fun kp => priorityc !! kp.1 = Some kp.2)
                           (sorted_by_key snd keyed))
      by (by rewrite sorted_by_key_Permutation).
    split; [unfold sorted_by_priority; by rewrite Hk|]. split; [|split].
    + by rewrite map_is_fmap, sorted_by_key_Permutation, <- map_is_fmap, Hfst.
    + pose proof (sorted_by_key_sorted snd keyed) as Hs.
      induction Hs as [|[c p] ks Hs IH Hc]; [constructor|].
      apply Forall_cons in Hall' as [Hcp Hall']. simpl in Hcp.
      cbn [map]. constructor; [by apply IH|]. simpl.
      rewrite map_is_fmap, Forall_fmap.
      rewrite Forall_forall in Hc, Hall'. apply Forall_forall.
      intros [c' p'] Hin px py Hpx Hpy. simpl in *.
      specialize (Hc _ Hin). specialize (Hall' _ Hin). simpl in *.
      rewrite Hcp in Hpx. rewrite Hall' in Hpy. inversion Hpx; inversion Hpy; subst.
      done.
    + intros p. rewrite (filter_fst_keyed _ _ _ Hall'), sorted_by_key_stable.
      by rewrite <- (filter_fst_keyed _ _ _ Hall), Hfst.
  - intros l1 c l2 -> Hl1 Hc. unfold sorted_by_priority.
    rewrite mapM_res_app.
    destruct (keyed_total priorityc l1 Hl1) as [keyed ->].
    rewrite bind_Ok, mapM_res_cons, Hc. reflexivity.
Qed.

(** ** Depth bounds of the priority analyzer *)

Lemma lookup_union_list_Some (ps : list (gmap Z Z)) (i p : Z) :
  (⋃ ps : gmap Z Z) !! i = Some p -> exists q, q ∈ ps /\ q !! i = Some p.
Proof.
  induction ps as [|q ps IH]; simpl; [by rewrite lookup_empty|].
  intros [Hq|[_ Hp]]%lookup_union_Some_raw.
  - exists q. split; [by left|done].
  - destruct (IH Hp) as (q' & Hin & Hq'). exists q'. split; [by right|done].
Qed.

(** X14. Every depth in a map returned by the analyzer from counter [k]
    lies between [k] and [RECURSION_LIMIT + 1], and a map is returned only
    from a counter within the limit. *)
Theorem priority_dict_range (data : Data) (combo : Combo.t) (k : Z)
    (m : gmap Z Z) (card p : Z) :
  priority_dict_for_combo data combo k = Ok m ->
  m !! card = Some p ->
  k <= RECURSION_LIMIT /\ k <= p <= RECURSION_LIMIT + 1.
Proof.
  destruct (Z.ltb_spec RECURSION_LIMIT k) as [Hk|Hk].
  { by rewrite priority_dict_above_limit. }
  remember (Z.to_nat (RECURSION_LIMIT - k)) as n eqn:Hn.
  revert combo k m card p Hk Hn. induction (lt_wf n) as [n _ IH].
  intros combo k m card p Hk ->.
  rewrite priority_dict_for_combo_eq by done. intros H.
  apply bind_Ok_inv in H as (ps & Hps & H). inversion H; subst. clear H.
  intros Hp. split; [done|].
  apply lookup_union_Some_raw in Hp as [Hp|[_ Hp]].
  - apply lookup_union_Some_raw in Hp as [Hp|[_ Hp]];
      apply lookup_gset_to_gmap_Some in Hp as [_ <-]; lia.
  - apply lookup_union_list_Some in Hp as (q & Hq & Hp).
    apply mapM_res_Ok_Forall2 in Hps.
    apply list_elem_of_lookup in Hq as [i Hi].
    destruct (Forall2_lookup_r _ _ _ _ _ Hps Hi) as (c' & _ & Hc').
    destruct (Z.ltb_spec RECURSION_LIMIT (k + 2)) as [Hk2|Hk2].
    { by rewrite priority_dict_above_limit in Hc'. }
    destruct (IH (Z.to_nat (RECURSION_LIMIT - (k + 2)))
                 ltac:(unfold RECURSION_LIMIT in *; lia)
                 c' (k + 2) q card p Hk2 eq_refl Hc' Hp) as [_ Hr].
    lia.
Qed.

(** ** Reading back what was written *)

Lemma variants_get_count (data : Data) (uid : string) :
  match filter (fun v => Variant.unique_id v = uid) (variants data) with
  | [] => variants_get data uid = Raise DoesNotExist /\ uid ∉ persisted_ids data
  | [v] => variants_get data uid = Ok v
  | _ :: _ :: _ =>
      variants_get data uid = Raise MultipleObjectsReturned
      /\ ~ NoDup (map Variant.unique_id (variants data))
  end.
Proof.
  unfold variants_get.
  destruct (filter _ (variants data)) as [|v1 [|v2 l]] eqn:Hf; [|done|].
  - split; [done|]. unfold persisted_ids.
    rewrite elem_of_list_to_set, elem_of_uids. intros (v & Hv & Hu).
    assert (Hin : v ∈ filter (fun v => Variant.unique_id v = uid) (variants data))
      by (by apply list_elem_of_filter).
    rewrite Hf in Hin. by apply elem_of_nil in Hin.
  - split; [done|]. intros Hnd.
    pose proof (filter_uid_length uid (variants data)) as Hlen.
    rewrite Hf in Hlen. simpl in Hlen.
    assert (Hle : (length (filter (fun y => y = uid)
                     (map Variant.unique_id (variants data))) <= 1)%nat).
    { clear Hlen. induction Hnd as [|y l' Hy Hnd IH]; simpl; [lia|].
      rewrite filter_cons. case_decide as Hd; [|done]. subst y. simpl.
      rewrite filter_none; [simpl; lia|]. intros z Hz ->. done. }
    lia.
Qed.

Lemma filter_store_row (row : Variant.t) (data : Data) (u : string) :
  filter (fun v => Variant.unique_id v = u) (variants (store_row row data))
  = if decide (u = Variant.unique_id row)
    then map (fun _ => row)
           (filter (fun v => Variant.unique_id v = u) (variants data))
    else filter (fun v => Variant.unique_id v = u) (variants data).
Proof.
  unfold store_row. simpl.
  induction (variants data) as [|v vs IH]; simpl; [by case_decide|].
  rewrite !filter_cons, IH.
  destruct (decide (Variant.unique_id v = Variant.unique_id row)) as [Hv|Hv];
    destruct (decide (u = Variant.unique_id row)) as [Hu|Hu]; subst.
  - rewrite decide_True by done. rewrite decide_True by done. done.
  - rewrite decide_False by congruence. rewrite decide_False by congruence. done.
  - rewrite decide_False by done. rewrite decide_False by done. done.
  - done.
Qed.

(** X15. A variant created under a unique id that is not yet persisted can
    be fetched by that id and is the row that was built; fetching any other
    id is not affected. *)
Theorem create_variant_then_get (data : Data) (uid : string) (cards : list Z)
    (combos_included features : gset Z) (ok : bool) :
  let data' := create_variant data uid cards combos_included features ok in
  (uid ∉ persisted_ids data ->
     variants_get data' uid
     = Ok (created_row data uid cards combos_included features ok))
  /\ (forall u, u <> uid -> variants_get data' u = variants_get data u).
Proof.
  intros data'. subst data'. rewrite create_variant_row.
  unfold variants_get. simpl. split.
  - intros Hfresh. rewrite filter_app, filter_cons, decide_True by done.
    rewrite filter_nil, (filter_none _ (variants data)); [done|].
    intros v Hv Hu. apply Hfresh. unfold persisted_ids.
    apply elem_of_list_to_set, elem_of_uids. eauto.
  - intros u Hne. rewrite filter_app, filter_cons, decide_False by (simpl; congruence).
    by rewrite filter_nil, app_nil_r.
Qed.

(** X16. [update_variant] fails exactly when the store does not hold one
    row with the unique id: with [DoesNotExist] when there is none, with
    [MultipleObjectsReturned] when there are several (so never when unique
    ids are distinct).  When it succeeds, the row fetched afterwards under
    the id is the updated row, every other id fetches what it fetched
    before, and no row is added or removed. *)
Theorem update_variant_then_get (data : Data) (uid : string)
    (combos_included features : gset Z) (ok restore : bool) :
  (uid ∉ persisted_ids data <->
     update_variant data uid combos_included features ok restore
     = Raise DoesNotExist)
  /\ (update_variant data uid combos_included features ok restore
      = Raise MultipleObjectsReturned ->
      ~ NoDup (map Variant.unique_id (variants data)))
  /\ (forall data',
        update_variant data uid combos_included features ok restore = Ok data' ->
        exists v0,
          variants_get data uid = Ok v0
          /\ variants_get data' uid
             = Ok (updated_row data v0 combos_included features ok restore)
          /\ (forall u, u <> uid -> variants_get data' u = variants_get data u)
          /\ map Variant.unique_id (variants data')
             = map Variant.unique_id (variants data)).
Proof.
  pose proof (variants_get_count data uid) as Hcount.
  split; [|split].
  - unfold update_variant.
    destruct (filter _ (variants data)) as [|v1 [|v2 l]] eqn:Hf.
    + destruct Hcount as [-> Hn]. simpl. tauto.
    + rewrite Hcount. simpl. split; [|done]. intros Hn. exfalso. apply Hn.
      unfold persisted_ids. apply elem_of_list_to_set, elem_of_uids.
      assert (Hin : v1 ∈ filter (fun v => Variant.unique_id v = uid) (variants data))
        by (rewrite Hf; by left).
      apply list_elem_of_filter in Hin as [? ?]. eauto.
    + destruct Hcount as [-> _]. simpl. split; [|done]. intros Hn. exfalso. apply Hn.
      unfold persisted_ids. apply elem_of_list_to_set, elem_of_uids.
      assert (Hin : v1 ∈ filter (fun v => Variant.unique_id v = uid) (variants data))
        by (rewrite Hf; by left).
      apply list_elem_of_filter in Hin as [? ?]. eauto.
  - unfold update_variant.
    destruct (filter _ (variants data)) as [|v1 [|v2 l]] eqn:Hf.
    + destruct Hcount as [-> _]. done.
    + rewrite Hcount. done.
    + destruct Hcount as [_ Hn]. done.
  - intros data' Hup. apply update_variant_inv in Hup as (v0 & Hget & ->).
    exists v0. split; [done|].
    pose proof (variants_get_Ok _ _ _ Hget) as Hf.
    apply variants_get_elem in Hget as [_ Hu0].
    split; [|split].
    + unfold variants_get. rewrite filter_store_row. simpl.
      rewrite decide_True by done. by rewrite Hf.
    + intros u Hne. unfold variants_get. rewrite filter_store_row. simpl.
      rewrite decide_False by congruence. done.
    + apply store_row_uids.
Qed.

(** ** Building the check model *)





(** ** How the pass can fail *)

Lemma bind_Raise_inv {A B} (f : A -> res B) (m : res A) (e : exn) :
  (m ≫= f) = Raise e -> m = Raise e \/ exists a, m = Ok a /\ f a = Raise e.
Proof.
  destruct m as [a|e'|]; simpl; intros H; [right; by exists a|left; congruence|done].
Qed.

Lemma exclusion_Raise (l : list Z) (e : exn) :
  exclusion l = Raise e -> e = ValueError.
Proof. destruct l; intros H; by inversion H. Qed.

Lemma sorted_by_priority_Raise (priorityc : gmap Z Z) (l : list Z) (e : exn) :
  sorted_by_priority priorityc l = Raise e -> exists c, e = KeyError c.
Proof.
  unfold sorted_by_priority. intros [H|(keyed & _ & H)]%bind_Raise_inv; [|done].
  apply mapM_res_Raise in H as (c & _ & Hc).
  destruct (priorityc !! c); inversion Hc. eauto.
Qed.

Lemma exclude_variants_model_Raise (model : Model) (data : Data) (e : exn) :
  exclude_variants_model model data = Raise e -> e = ValueError.
Proof.
  unfold exclude_variants_model. intros [H|(m & _ & H)]%bind_Raise_inv; [|done].
  revert model H.
  induction (filter _ (variants data)) as [|v vs IH]; intros model H; [done|].
  simpl in H. apply bind_Raise_inv in H as [H|(m1 & _ & H)]; [|by apply (IH m1)].
  apply bind_Raise_inv in H as [H|(c & _ & H)]; [|done].
  by apply exclusion_Raise in H.
Qed.

Section Failures.
Variable sha256_hexdigest : string -> string.
Variable solve : Model -> option (var -> bool).

Lemma loop_Raise (fuel : nat) :
  forall (m : Model) (priorityc : gmap Z Z)
         (result : list (string * VariantDefinition)) (e : exn),
    variants_from_combo_loop sha256_hexdigest solve fuel m priorityc result
      = Raise e ->
    e = ValueError \/ exists c, e = KeyError c.
Proof.
  induction fuel as [|fuel IH]; intros m priorityc result e; simpl; [done|].
  destruct (solve_combo_model solve m) as [[] m1]; [|done].
  intros [H|(l & _ & H)]%bind_Raise_inv.
  { right. by apply sorted_by_priority_Raise in H. }
  apply bind_Raise_inv in H as [H|(c & _ & H)].
  { left. by apply exclusion_Raise in H. }
  by apply IH in H.
Qed.

Lemma get_variants_Raise (fuel : nat) (model : Model) (data : Data) (e : exn) :
  get_variants_from_model sha256_hexdigest solve fuel model data = Raise e ->
  e = ValueError \/ (exists c, e = KeyError c)
  \/ exists i, e = RecursionLimitReached i.
Proof.
  unfold get_variants_from_model.
  intros [H|(results & _ & H)]%bind_Raise_inv; [|done].
  apply mapM_res_Raise in H as (c & _ & H).
  apply bind_Raise_inv in H as [H|(priorityc & _ & H)].
  { right. right. by apply priority_dict_Raise in H. }
  unfold variants_from_combo in H.
  apply bind_Raise_inv in H as [H|(r & _ & H)]; [|done].
  apply loop_Raise in H. tauto.
Qed.

Lemma save_loop_Raise (old_id_set to_restore : gset string)
    (vs : list (string * VariantDefinition)) :
  forall (vcm : Model) (d : Data) (e : exn),
    (forall u, u ∈ old_id_set -> u ∈ persisted_ids d) ->
    foldM (save_variant solve old_id_set to_restore) (vcm, d) vs = Raise e ->
    e = MultipleObjectsReturned.
Proof.
  induction vs as [|[u def] vs IH]; intros vcm d e Hsub; simpl; [done|].
  intros [H|([vcm1 d1] & H1 & H)]%bind_Raise_inv.
  - unfold save_variant in H.
    destruct (is_variant_valid solve vcm (card_ids def)) as [ok m1].
    case_decide as Hu; [|done].
    apply bind_Raise_inv in H as [H|(d1 & _ & H)]; [|done].
    unfold update_variant in H.
    apply bind_Raise_inv in H as [H|(v & _ & H)]; [|done].
    pose proof (variants_get_count d u) as Hcount.
    destruct (filter _ (variants d)) as [|v1 [|v2 l]].
    + destruct Hcount as [_ Hn]. exfalso. by apply Hn, Hsub.
    + by rewrite Hcount in H.
    + destruct Hcount as [Hm _]. rewrite Hm in H. by inversion H.
  - apply (IH vcm1 d1 e); [|done]. intros u' Hu'. specialize (Hsub u' Hu').
    unfold persisted_ids in *. rewrite elem_of_list_to_set in *.
    apply save_variant_inv in H1 as [_ [[_ Hup]|[_ ->]]].
    + apply update_variant_inv in Hup as (v0 & _ & ->). by rewrite store_row_uids.
    + rewrite create_variant_row. simpl. rewrite map_app, elem_of_app. by left.
Qed.

Lemma generate_variants_Raise (fuel : nat) (data : Data) (e : exn) :
  generate_variants sha256_hexdigest solve fuel data = Raise e ->
  (e = ValueError \/ (exists c, e = KeyError c)
   \/ (exists i, e = RecursionLimitReached i) \/ e = MultipleObjectsReturned)
  /\ (e = MultipleObjectsReturned ->
      ~ NoDup (map Variant.unique_id (variants data))).
Proof.
  unfold generate_variants. fold (persisted_ids data). fold (restore_snapshot data).
  intros [H|([vs d] & _ & H)]%bind_Raise_inv; [|done].
  destruct (base_model data) as [model|]; [|done].
  apply bind_Raise_inv in H as [H|(vcm & _ & H)].
  { apply exclude_variants_model_Raise in H as ->. split; [by left|done]. }
  apply bind_Raise_inv in H as [H|(vs & _ & H)].
  { apply get_variants_Raise in H.
    split; [tauto|]. intros ->. destruct H as [H|[[c H]|[i H]]]; done. }
  apply bind_Raise_inv in H as [H|(st & _ & H)]; [|done].
  pose proof (save_loop_Raise _ _ vs vcm data e (fun u Hu => Hu) H) as ->.
  split; [tauto|]. intros _ Hnd.
  destruct (save_loop_Ok solve (persisted_ids data) (restore_snapshot data)
              (map Variant.unique_id (variants data)) vs Hnd eq_refl
              vcm data []) as [st Hst].
  - by rewrite app_nil_r.
  - intros u Hu. by apply elem_of_nil in Hu.
  - by rewrite Hst in H.
Qed.
End Failures.

(** X18. The pass fails only in four ways: [ValueError] (a card list
    without cards to exclude), [KeyError] (a selected card without
    priority), the recursion-limit exception of the analyzer, or
    [MultipleObjectsReturned].  It never fails because a variant to update
    is missing, and it fails with [MultipleObjectsReturned] only when two
    persisted variants share a unique id. *)
Theorem pass_failure_modes
    (sha256_hexdigest : string -> string) (solve : Model -> option (var -> bool))
    (fuel : nat) (data : Data) (e : exn) :
  generate_variants sha256_hexdigest solve fuel data = Raise e ->
  e <> DoesNotExist
  /\ (e = ValueError \/ (exists c, e = KeyError c)
      \/ (exists i, e = RecursionLimitReached i) \/ e = MultipleObjectsReturned)
  /\ (e = MultipleObjectsReturned ->
      ~ NoDup (map Variant.unique_id (variants data))).
Proof.
  intros H. apply generate_variants_Raise in H as [Hmode Hdup].
  split; [|by split]. intros ->.
  destruct Hmode as [H|[[c H]|[[i H]|H]]]; done.
Qed.

(** ** The serialization of a card list determines the list *)

Lemma pretty_N_char_undelimited (x : N) : ~ delimiter (pretty_N_char x).
Proof.
  unfold delimiter, pretty_N_char. intros [H|H]; by repeat case_match.
Qed.

Lemma pretty_N_go_undelimited (x : N) (s : string) :
  undelimited s -> undelimited (pretty_N_go x s).
Proof.
  revert s. induction (N.lt_wf_0 x) as [x _ IH]; intros s Hs.
  assert (x = 0 \/ 0 < x)%N as [->|Hx] by lia.
  - by rewrite pretty_N_go_0.
  - rewrite pretty_N_go_step by done. apply IH.
    + by apply N.div_lt.
    + split; [apply pretty_N_char_undelimited|done].
Qed.

Lemma pretty_N_go_nonempty (x : N) (s : string) :
  s <> "" -> pretty_N_go x s <> "".
Proof.
  revert s. induction (N.lt_wf_0 x) as [x _ IH]; intros s Hs.
  assert (x = 0 \/ 0 < x)%N as [->|Hx] by lia.
  - by rewrite pretty_N_go_0.
  - rewrite pretty_N_go_step by done. apply IH; [by apply N.div_lt|done].
Qed.

Lemma pretty_N_spec (x : N) :
  undelimited (pretty x) /\ pretty x <> "".
Proof.
  unfold pretty, pretty_N. case_decide as Hx.
  - split; [|done]. simpl. split; [|done]. unfold delimiter. by intros [?|?].
  - split; [by apply pretty_N_go_undelimited|].
    assert (0 < x)%N by lia. rewrite pretty_N_go_step by done.
    by apply pretty_N_go_nonempty.
Qed.

Lemma pretty_Z_spec (z : Z) :
  undelimited (pretty z) /\ pretty z <> "".
Proof.
  destruct z as [|p|p].
  - split; [|done]. simpl. split; [|done]. unfold delimiter. by intros [?|?].
  - apply (pretty_N_spec (N.pos p)).
  - change (pretty (Z.neg p)) with ("-" +:+ pretty (N.pos p)).
    destruct (pretty_N_spec (N.pos p)) as [Hu _]. split; [|done].
    simpl. split; [|done]. unfold delimiter. by intros [?|?].
Qed.

(** Two items followed by a delimiter each: the items and the rests agree. *)
Lemma undelimited_split (s1 s2 t1 t2 : string) (c1 c2 : Ascii.ascii) :
  undelimited s1 -> undelimited s2 -> delimiter c1 -> delimiter c2 ->
  s1 +:+ String c1 t1 = s2 +:+ String c2 t2 ->
  s1 = s2 /\ String c1 t1 = String c2 t2.
Proof.
  revert s2. induction s1 as [|a s1 IH]; intros [|b s2] Hs1 Hs2 Hc1 Hc2 H; simpl in *.
  - done.
  - inversion H; subst. by destruct Hs2 as [? _].
  - inversion H; subst. by destruct Hs1 as [? _].
  - inversion H; subst.
    destruct (IH s2) as [-> ?]; [tauto|tauto|done|done|done|]. done.
Qed.

Lemma string_app_assoc (s1 s2 s3 : string) :
  (s1 +:+ s2) +:+ s3 = s1 +:+ (s2 +:+ s3).
Proof.
  induction s1 as [|a s1 IH]; [done|].
  change (String a ((s1 +:+ s2) +:+ s3) = String a (s1 +:+ (s2 +:+ s3))).
  congruence.
Qed.

(** The text after the opening bracket, item by item. *)
Lemma json_dumps_cons (x : Z) (l : list Z) :
  join ", " (map pretty (x :: l)) +:+ "]"
  = pretty x +:+ match l with
                 | [] => "]"
                 | _ :: _ => ", " +:+ (join ", " (map pretty l) +:+ "]")
                 end.
Proof.
  destruct l as [|y l]; [done|].
  change (join ", " (map pretty (x :: y :: l)))
    with (pretty x +:+ ", " +:+ join ", " (map pretty (y :: l))).
  by rewrite !string_app_assoc.
Qed.

Lemma json_body_inj (l1 l2 : list Z) :
  join ", " (map pretty l1) +:+ "]" = join ", " (map pretty l2) +:+ "]" ->
  l1 = l2.
Proof.
  assert (Hd1 : delimiter (Ascii.ascii_of_nat 44)) by (by left).
  assert (Hd2 : delimiter (Ascii.ascii_of_nat 93)) by (by right).
  assert (Hnil : forall (x : Z) (l : list Z),
    "]" <> pretty x +:+ match l with
                        | [] => "]"
                        | _ :: _ => ", " +:+ (join ", " (map pretty l) +:+ "]")
                        end).
  { intros x l H. destruct (pretty_Z_spec x) as [Hu Hne].
    destruct (pretty x) as [|a s]; [done|]. simpl in H. inversion H; subst.
    destruct Hu as [Ha _]. by apply Ha. }
  revert l2. induction l1 as [|x l1 IH]; intros [|y l2].
  - done.
  - rewrite json_dumps_cons. intros H. by apply Hnil in H.
  - rewrite json_dumps_cons. intros H. symmetry in H. by apply Hnil in H.
  - rewrite !json_dumps_cons. intros H.
    destruct (pretty_Z_spec x) as [Hx _], (pretty_Z_spec y) as [Hy _].
    destruct l1 as [|x' l1], l2 as [|y' l2].
    + apply undelimited_split in H as [H _]; [|done..].
      by apply (inj pretty) in H as ->.
    + apply undelimited_split in H as [_ H]; [|done..]. by inversion H.
    + apply undelimited_split in H as [_ H]; [|done..]. by inversion H.
    + apply undelimited_split in H as [Hxy H]; [|done..].
      apply (inj pretty) in Hxy as ->. f_equal. apply IH.
      by inversion H.
Qed.

Lemma json_dumps_inj (l1 l2 : list Z) :
  json_dumps l1 = json_dumps l2 -> l1 = l2.
Proof.
  unfold json_dumps. intros H. apply json_body_inj.
  simpl in H. by inversion H.
Qed.

Lemma sorted_eq_Permutation (l1 l2 : list Z) :
  sorted l1 = sorted l2 <-> l1 ≡ₚ l2.
Proof.
  split; [|apply sorted_Permutation]. intros H.
  rewrite <- (sorted_by_key_Permutation (fun x => x) l1).
  rewrite <- (sorted_by_key_Permutation (fun x => x) l2).
  unfold sorted in H. by rewrite H.
Qed.

(** X19. The serialization that is hashed determines the card list: two
    lists have the same [json.dumps] text only if they are equal, so the
    texts of two card lists coincide after sorting exactly when the lists
    are rearrangements of each other, and two card lists that are not get
    the same unique id only through a collision of the digest. *)
Theorem unique_id_identifies_cards (l1 l2 : list Z) :
  (json_dumps l1 = json_dumps l2 -> l1 = l2)
  /\ (json_dumps (sorted l1) = json_dumps (sorted l2) <-> l1 ≡ₚ l2)
  /\ forall sha256_hexdigest : string -> string,
       (forall s1 s2, sha256_hexdigest s1 = sha256_hexdigest s2 -> s1 = s2) ->
       (unique_id_from_cards_ids sha256_hexdigest l1
        = unique_id_from_cards_ids sha256_hexdigest l2 <-> l1 ≡ₚ l2).
Proof.
  assert (H2 : json_dumps (sorted l1) = json_dumps (sorted l2) <-> l1 ≡ₚ l2).
  { rewrite <- sorted_eq_Permutation. split; [apply json_dumps_inj|by intros ->]. }
  split; [apply json_dumps_inj|]. split; [done|].
  intros sha Hinj. unfold unique_id_from_cards_ids. rewrite <- H2.
  split; [apply Hinj|by intros ->].
Qed.

(** ** The validity check starts from a clean slate *)

Lemma fix_c_fold_other (ids : list Z) (m : Model) (v : var) :
  (forall k, v <> c_ k) ->
  fixed (foldl (fun model card_id => fix_c card_id true model) m ids) v = fixed m v.
Proof.
  intros Hv. revert m. induction ids as [|k ids IH]; intros m; simpl; [done|].
  rewrite IH. simpl. by rewrite decide_False.
Qed.

Lemma opt_solve_shape (solve : Model -> option (var -> bool)) (m : Model) :
  fixed (opt_solve solve m).2 = fixed m
  /\ constraints (opt_solve solve m).2 = constraints m
  /\ variables (opt_solve solve m).2 = variables m.
Proof. unfold opt_solve. by destruct (solve m). Qed.

Lemma is_variant_valid_fixed (solve : Model -> option (var -> bool))
    (m : Model) (card_ids : list Z) (k : Z) :
  k ∈ C m ->
  fixed (is_variant_valid solve m card_ids).2 (c_ k)
  = Some (bool_decide (k ∈ card_ids)).
Proof.
  intros Hk. unfold is_variant_valid.
  destruct (opt_solve_shape solve
    (foldl (fun model card_id => fix_c card_id true model)
           (fix_all_c false m) card_ids)) as (-> & _ & _).
  case_bool_decide as Hin.
  - apply fix_c_fold_fixed. by left.
  - rewrite fix_c_fold_unfixed by done. simpl. by rewrite decide_True.
Qed.

(** X20. Each validity check fixes every card variable of the model anew:
    to 1 for the cards of the candidate and to 0 for all the others,
    whatever an earlier check on the same model fixed; combo and feature
    variables are never fixed by it and no constraint is changed.  With a
    sound solver, a candidate is valid only if some assignment satisfies
    all the constraints of the check model while selecting exactly the
    candidate's cards of the card universe. *)
Theorem is_variant_valid_clean_slate (solve : Model -> option (var -> bool))
    (m : Model) (card_ids : list Z) :
  let m' := (is_variant_valid solve m card_ids).2 in
  (forall k, k ∈ C m -> fixed m' (c_ k) = Some (bool_decide (k ∈ card_ids)))
  /\ (forall i, fixed m' (b_ i) = fixed m (b_ i))
  /\ (forall j, fixed m' (f_ j) = fixed m (f_ j))
  /\ constraints m' = constraints m
  /\ ((forall m a, solve m = Some a -> feasible m a = true) ->
      (is_variant_valid solve m card_ids).1 = true ->
      forallb (holds (value m')) (constraints m) = true
      /\ forall k, k ∈ C m -> (value m' (c_ k) = true <-> k ∈ card_ids)).
Proof.
  intros m'. subst m'.
  destruct (fix_c_fold_shape card_ids (fix_all_c false m)) as (H1 & H2 & _ & _).
  split; [intros k Hk; by apply is_variant_valid_fixed|].
  split; [|split; [|split]].
  - intros i. unfold is_variant_valid.
    destruct (opt_solve_shape solve
      (foldl (fun model card_id => fix_c card_id true model)
             (fix_all_c false m) card_ids)) as (-> & _ & _).
    by rewrite fix_c_fold_other.
  - intros j. unfold is_variant_valid.
    destruct (opt_solve_shape solve
      (foldl (fun model card_id => fix_c card_id true model)
             (fix_all_c false m) card_ids)) as (-> & _ & _).
    by rewrite fix_c_fold_other.
  - unfold is_variant_valid.
    destruct (opt_solve_shape solve
      (foldl (fun model card_id => fix_c card_id true model)
             (fix_all_c false m) card_ids)) as (_ & -> & _).
    by rewrite H1.
  - intros Hsound Hvalid.
    pose proof (is_variant_valid_fixed solve m card_ids) as Hfix.
    unfold is_variant_valid, opt_solve in *.
    destruct (solve _) as [a|] eqn:Hs; [|done]. simpl in *.
    apply Hsound in Hs. unfold feasible in Hs.
    apply andb_true_iff in Hs as [Hc Hf]. rewrite H1 in Hc.
    split; [done|]. intros k Hk.
    rewrite (respects_fixed_spec _ a (c_ k) (bool_decide (k ∈ card_ids)) Hf).
    + by rewrite bool_decide_eq_true.
    + rewrite H2. unfold variables. simpl. rewrite !elem_of_app. right. right.
      rewrite map_is_fmap. by apply list_elem_of_fmap_2.
    + by apply Hfix.
Qed.

(** ** The three stages of a round *)

Lemma feasible_more (m m1 : Model) (a : var -> bool) (extra : list constr) :
  feasible m1 a = true ->
  V m1 = V m -> BC m1 = BC m -> BF m1 = BF m -> BCF m1 = BCF m ->
  FC m1 = FC m -> FB m1 = FB m -> FCB m1 = FCB m -> XB m1 = XB m ->
  Sequential m1 = Sequential m ++ extra -> Variants m1 = Variants m ->
  fixed m1 = fixed m -> variables m1 = variables m ->
  feasible m a = true /\ forallb (holds a) extra = true.
Proof.
  intros H E1 E2 E3 E4 E5 E6 E7 E8 E9 E10 E11 E12. revert H.
  unfold feasible, constraints, respects_fixed.
  rewrite E1, E2, E3, E4, E5, E6, E7, E8, E9, E10, E11, E12.
  cbn [forallb]. rewrite !forallb_app, !andb_true_iff. tauto.
Qed.

Section Staged.
Variable solve : Model -> option (var -> bool).

(** Each solve of a round is on the model that the stage before left. *)
Lemma solve_combo_model_cases (m : Model) :
  match solve (activate MinimizeCards m) with
  | None => (solve_combo_model solve m).1 = false
  | Some a1 =>
      match solve (second_stage m a1) with
      | None => (solve_combo_model solve m).1 = false
      | Some a2 =>
          match solve (third_stage m a1 a2) with
          | None => (solve_combo_model solve m).1 = false
          | Some a3 =>
              (solve_combo_model solve m).1 = true
              /\ value (solve_combo_model solve m).2 = a3
          end
      end
  end.
Proof.
  unfold solve_combo_model, opt_solve.
  destruct (solve (activate MinimizeCards m)) as [a1|] eqn:H1; [|done].
  cbv zeta. change (solve (activate MaximizeFeatures _))
    with (solve (second_stage m a1)).
  destruct (solve (second_stage m a1)) as [a2|] eqn:H2; [|done].
  cbv zeta. change (solve (activate MaximizeCombos _))
    with (solve (third_stage m a1 a2)).
  destruct (solve (third_stage m a1 a2)) as [a3|] eqn:H3; [|done].
  done.
Qed.

Hypothesis solve_sound : forall m a, solve m = Some a -> feasible m a = true.

(** X21. A round succeeds exactly when its three solves do, each on the
    model that the stage before left, and a successful round is
    lexicographic: the values it leaves in the model are those of the third
    solve; they satisfy every constraint and fixing of the model the round
    was given, select no more cards than the solution of the first solve
    and yield no fewer features than the solution of the second solve,
    which itself selects no more cards than the first. *)
Theorem solve_combo_model_stages (m : Model) :
  ((solve_combo_model solve m).1 = true <->
   exists a1 a2 a3,
     solve (activate MinimizeCards m) = Some a1
     /\ solve (second_stage m a1) = Some a2
     /\ solve (third_stage m a1 a2) = Some a3)
  /\ forall m',
       solve_combo_model solve m = (true, m') ->
       exists a1 a2,
         solve (activate MinimizeCards m) = Some a1
         /\ solve (second_stage m a1) = Some a2
         /\ solve (third_stage m a1 a2) = Some (value m')
         /\ feasible m a1 = true /\ feasible m a2 = true
         /\ feasible m (value m') = true
         /\ eval a2 (objective_expr m MinimizeCards)
            <= eval a1 (objective_expr m MinimizeCards)
         /\ eval (value m') (objective_expr m MinimizeCards)
            <= eval a1 (objective_expr m MinimizeCards)
         /\ eval a2 (objective_expr m MaximizeFeatures)
            <= eval (value m') (objective_expr m MaximizeFeatures).
Proof.
  pose proof (solve_combo_model_cases m) as Hc. split.
  { destruct (solve (activate MinimizeCards m)) as [a1|] eqn:H1.
    2:{ rewrite Hc. split; [done|]. by intros (a1 & a2 & a3 & ? & _). }
    destruct (solve (second_stage m a1)) as [a2|] eqn:H2.
    2:{ rewrite Hc. split; [done|]. intros (b1 & b2 & b3 & Hb1 & Hb2 & _).
        inversion Hb1; subst b1. by rewrite H2 in Hb2. }
    destruct (solve (third_stage m a1 a2)) as [a3|] eqn:H3.
    2:{ rewrite Hc. split; [done|]. intros (b1 & b2 & b3 & Hb1 & Hb2 & Hb3).
        inversion Hb1; subst b1. rewrite H2 in Hb2. inversion Hb2; subst b2.
        by rewrite H3 in Hb3. }
    destruct Hc as [-> _]. split; [|done]. intros _. by exists a1, a2, a3. }
  intros m' Hs. rewrite Hs in Hc.
  destruct (solve (activate MinimizeCards m)) as [a1|] eqn:H1; [|done].
  destruct (solve (second_stage m a1)) as [a2|] eqn:H2; [|done].
  destruct (solve (third_stage m a1 a2)) as [a3|] eqn:H3; [|done].
  destruct Hc as [_ Hv]. simpl in Hv. subst a3.
  exists a1, a2. split; [done|]. split; [done|]. split; [done|].
  apply solve_sound in H1, H2, H3.
  eapply (feasible_more m _ a1 []) in H1 as [H1 _];
    [|try done; simpl; by rewrite ?app_nil_r..].
  eapply (feasible_more m _ a2 [_]) in H2 as [H2 Hb2]; [|done..].
  eapply (feasible_more m _ (value m') [_; _]) in H3 as [H3 Hb3];
    [|try done; simpl; by rewrite <- ?app_assoc..].
  split; [done|]. split; [done|]. split; [done|].
  cbn [forallb holds] in Hb2, Hb3.
  apply andb_true_iff in Hb2 as [Hb2 _].
  apply andb_true_iff in Hb3 as [Hb3 Hb4].
  apply andb_true_iff in Hb4 as [Hb4 _].
  apply Z.leb_le in Hb2. apply Z.leb_le in Hb3. apply Z.leb_le in Hb4.
  unfold pyo_value in Hb2, Hb3, Hb4.
  cbn [value set_value objective_expr C F activate deactivate set_active
       set_Sequential second_stage] in Hb2, Hb3, Hb4.
  rewrite eval_num in Hb2, Hb3, Hb4.
  split; [exact Hb2|]. split; [exact Hb3|exact Hb4].
Qed.
End Staged.

(** ** The further properties on concrete catalogs *)

Import Scenarios.

Lemma chain_cyclic : chain cyclic 2 comboA comboA.
Proof.
  apply (chain_S cyclic 1 comboA comboB comboA); [vm_compute; by left|].
  apply (chain_S cyclic 0 comboB comboA comboA); [vm_compute; by left|].
  apply chain_O.
Qed.

Lemma cycle_is_rejected_witness :
  check_combo_sanity cyclic comboA 0 = false
  /\ exists i, priority_dict_for_combo cyclic comboA 0
               = Raise (RecursionLimitReached i).
Proof. exact (cycle_is_rejected cyclic 1 comboA 0 chain_cyclic). Defined.

Lemma depths_comboY : priority_dict_for_combo (catalog []) comboY 0 = Ok depths.
Proof. vm_compute. reflexivity. Qed.

Lemma priority_dict_implies_sanity_witness :
  check_combo_sanity (catalog []) comboY 0 = true.
Proof.
  apply (priority_dict_implies_sanity (catalog []) comboY 0 0 depths depths_comboY).
  unfold RECURSION_LIMIT. lia.
Defined.

Lemma forward_func_generator_witness :
  filter (fun c => Combo.generator c = true) (combos (forward_func legacy))
  = [comboX].
Proof.
  destruct (forward_func_generator legacy) as (_ & H & _). rewrite H.
  vm_compute. reflexivity.
Defined.

Lemma base_model_semantics_witness :
  feasible base pick_all = true <-> consistent (catalog []) pick_all.
Proof. apply (base_model_semantics (catalog []) base pick_all). reflexivity. Defined.

Lemma combo_model_semantics_witness :
  feasible (combo_model base comboY) pick_all = true <->
  consistent (catalog []) pick_all /\ pick_all (b_ (Combo.id comboY)) = true.
Proof.
  destruct (combo_model_semantics (catalog []) base comboY pick_all) as [H _].
  - reflexivity.
  - exact H.
Defined.

Lemma round_seeded :
  exists m', solve_combo_model brute_solve seeded = (true, m').
Proof. eexists. vm_compute. reflexivity. Qed.

Lemma solve_combo_model_cleans_up_witness :
  exists m', solve_combo_model brute_solve seeded = (true, m')
             /\ Sequential m' = [] /\ Variants m' = Variants seeded.
Proof.
  destruct round_seeded as [m' H]. exists m'. split; [exact H|].
  destruct (solve_combo_model_cleans_up brute_solve seeded m' true H)
    as (H1 & _ & _ & _ & _ & _ & _ & H8 & _).
  split; [exact H1|exact H8].
Defined.

Lemma alt_depths_comboZ :
  priority_dict_for_combo alternatives comboZ 0 = Ok alt_depths.
Proof. vm_compute. reflexivity. Qed.

Lemma loop_alternatives :
  exists m' r,
    variants_from_combo_loop plain_digest brute_solve 9 alt_seeded alt_depths []
      = Ok (m', r)
    /\ length (Variants m') = 2%nat.
Proof.
  eexists. eexists. split; [vm_compute; reflexivity|]. vm_compute. reflexivity.
Qed.

Lemma two_rounds (m' : Model) (defs : list VariantDefinition) (cs : list constr) :
  Variants m' = Variants alt_seeded ++ cs ->
  Forall2 (fun def c => exclusion (card_ids def) = Ok c) defs cs ->
  length (Variants m') = 2%nat -> length defs = 2%nat.
Proof.
  intros HV Hcs Hlen. rewrite HV in Hlen. apply Forall2_length in Hcs.
  simpl in Hlen. lia.
Qed.

Lemma enumeration_never_repeats_witness :
  exists m' r defs,
    variants_from_combo_loop plain_digest brute_solve 9 alt_seeded alt_depths []
      = Ok (m', r)
    /\ r = record_all plain_digest [] defs
    /\ length defs = 2%nat
    /\ never_again (map card_ids defs).
Proof.
  destruct loop_alternatives as (m' & r & H & Hlen).
  destruct (enumeration_never_repeats plain_digest brute_solve brute_solve_sound
              9 alt_seeded m' alt_depths r H)
    as (defs & cs & Hr & HV & Hcs & _ & _ & _ & Hna & _).
  exists m', r, defs. split; [exact H|]. split; [exact Hr|].
  split; [exact (two_rounds m' defs cs HV Hcs Hlen)|exact Hna].
Defined.

Example enumeration_alternatives :
  (variants_from_combo plain_digest brute_solve 9 alt_seeded alt_depths)
  = Ok [("[1, 3]", {| card_ids := [1; 3]; combo_ids := {[400]};
                      feature_ids := {[30]} |});
        ("[1, 2]", {| card_ids := [1; 2]; combo_ids := {[400]};
                      feature_ids := {[30]} |})].
Proof. vm_compute. reflexivity. Qed.

Lemma discovered_catalog :
  exists vs, get_variants_from_model plain_digest brute_solve 9 base (catalog [])
             = Ok vs.
Proof. eexists. vm_compute. reflexivity. Qed.

Lemma discovered_variants_sound_witness :
  exists vs, get_variants_from_model plain_digest brute_solve 9 base (catalog [])
             = Ok vs
             /\ NoDup (map fst vs).
Proof.
  destruct discovered_catalog as [vs H]. exists vs. split; [exact H|].
  destruct (discovered_variants_sound plain_digest brute_solve 9 (catalog []) base vs)
    as [Hnd _].
  - exact brute_solve_sound.
  - reflexivity.
  - reflexivity.
  - exact H.
  - exact Hnd.
Defined.

Lemma dict_update_entries_witness :
  NoDup (map fst (dict_update [("a", 1)] [("a", 2); ("b", 3)]))
  /\ (("a", 2) ∈ dict_update [("a", 1)] [("a", 2); ("b", 3)] <->
      ("a", 2) ∈ [("a", 2); ("b", 3)]
      \/ (("a", 2) ∈ [("a", 1)] /\ "a" ∉ map fst [("a", 2); ("b", 3)])).
Proof.
  apply (dict_update_entries [("a", 1)] [("a", 2); ("b", 3)] ("a", 2)).
  - apply (bool_decide_unpack _). vm_compute. exact I.
  - apply (bool_decide_unpack _). vm_compute. exact I.
Defined.

Lemma pass_clears_restore_witness :
  exists data',
    run (catalog [variant12 Variant.RESTORE; variant3]) = Ok ((1, 1, 1)%nat, data')
    /\ forall v, v ∈ variants data' -> Variant.status v <> Variant.RESTORE.
Proof.
  destruct run_restore as [data' Hrun]. exists data'. split; [exact Hrun|].
  intros v. exact (pass_clears_restore plain_digest brute_solve 9 _ _ _ v Hrun).
Defined.



Lemma sorted_by_priority_spec_witness :
  sorted_by_priority {[1 := 0]} [1; 7] = Raise (KeyError 7).
Proof.
  destruct (sorted_by_priority_spec {[1 := 0]} [1; 7]) as [_ H].
  apply (H [1] 7 []).
  - reflexivity.
  - intros x Hx. apply list_elem_of_singleton in Hx. rewrite Hx. by exists 0.
  - reflexivity.
Defined.

Lemma depths_card_1 : depths !! 1 = Some 2.
Proof. vm_compute. reflexivity. Qed.

Lemma priority_dict_range_witness :
  0 <= RECURSION_LIMIT /\ 0 <= 2 <= RECURSION_LIMIT + 1.
Proof.
  exact (priority_dict_range (catalog []) comboY 0 depths 1 2
           depths_comboY depths_card_1).
Defined.

Lemma create_variant_then_get_witness :
  variants_get (create_variant (catalog []) "[1, 2]" [1; 2] {[100]} {[10]} true)
    "[1, 2]"
  = Ok (created_row (catalog []) "[1, 2]" [1; 2] {[100]} {[10]} true).
Proof.
  destruct (create_variant_then_get (catalog []) "[1, 2]" [1; 2] {[100]} {[10]} true)
    as [H _].
  apply H. unfold persisted_ids. simpl. apply not_elem_of_empty.
Defined.

Lemma update_restore :
  exists data',
    update_variant (catalog [variant12 Variant.RESTORE]) "[1, 2]" {[100]} {[10]}
      true true = Ok data'.
Proof. eexists. vm_compute. reflexivity. Qed.

Lemma update_variant_then_get_witness :
  exists data' v0,
    update_variant (catalog [variant12 Variant.RESTORE]) "[1, 2]" {[100]} {[10]}
      true true = Ok data'
    /\ variants_get data' "[1, 2]"
       = Ok (updated_row (catalog [variant12 Variant.RESTORE]) v0 {[100]} {[10]}
               true true).
Proof.
  destruct update_restore as [data' Hup].
  destruct (update_variant_then_get (catalog [variant12 Variant.RESTORE]) "[1, 2]"
              {[100]} {[10]} true true) as (_ & _ & H).
  destruct (H data' Hup) as (v0 & _ & Hget & _).
  exists data', v0. split; [exact Hup|exact Hget].
Defined.


Lemma run_doubled :
  generate_variants plain_digest brute_solve 9 doubled
  = Raise MultipleObjectsReturned.
Proof. vm_compute. reflexivity. Qed.

Lemma pass_failure_modes_witness :
  ~ NoDup (map Variant.unique_id (variants doubled)).
Proof.
  destruct (pass_failure_modes plain_digest brute_solve 9 doubled
              MultipleObjectsReturned run_doubled) as (_ & _ & H).
  exact (H eq_refl).
Defined.

Lemma unique_id_identifies_cards_witness :
  unique_id_from_cards_ids plain_digest [1; 2]
  = unique_id_from_cards_ids plain_digest [2; 1] <-> [1; 2] ≡ₚ [2; 1].
Proof.
  destruct (unique_id_identifies_cards [1; 2] [2; 1]) as (_ & _ & H).
  apply (H plain_digest). intros s1 s2 Hs. exact Hs.
Defined.

Lemma card_3_in_base : 3 ∈ C base.
Proof. vm_compute. right. right. by left. Qed.

Lemma is_variant_valid_clean_slate_witness :
  fixed (is_variant_valid brute_solve base [1; 2]).2 (c_ 3)
  = Some (bool_decide (3 ∈ [1; 2])).
Proof.
  destruct (is_variant_valid_clean_slate brute_solve base [1; 2]) as [H _].
  exact (H 3 card_3_in_base).
Defined.

Lemma solve_combo_model_stages_witness :
  exists m' a1 a2,
    solve_combo_model brute_solve seeded = (true, m')
    /\ brute_solve (activate MinimizeCards seeded) = Some a1
    /\ brute_solve (second_stage seeded a1) = Some a2
    /\ brute_solve (third_stage seeded a1 a2) = Some (value m')
    /\ feasible seeded (value m') = true.
Proof.
  destruct round_seeded as [m' H].
  destruct (solve_combo_model_stages brute_solve brute_solve_sound seeded) as [_ Hs].
  destruct (Hs m' H) as (a1 & a2 & H1 & H2 & H3 & _ & _ & Hf & _).
  exists m', a1, a2. split; [exact H|]. split; [exact H1|]. split; [exact H2|].
  split; [exact H3|exact Hf].
Defined.
